(** * Prise OpenTUI client: layout, RPC, connection, keybindings, renderer

    A shallow embedding of the TypeScript client
    ([clients/opentui/src/layout.ts], [rpc.ts], [connection.ts],
    [keybinds.ts], [renderer.ts], [buffer.ts], [input.ts], [session.ts],
    [picker.ts]) and the properties of its specification.

    Conventions.
    - JS numbers that the code uses as identifiers, indices, counters and
      milliseconds are integers, modelled as [Z].
    - A module-level counter or a class instance is an explicit state that
      is passed in and returned.
    - A JS exception is a [None] result (or an [inl] carrying the error).
    - JS [===] on objects compares references.  Where the code relies on
      it, the function returns a flag next to its result telling whether
      the result is a new object or the argument itself. *)

From Stdlib Require Import ZArith QArith Qround Lia.
From Stdlib.Strings Require Import Ascii Byte.
From stdpp Require Import base option list gmap strings fin_maps pretty.

Local Open Scope Z_scope.

(* ===================================================================== *)
(** * Part I: the program *)
(* ===================================================================== *)

(** ** buffer.ts *)

Module Buffer.

(** [interface Rect]; the fields carry a prefix, the source names them
    [x], [y], [width] and [height]. *)
Record Rect := mkRect {
  rect_x : Z;
  rect_y : Z;
  rect_width : Z;
  rect_height : Z;
}.

(** A colour of the drawing library, as [RGBA.fromInts] builds it. *)
Record RGBA := fromInts {
  rgba_r : Z;
  rgba_g : Z;
  rgba_b : Z;
}.

(** A call [buffer.setCell(x, y, char, fg, bg, attrs)].  What a drawing
    function does to the frame buffer is the list of its calls, in
    order. *)
Record SetCell := mkSetCell {
  sc_x : Z;
  sc_y : Z;
  sc_char : string;
  sc_fg : RGBA;
  sc_bg : RGBA;
  sc_attrs : Z;
}.

(** [for (let i = lo; i < hi; i++)] *)
Definition range (lo hi : Z) : list Z := seqZ lo (hi - lo).

Definition paintRect (rect : Rect) (background : RGBA) : list SetCell :=
  row ← range (rect_y rect) (rect_y rect + rect_height rect);
  col ← range (rect_x rect) (rect_x rect + rect_width rect);
  [mkSetCell col row " " background background 0].

Definition drawBorder (rect : Rect) (foreground background : RGBA)
           (focused : bool) : list SetCell :=
  let attrs := if focused then 0 else 2 in
  let cell cx cy ch := mkSetCell cx cy ch foreground background attrs in
  let x := rect_x rect in
  let y := rect_y rect in
  let maxX := x + rect_width rect - 1 in
  let maxY := y + rect_height rect - 1 in
  (if decide (0 <= x ∧ 0 <= y) then [cell x y "┌"] else [])
  ++ (if decide (0 <= maxX ∧ 0 <= y) then [cell maxX y "┐"] else [])
  ++ (if decide (0 <= x ∧ 0 <= maxY) then [cell x maxY "└"] else [])
  ++ (if decide (0 <= maxX ∧ 0 <= maxY) then [cell maxX maxY "┘"] else [])
  ++ (col ← range (x + 1) maxX;
      (if decide (0 <= y) then [cell col y "─"] else [])
      ++ (if decide (0 <= maxY) then [cell col maxY "─"] else []))
  ++ (row ← range (y + 1) maxY;
      (if decide (0 <= x) then [cell x row "│"] else [])
      ++ (if decide (0 <= maxX) then [cell maxX row "│"] else [])).

(** The result of [clipViewport]. *)
Record Viewport := mkViewport {
  offsetX : Z;
  offsetY : Z;
  vp_width : Z;
  vp_height : Z;
}.

Definition clipViewport (rect : Rect) : Viewport :=
  mkViewport (rect_x rect) (rect_y rect) (rect_width rect) (rect_height rect).

(** [None] is the JS [null]. *)
Definition getInnerRect (rect : Rect) : option Rect :=
  if decide (rect_width rect <= 2 ∨ rect_height rect <= 2) then None
  else Some (mkRect (rect_x rect + 1) (rect_y rect + 1)
                    (rect_width rect - 2) (rect_height rect - 2)).

Definition pointInRect (px py : Z) (rect : Rect) : bool :=
  bool_decide (rect_x rect <= px)
  && bool_decide (px < rect_x rect + rect_width rect)
  && bool_decide (rect_y rect <= py)
  && bool_decide (py < rect_y rect + rect_height rect).

Definition rectIntersection (a b : Rect) : option Rect :=
  let x := Z.max (rect_x a) (rect_x b) in
  let y := Z.max (rect_y a) (rect_y b) in
  let maxX := Z.min (rect_x a + rect_width a) (rect_x b + rect_width b) in
  let maxY := Z.min (rect_y a + rect_height a) (rect_y b + rect_height b) in
  if decide (maxX <= x ∨ maxY <= y) then None
  else Some (mkRect x y (maxX - x) (maxY - y)).

End Buffer.

(** ** layout.ts *)

Module Layout.

Inductive SplitDirection := horizontal | vertical.
Inductive FocusDirection := focus_up | focus_down | focus_left | focus_right.

Definition PaneId := Z.
Definition TabId := Z.

Inductive LayoutNode :=
| PaneNode (id : PaneId) (ptyId : option Z)
| SplitNode (direction : SplitDirection) (ratio : Q)
            (first second : LayoutNode).

Record Tab := mkTab {
  tab_id : TabId;
  root : LayoutNode;
  focusedPaneId : PaneId;
}.

Record LayoutState := mkLayoutState {
  tabs : list Tab;
  activeTabId : TabId;
}.

(** *** ID factories: [_paneCounter] and [_tabCounter] *)

Record Counters := mkCounters {
  _paneCounter : Z;
  _tabCounter : Z;
}.

(** Computations that read and bump the two module-level counters. *)
Definition M (A : Type) : Type := Counters -> A * Counters.

Definition ret {A} (a : A) : M A := fun c => (a, c).
Definition bind {A B} (m : M A) (k : A -> M B) : M B :=
  fun c => let '(a, c') := m c in k a c'.

#[export] Instance M_ret : MRet M := @ret.
#[export] Instance M_bind : MBind M := fun A B k m => bind m k.

Definition createPaneId : M PaneId :=
  fun c => let n := _paneCounter c + 1 in
           (n, mkCounters n (_tabCounter c)).

Definition createTabId : M TabId :=
  fun c => let n := _tabCounter c + 1 in
           (n, mkCounters (_paneCounter c) n).

Definition resetIdCounters : Counters := mkCounters 0 0.

(** *** Query functions *)

Fixpoint findPaneInTree (node : LayoutNode) (id : PaneId)
  : option (PaneId * option Z) :=
  match node with
  | PaneNode i p => if decide (i = id) then Some (i, p) else None
  | SplitNode _ _ f s =>
      match findPaneInTree f id with
      | Some x => Some x
      | None => findPaneInTree s id
      end
  end.

Fixpoint getAllPaneIds (node : LayoutNode) : list PaneId :=
  match node with
  | PaneNode i _ => [i]
  | SplitNode _ _ f s => getAllPaneIds f ++ getAllPaneIds s
  end.

Definition hasPane (node : LayoutNode) (id : PaneId) : bool :=
  bool_decide (is_Some (findPaneInTree node id)).

(** *** Layout mutations *)

Definition half : Q := 1 # 2.

(** [splitPane] returns the tree together with [true] when the returned
    object is not the argument object ([result !== node] in JS): a pane
    that does not match is returned as it is, every other path builds a
    new object.  The caller's test [first !== node.first] reads that
    flag. *)
Fixpoint splitPane (node : LayoutNode) (paneId : PaneId)
         (direction : SplitDirection) : M (LayoutNode * bool) :=
  match node with
  | PaneNode i p =>
      if decide (i = paneId) then
        n ← createPaneId;
        ret (SplitNode direction half node (PaneNode n None), true)
      else ret (node, false)
  | SplitNode d r f s =>
      '(first, changed) ← splitPane f paneId direction;
      if (changed : bool) then ret (SplitNode d r first s, true)
      else
        '(second, _) ← splitPane s paneId direction;
        ret (SplitNode d r f second, true)
  end.

(** [None] is the JS [null]: the tab should be closed. *)
Fixpoint closePane (node : LayoutNode) (paneId : PaneId)
  : option LayoutNode :=
  match node with
  | PaneNode i _ => if decide (i = paneId) then None else Some node
  | SplitNode d r f s =>
      match closePane f paneId, closePane s paneId with
      | None, second => second
      | Some first, None => Some first
      | Some first, Some second => Some (SplitNode d r first second)
      end
  end.

(** *** Tab operations *)

Definition createTab : M Tab :=
  paneId ← createPaneId;
  tid ← createTabId;
  ret (mkTab tid (PaneNode paneId None) paneId).

Definition initLayout : M LayoutState :=
  tab ← createTab;
  ret (mkLayoutState [tab] (tab_id tab)).

Definition addTab (state : LayoutState) : M LayoutState :=
  tab ← createTab;
  ret (mkLayoutState (tabs state ++ [tab]) (tab_id tab)).

(** [Array.prototype.findIndex] with the predicate [t.id === tabId];
    [None] is the JS [-1]. *)
Fixpoint findIndex (tabId : TabId) (l : list Tab) : option nat :=
  match l with
  | [] => None
  | t :: l' =>
      if decide (tab_id t = tabId) then Some O
      else S <$> findIndex tabId l'
  end.

(** [Array.prototype.find] with the predicate [t.id === tabId]. *)
Fixpoint findTab (tabId : TabId) (l : list Tab) : option Tab :=
  match l with
  | [] => None
  | t :: l' => if decide (tab_id t = tabId) then Some t else findTab tabId l'
  end.

(** Reading [.id] of [state.tabs[i]] throws a TypeError when the index is
    out of range: the result is [None] then. *)
Definition closeTab (state : LayoutState) (tabId : TabId)
  : option LayoutState :=
  if decide (length (tabs state) <= 1)%nat then Some state
  else
    match findIndex tabId (tabs state) with
    | None => Some state
    | Some index =>
        let newTabs :=
          filter (fun t => tab_id t <> tabId) (tabs state) in
        if decide (activeTabId state = tabId) then
          t ← tabs state !! (if decide (0 < index)%nat
                             then (index - 1)%nat else (index + 1)%nat);
          Some (mkLayoutState newTabs (tab_id t))
        else Some (mkLayoutState newTabs (activeTabId state))
    end.

Definition setActiveTab (state : LayoutState) (tabId : TabId)
  : LayoutState :=
  match findTab tabId (tabs state) with
  | None => state
  | Some _ => mkLayoutState (tabs state) tabId
  end.

(** *** Focused pane operations *)

Definition getActiveTab (state : LayoutState) : option Tab :=
  findTab (activeTabId state) (tabs state).

Definition updateTab (state : LayoutState) (tabId : TabId)
           (updatedTab : Tab) : LayoutState :=
  mkLayoutState
    (map (fun t => if decide (tab_id t = tabId) then updatedTab else t)
         (tabs state))
    (activeTabId state).

(** [ids[ids.length - 1]]: the tree always has a pane, so the index is in
    range (lemma [getAllPaneIds_last] below); [0] stands for the
    [undefined] of an empty array, which does not occur. *)
Definition lastPaneId (ids : list PaneId) : PaneId := default 0 (last ids).

Definition splitFocused (state : LayoutState) (direction : SplitDirection)
  : M LayoutState :=
  match getActiveTab state with
  | None => ret state
  | Some tab =>
      '(newRoot, _) ← splitPane (root tab) (focusedPaneId tab) direction;
      let newPaneId := lastPaneId (getAllPaneIds newRoot) in
      ret (updateTab state (tab_id tab)
                     (mkTab (tab_id tab) newRoot newPaneId))
  end.

Definition closeFocused (state : LayoutState) : option LayoutState :=
  match getActiveTab state with
  | None => Some state
  | Some tab =>
      match closePane (root tab) (focusedPaneId tab) with
      | None => closeTab state (tab_id tab)
      | Some newRoot =>
          let focusedId :=
            match getAllPaneIds newRoot with
            | p :: _ => p
            | [] => focusedPaneId tab
            end in
          Some (updateTab state (tab_id tab)
                          (mkTab (tab_id tab) newRoot focusedId))
      end
  end.

Definition moveFocusToPane (state : LayoutState) (paneId : PaneId)
  : LayoutState :=
  match getActiveTab state with
  | None => state
  | Some tab =>
      if hasPane (root tab) paneId then
        updateTab state (tab_id tab)
                  (mkTab (tab_id tab) (root tab) paneId)
      else state
  end.

(** [Array.prototype.indexOf]; [None] is the JS [-1]. *)
Fixpoint indexOf (p : PaneId) (l : list PaneId) : option nat :=
  match l with
  | [] => None
  | x :: l' => if decide (x = p) then Some O else S <$> indexOf p l'
  end.

(** [paneIds[nextIndex]] out of range would be [undefined], which
    [moveFocusToPane] does not find: the state is returned unchanged. *)
Definition focusNext (state : LayoutState) (direction : FocusDirection)
  : LayoutState :=
  match getActiveTab state with
  | None => state
  | Some tab =>
      let paneIds := getAllPaneIds (root tab) in
      match indexOf (focusedPaneId tab) paneIds with
      | None => state
      | Some currentIndex =>
          if decide (length paneIds <= 1)%nat then state
          else
            let nextIndex :=
              match direction with
              | focus_left | focus_up =>
                  if decide (0 < currentIndex)%nat
                  then (currentIndex - 1)%nat
                  else (length paneIds - 1)%nat
              | _ => ((currentIndex + 1) `mod` length paneIds)%nat
              end in
            match paneIds !! nextIndex with
            | Some p => moveFocusToPane state p
            | None => state
            end
      end
  end.

(** [cycleTab] of the application shell (next and previous tab).  Reading
    [.id] of [tabs[nextIdx]] throws a TypeError when the index is out of
    range: [None]. *)
Definition cycleTab (state : LayoutState) (delta : Z) : option LayoutState :=
  if decide (length (tabs state) <= 1)%nat then Some state
  else
    match findIndex (activeTabId state) (tabs state) with
    | None => Some state
    | Some idx =>
        let n := Z.of_nat (length (tabs state)) in
        (* JS [%] truncates towards zero *)
        let nextIdx := Z.rem (Z.of_nat idx + delta + n) n in
        t ← (if decide (0 <= nextIdx)
             then tabs state !! Z.to_nat nextIdx else None);
        Some (setActiveTab state (tab_id t))
    end.

(** *** Validation *)

Inductive LayoutError :=
| ErrNoTabs
| ErrActiveTabMissing
| ErrFocusedPaneMissing (tab : TabId) (pane : PaneId)
| ErrNoPanes (tab : TabId).

Definition validateTab (tab : Tab) : list LayoutError :=
  (if hasPane (root tab) (focusedPaneId tab) then []
   else [ErrFocusedPaneMissing (tab_id tab) (focusedPaneId tab)])
  ++ (if decide (length (getAllPaneIds (root tab)) = 0%nat)
      then [ErrNoPanes (tab_id tab)] else []).

Definition validateLayoutState (state : LayoutState) : list LayoutError :=
  (if decide (length (tabs state) = 0%nat) then [ErrNoTabs] else [])
  ++ (match findTab (activeTabId state) (tabs state) with
      | None => [ErrActiveTabMissing]
      | Some _ => []
      end)
  ++ concat (map validateTab (tabs state)).

(** *** PTY management *)

(** [setPtyId], with the same flag as [splitPane]: [true] when the result
    is a new object.  The caller's test [first !== node.first] reads it. *)
Fixpoint setPtyId (node : LayoutNode) (paneId : PaneId) (ptyId : Z)
  : LayoutNode * bool :=
  match node with
  | PaneNode i p =>
      if decide (i = paneId) then (PaneNode i (Some ptyId), true)
      else (node, false)
  | SplitNode d r f s =>
      let '(first, changed) := setPtyId f paneId ptyId in
      if (changed : bool) then (SplitNode d r first s, true)
      else
        let '(second, _) := setPtyId s paneId ptyId in
        (SplitNode d r f second, true)
  end.

Definition assignPtyToFocused (state : LayoutState) (ptyId : Z)
  : LayoutState :=
  match getActiveTab state with
  | None => state
  | Some tab =>
      let newRoot := (setPtyId (root tab) (focusedPaneId tab) ptyId).1 in
      updateTab state (tab_id tab)
                (mkTab (tab_id tab) newRoot (focusedPaneId tab))
  end.

(** [pane?.ptyId ?? null] *)
Definition getFocusedPtyId (state : LayoutState) : option Z :=
  match getActiveTab state with
  | None => None
  | Some tab =>
      match findPaneInTree (root tab) (focusedPaneId tab) with
      | Some (_, pty) => pty
      | None => None
      end
  end.

(** *** Rectangle calculation *)

(** [interface Rect] of layout.ts has the fields of the one of buffer.ts;
    the application passes one for the other. *)
Definition Rect := Buffer.Rect.

(** [Math.floor(bounds.y + bounds.height * ratio)]: the ratio is a
    rational, the product and the sum are exact, where the code computes
    with doubles.  The two agree for the ratio 0.5, the only one that the
    code creates; for other ratios they can differ by one (0.29 of 100 is
    29 here and 28 in the code). *)
Definition splitAt (origin extent : Z) (ratio : Q) : Z :=
  Qfloor (inject_Z origin + inject_Z extent * ratio).

Fixpoint calculatePaneRectInTree (node : LayoutNode) (paneId : PaneId)
         (bounds : Rect) : option Rect :=
  match node with
  | PaneNode i _ => if decide (i = paneId) then Some bounds else None
  | SplitNode direction ratio f s =>
      let bx := Buffer.rect_x bounds in
      let by_ := Buffer.rect_y bounds in
      let bw := Buffer.rect_width bounds in
      let bh := Buffer.rect_height bounds in
      let '(firstBounds, secondBounds) :=
        match direction with
        | vertical =>
            let splitY := splitAt by_ bh ratio in
            let firstHeight := splitY - by_ in
            let secondHeight := bh - firstHeight - 1 in
            (Buffer.mkRect bx by_ bw firstHeight,
             Buffer.mkRect bx (splitY + 1) bw secondHeight)
        | horizontal =>
            let splitX := splitAt bx bw ratio in
            let firstWidth := splitX - bx in
            let secondWidth := bw - firstWidth - 1 in
            (Buffer.mkRect bx by_ firstWidth bh,
             Buffer.mkRect (splitX + 1) by_ secondWidth bh)
        end in
      match calculatePaneRectInTree f paneId firstBounds with
      | Some r => Some r
      | None => calculatePaneRectInTree s paneId secondBounds
      end
  end.

Definition getPaneRect (state : LayoutState) (paneId : PaneId)
           (containerRect : Rect) : option Rect :=
  match getActiveTab state with
  | None => None
  | Some tab =>
      if hasPane (root tab) paneId
      then calculatePaneRectInTree (root tab) paneId containerRect
      else None
  end.

(** The [Map] that the loop over the pane ids fills, first id first. *)
Definition getAllPaneRects (state : LayoutState) (containerRect : Rect)
  : gmap PaneId Rect :=
  match getActiveTab state with
  | None => ∅
  | Some tab =>
      foldl (fun result paneId =>
               match getPaneRect state paneId containerRect with
               | Some rect => <[paneId := rect]> result
               | None => result
               end)
            ∅ (getAllPaneIds (root tab))
  end.

End Layout.

(** ** renderer.ts *)

Module Renderer.

(** A cell of a [write] event. *)
Record Cell := mkCell {
  grapheme : string;
  style_id : option Z;   (* omitted or null: reuse the previous one *)
  repeat : option Z;     (* omitted or null: 1 *)
  width : option Z;      (* omitted or null: 1; 2 is a wide character *)
}.

(** An entry of the grid: [{ grapheme: string; style_id?: number }]. *)
Record GridCell := mkGridCell {
  gc_grapheme : string;
  gc_style_id : option Z;
}.

Record StyleAttributes := mkStyleAttributes {
  fg : option Z;
  bg : option Z;
  fg_idx : option Z;
  bg_idx : option Z;
  bold : option bool;
  dim : option bool;
  italic : option bool;
  underline : option bool;
  reverse : option bool;
  blink : option bool;
  strikethrough : option bool;
  ul_style : option Z;
  ul_color : option Z;
}.

Inductive CursorShape := block | beam | underline_shape.

Record CursorState := mkCursorState {
  cur_row : Z;
  cur_col : Z;
  visible : bool;
  shape : CursorShape;
}.

Record SelectionState := mkSelectionState {
  start_row : option Z;
  start_col : option Z;
  end_row : option Z;
  end_col : option Z;
}.

Record Style := mkStyle {
  sty_id : Z;
  attrs : StyleAttributes;
}.

(** The instance fields of [class Renderer].  A JS array is an object
    whose elements are properties keyed by integers: a row is a map from
    column to cell and the grid a map from row to row array, so that an
    assignment [grid[row][c] = x] is defined for every integer [c], as in
    JS.  [dirtyCells] holds the keys [`${row},${col}`], modelled as the
    pairs they print.  Rows, columns and sizes are integers here; the
    code does not check that they are. *)
Record Renderer := mkRenderer {
  rows : Z;
  cols : Z;
  grid : gmap Z (gmap Z GridCell);
  styles : gmap Z Style;
  cursorState : CursorState;
  selectionState : SelectionState;
  titleText : string;
  dirtyCells : gset (Z * Z);
}.

Definition set_grid (g : gmap Z (gmap Z GridCell)) (r : Renderer) :=
  mkRenderer (rows r) (cols r) g (styles r) (cursorState r)
             (selectionState r) (titleText r) (dirtyCells r).

Definition set_dirtyCells (d : gset (Z * Z)) (r : Renderer) :=
  mkRenderer (rows r) (cols r) (grid r) (styles r) (cursorState r)
             (selectionState r) (titleText r) d.

Definition blank : GridCell := mkGridCell " " None.

Definition blankRow (ncols : Z) : gmap Z GridCell :=
  foldr (fun c row => <[c := blank]> row) ∅ (seqZ 0 ncols).

Definition initGrid (r : Renderer) : Renderer :=
  set_grid
    (foldr (fun i g => <[i := blankRow (cols r)]> g) ∅ (seqZ 0 (rows r)))
    r.

Definition allCells (nrows ncols : Z) : list (Z * Z) :=
  i ← seqZ 0 nrows; c ← seqZ 0 ncols; [(i, c)].

Definition markAllDirty (r : Renderer) : Renderer :=
  set_dirtyCells (dirtyCells r ∪ list_to_set (allCells (rows r) (cols r))) r.

Definition clearDirty (r : Renderer) : Renderer := set_dirtyCells ∅ r.

(** [new Renderer(rows, cols)] *)
Definition newRenderer (nrows ncols : Z) : Renderer :=
  markAllDirty
    (initGrid
       (mkRenderer nrows ncols ∅ ∅ (mkCursorState 0 0 false block)
                   (mkSelectionState None None None None) EmptyString ∅)).

Definition resize (nrows ncols : Z) (r : Renderer) : Renderer :=
  if decide (nrows = rows r ∧ ncols = cols r) then r
  else
    markAllDirty
      (clearDirty
         (initGrid
            (mkRenderer nrows ncols (grid r) (styles r) (cursorState r)
                        (selectionState r) (titleText r) (dirtyCells r)))).

(** [this.grid[row]![c] = cell; this.dirtyCells.add(`${row},${c}`)].
    When [this.grid[row]] is undefined the assignment throws a
    TypeError: [None]. *)
Definition putCell (row c : Z) (cell : GridCell) (r : Renderer)
  : option Renderer :=
  line ← grid r !! row;
  Some (set_dirtyCells (dirtyCells r ∪ {[ (row, c) ]})
          (set_grid (<[row := <[c := cell]> line]> (grid r)) r)).

(** The inner loop [for (rep = 0; rep < repeat; rep++)], [n] iterations
    left; the result carries the column reached. *)
Fixpoint writeRepeat (row : Z) (g : string) (styleId : option Z)
         (w : Z) (n : nat) (c : Z) (r : Renderer)
  : option (Z * Renderer) :=
  match n with
  | O => Some (c, r)
  | S n' =>
      if decide (cols r <= c) then Some (c, r)
      else if decide (w = 2 ∧ c + 1 < cols r) then
        r1 ← putCell row c (mkGridCell g styleId) r;
        r2 ← putCell row (c + 1) (mkGridCell " " styleId) r1;
        writeRepeat row g styleId w n' (c + 2) r2
      else
        r1 ← putCell row c (mkGridCell g styleId) r;
        writeRepeat row g styleId w n' (c + 1) r1
  end.

(** The outer loop [for (const cell of cells)]. *)
Fixpoint writeCells (row : Z) (cells : list Cell)
         (currentStyleId : option Z) (c : Z) (r : Renderer)
  : option Renderer :=
  match cells with
  | [] => Some r
  | cell :: rest =>
      if decide (cols r <= c) then Some r
      else
        let currentStyleId' :=
          match style_id cell with
          | Some s => Some s
          | None => currentStyleId
          end in
        let styleId :=
          match style_id cell with
          | None => currentStyleId'
          | Some s => Some s
          end in
        let rep := default 1 (repeat cell) in
        let w := default 1 (width cell) in
        '(c', r') ← writeRepeat row (grapheme cell) styleId w
                                (Z.to_nat rep) c r;
        writeCells row rest currentStyleId' c' r'
  end.

Definition write (row col : Z) (cells : list Cell) (r : Renderer)
  : option Renderer :=
  if decide (row < 0 ∨ rows r <= row) then Some r
  else writeCells row cells None col r.

Definition style (id : Z) (a : StyleAttributes) (r : Renderer) : Renderer :=
  mkRenderer (rows r) (cols r) (grid r) (<[id := mkStyle id a]> (styles r))
             (cursorState r) (selectionState r) (titleText r)
             (dirtyCells r).

(** *** Cursor, selection and title *)

Definition cursorPos (row col : Z) (vis : bool) (r : Renderer) : Renderer :=
  let old := cursorState r in
  mkRenderer (rows r) (cols r) (grid r) (styles r)
             (mkCursorState row col vis (shape old))
             (selectionState r) (titleText r)
             (dirtyCells r ∪ {[ (cur_row old, cur_col old) ]}
                           ∪ {[ (row, col) ]}).

(** [shapes[shape] ?? "block"] *)
Definition cursorShape (n : Z) (r : Renderer) : Renderer :=
  let old := cursorState r in
  let s := if decide (n = 0) then block
           else if decide (n = 1) then beam
           else if decide (n = 2) then underline_shape
           else block in
  mkRenderer (rows r) (cols r) (grid r) (styles r)
             (mkCursorState (cur_row old) (cur_col old) (visible old) s)
             (selectionState r) (titleText r) (dirtyCells r).

(** The arguments are [number | null]; [None] is both the [null] of an
    argument and the [undefined] of a field. *)
Definition selection (sr sc er ec : option Z) (r : Renderer) : Renderer :=
  mkRenderer (rows r) (cols r) (grid r) (styles r) (cursorState r)
             (mkSelectionState sr sc er ec) (titleText r) (dirtyCells r).

Definition title (text : string) (r : Renderer) : Renderer :=
  mkRenderer (rows r) (cols r) (grid r) (styles r) (cursorState r)
             (selectionState r) text (dirtyCells r).

(** *** Colours *)

Record Rgb := mkRgb { r_ : Z; g_ : Z; b_ : Z }.

Definition basic : list (Z * Z * Z) :=
  [ (0, 0, 0); (205, 49, 49); (13, 188, 121); (229, 229, 16);
    (36, 114, 200); (188, 63, 188); (17, 168, 205); (229, 229, 229);
    (102, 102, 102); (241, 76, 76); (35, 209, 139); (245, 245, 67);
    (59, 142, 234); (214, 112, 214); (41, 184, 219); (255, 255, 255) ].

Definition steps : list Z := [0; 95; 135; 175; 215; 255].

(** [basic[idx] ?? basic[0]] and [steps[i]!]: the indices are in range
    behind the guards. *)
Definition xtermIndexToRgb (idx : Z) : Rgb :=
  if decide (0 <= idx ∧ idx <= 15) then
    let '(r, g, b) := default (0, 0, 0) (basic !! Z.to_nat idx) in
    mkRgb r g b
  else if decide (16 <= idx ∧ idx <= 231) then
    let n := idx - 16 in
    let r := n / 36 in
    let g := (Z.rem n 36) / 6 in
    let b := Z.rem n 6 in
    mkRgb (default 0 (steps !! Z.to_nat r))
          (default 0 (steps !! Z.to_nat g))
          (default 0 (steps !! Z.to_nat b))
  else if decide (232 <= idx ∧ idx <= 255) then
    let shade := 8 + (idx - 232) * 10 in
    mkRgb shade shade shade
  else mkRgb 220 220 220.

(** *** Drawing into a frame buffer *)

Definition ATTR_BOLD : Z := 1.
Definition ATTR_DIM : Z := 2.
Definition ATTR_ITALIC : Z := 4.
Definition ATTR_UNDERLINE : Z := 8.
Definition ATTR_BLINK : Z := 16.
Definition ATTR_INVERSE : Z := 32.
Definition ATTR_STRIKETHROUGH : Z := 128.

Definition DEFAULT_FG : Buffer.RGBA := Buffer.fromInts 220 220 220.
Definition DEFAULT_BG : Buffer.RGBA := Buffer.fromInts 0 0 0.

Definition rgbFromU32 (rgb : Z) : Rgb :=
  mkRgb (Z.land (Z.shiftr rgb 16) 0xff)
        (Z.land (Z.shiftr rgb 8) 0xff)
        (Z.land rgb 0xff).

(** [rgbaCache], the field of the renderer that the drawing methods read
    and fill; it is passed in and returned. *)
Definition initialCache : gmap Z Buffer.RGBA :=
  <[0x000000 := DEFAULT_BG]> (<[0xdcdcdc := DEFAULT_FG]> ∅).

Definition rgbaFor (rgb : Z) (cache : gmap Z Buffer.RGBA)
  : Buffer.RGBA * gmap Z Buffer.RGBA :=
  let key := Z.land rgb 0xffffff in
  match cache !! key with
  | Some cached => (cached, cache)
  | None =>
      let c := rgbFromU32 key in
      let rgba := Buffer.fromInts (r_ c) (g_ c) (b_ c) in
      (rgba, <[key := rgba]> cache)
  end.

Definition rgbaForIndex (idx : Z) (cache : gmap Z Buffer.RGBA)
  : Buffer.RGBA * gmap Z Buffer.RGBA :=
  let rgb := xtermIndexToRgb idx in
  let key := Z.lor (Z.lor (Z.shiftl (r_ rgb) 16) (Z.shiftl (g_ rgb) 8))
                   (b_ rgb) in
  match cache !! key with
  | Some cached => (cached, cache)
  | None =>
      let rgba := Buffer.fromInts (r_ rgb) (g_ rgb) (b_ rgb) in
      (rgba, <[key := rgba]> cache)
  end.

(** The options of [renderToBuffer]. *)
Record RenderOpts := mkRenderOpts {
  opt_width : Z;
  opt_height : Z;
  opt_offsetX : option Z;
  opt_offsetY : option Z;
  opt_isFocused : option bool;
  opt_forceFullRedraw : option bool;
}.

(** Foreground, background and attributes of a style. *)
Definition styleColours (a : StyleAttributes) (cache : gmap Z Buffer.RGBA)
  : Buffer.RGBA * Buffer.RGBA * Z * gmap Z Buffer.RGBA :=
  let '(fg0, cache1) :=
    match fg a with
    | Some v => rgbaFor v cache
    | None =>
        match fg_idx a with
        | Some i => rgbaForIndex i cache
        | None => (DEFAULT_FG, cache)
        end
    end in
  let '(bg0, cache2) :=
    match bg a with
    | Some v => rgbaFor v cache1
    | None =>
        match bg_idx a with
        | Some i => rgbaForIndex i cache1
        | None => (DEFAULT_BG, cache1)
        end
    end in
  let flag (b : option bool) (bit : Z) (n : Z) : Z :=
    if default false b then Z.lor n bit else n in
  let bits :=
    flag (strikethrough a) ATTR_STRIKETHROUGH
      (flag (blink a) ATTR_BLINK
         (flag (underline a) ATTR_UNDERLINE
            (flag (italic a) ATTR_ITALIC
               (flag (dim a) ATTR_DIM
                  (flag (bold a) ATTR_BOLD 0))))) in
  if default false (reverse a) then (bg0, fg0, bits, cache2)
  else (fg0, bg0, bits, cache2).

(** The body of the two loops of [renderToBuffer], which is the same in
    both: the call of [buffer.setCell] for the cell at [(row, col)].
    Reading a cell that the grid does not have throws a TypeError:
    [None]. *)
Definition paintCell (r : Renderer) (isFocused : bool) (offsetX offsetY : Z)
           (row col : Z) (cache : gmap Z Buffer.RGBA)
  : option (Buffer.SetCell * gmap Z Buffer.RGBA) :=
  line ← grid r !! row;
  cell ← line !! col;
  let glyph :=
    if decide (gc_grapheme cell = EmptyString) then " "
    else gc_grapheme cell in
  let '(fg1, bg1, bits, cache') :=
    match gc_style_id cell with
    | Some styleId =>
        match styles r !! styleId with
        | Some sty => styleColours (attrs sty) cache
        | None => (DEFAULT_FG, DEFAULT_BG, 0, cache)
        end
    | None => (DEFAULT_FG, DEFAULT_BG, 0, cache)
    end in
  let isCursor :=
    isFocused && visible (cursorState r)
    && bool_decide (cur_row (cursorState r) = row)
    && bool_decide (cur_col (cursorState r) = col) in
  let bits' :=
    if isCursor then
      match shape (cursorState r) with
      | block => Z.lor bits ATTR_INVERSE
      | _ => Z.lor bits ATTR_UNDERLINE
      end
    else bits in
  Some (Buffer.mkSetCell (col + offsetX) (row + offsetY) glyph fg1 bg1 bits',
        cache').

Fixpoint paintCells (r : Renderer) (isFocused : bool) (offsetX offsetY : Z)
         (cells : list (Z * Z)) (cache : gmap Z Buffer.RGBA)
  : option (list Buffer.SetCell * gmap Z Buffer.RGBA) :=
  match cells with
  | [] => Some ([], cache)
  | (row, col) :: rest =>
      '(call, cache1) ← paintCell r isFocused offsetX offsetY row col cache;
      '(calls, cache2) ← paintCells r isFocused offsetX offsetY rest cache1;
      Some (call :: calls, cache2)
  end.

(** [renderToBuffer(buffer, opts)]: the calls of [buffer.setCell] in
    order, and the cache afterwards.  The dirty cells are walked in the
    order of [elements]; a JS [Set] is walked in the order of insertion,
    which the set of pairs does not keep. *)
Definition renderToBuffer (r : Renderer) (opts : RenderOpts)
           (cache : gmap Z Buffer.RGBA)
  : option (list Buffer.SetCell * gmap Z Buffer.RGBA) :=
  let offsetX := default 0 (opt_offsetX opts) in
  let offsetY := default 0 (opt_offsetY opts) in
  let width := opt_width opts in
  let height := opt_height opts in
  let isFocused := default true (opt_isFocused opts) in
  if default false (opt_forceFullRedraw opts) then
    let maxRows := Z.min height (rows r) in
    let maxCols := Z.min width (cols r) in
    paintCells r isFocused offsetX offsetY (allCells maxRows maxCols) cache
  else
    paintCells r isFocused offsetX offsetY
      (filter (fun '(row, col) =>
                 ~ (row < 0 \/ col < 0)
                 /\ ~ (height <= row \/ width <= col)
                 /\ ~ (rows r <= row \/ cols r <= col))
              (elements (dirtyCells r)))
      cache.

End Renderer.


(** ** keybinds.ts *)

Module Keybinds.

Record KeyEvent := mkKeyEvent {
  key : string;
  ctrl : option bool;
  alt : option bool;
  shift : option bool;
  meta : option bool;
}.

Inductive Action :=
| send_to_pty (data : string)
| split (direction : Layout.SplitDirection)
| new_tab
| next_tab
| prev_tab
| focus (direction : Layout.FocusDirection)
| close_pane
| detach
| noop.

(** [String.prototype.toLowerCase] on strings of ASCII characters, as
    the names of the keys in the tables of input.ts are. *)
Definition lower_ascii (a : Ascii.ascii) : Ascii.ascii :=
  let n := Ascii.nat_of_ascii a in
  if ((65 <=? n) && (n <=? 90))%nat then Ascii.ascii_of_nat (n + 32) else a.

Fixpoint toLowerCase (s : string) : string :=
  match s with
  | EmptyString => EmptyString
  | String a s' => String (lower_ascii a) (toLowerCase s')
  end.

(** The one-character strings that a string literal cannot hold. *)
Definition dquote : string := String "034"%char EmptyString.
Definition ctrl_b : string := String "002"%char EmptyString.

(** [class PrefixMatcher].  [timeoutHandle] holds the time at which the
    pending [setTimeout] fires. *)
Record PrefixMatcher := mkPrefixMatcher {
  waitingForCommand : bool;
  timeoutHandle : option Z;
}.

Definition timeoutMs : Z := 2000.

Definition newPrefixMatcher : PrefixMatcher := mkPrefixMatcher false None.

(** [!!x] of an optional boolean. *)
Definition truthy (b : option bool) : bool := default false b.

Section Runtime.

(** [lowerCase s] stands for [s.toLowerCase()] as the runtime computes
    it, on every string: it also maps letters outside ASCII, such as the
    Kelvin sign U+212A to [k]. *)
Variable lowerCase : string -> string.

Definition isPrefixKey (event : KeyEvent) : bool :=
  truthy (ctrl event) && negb (truthy (alt event))
  && negb (truthy (meta event))
  && bool_decide (lowerCase (key event) = "b").

(** [clearTimeout] of the previous handle and [setTimeout] of a new one. *)
Definition enterPrefixWait (now : Z) (m : PrefixMatcher) : PrefixMatcher :=
  mkPrefixMatcher true (Some (now + timeoutMs)).

Definition resetPrefixState (m : PrefixMatcher) : PrefixMatcher :=
  mkPrefixMatcher false None.

(** The timer callback, run by the event loop once the time is reached. *)
Definition timeoutElapsed (now : Z) (m : PrefixMatcher) : PrefixMatcher :=
  match timeoutHandle m with
  | Some t => if decide (t <= now) then resetPrefixState m else m
  | None => m
  end.

Definition interpretCommand (key : string) : Action :=
  if decide (key = "h") then focus Layout.focus_left
  else if decide (key = "j") then focus Layout.focus_down
  else if decide (key = "k") then focus Layout.focus_up
  else if decide (key = "l") then focus Layout.focus_right
  else if decide (key = "left") then focus Layout.focus_left
  else if decide (key = "down") then focus Layout.focus_down
  else if decide (key = "up") then focus Layout.focus_up
  else if decide (key = "right") then focus Layout.focus_right
  else if decide (key = "%") then split Layout.horizontal
  else if decide (key = dquote) then split Layout.vertical
  else if decide (key = "b") then send_to_pty ctrl_b
  else if decide (key = "c") then new_tab
  else if decide (key = "n") then next_tab
  else if decide (key = "p") then prev_tab
  else if decide (key = "x") then close_pane
  else if decide (key = "d") then detach
  else noop.

(** [None] is the JS [null]: the key is passed through. *)
Definition processKey (now : Z) (event : KeyEvent) (m : PrefixMatcher)
  : PrefixMatcher * option Action :=
  let key := lowerCase (key event) in
  if waitingForCommand m && bool_decide (key = "escape") then
    (resetPrefixState m, Some noop)
  else if waitingForCommand m then
    let action := interpretCommand key in
    (resetPrefixState m, Some action)
  else if isPrefixKey event then
    (enterPrefixWait now m, Some noop)
  else (m, None).

End Runtime.

End Keybinds.

(** ** keybinds.ts: the interpreter *)

Module KeyInterpreter.
Import Keybinds.

Record OpenTuiKeyEvent := mkOpenTuiKeyEvent {
  otk_name : string;
  otk_sequence : option string;
  otk_ctrl : option bool;
  otk_option : option bool;
  otk_meta : option bool;
  otk_shift : option bool;
}.

Definition toKeyEvent (event : OpenTuiKeyEvent) : KeyEvent :=
  let isPrintable :=
    match otk_sequence event with
    | Some (String a EmptyString) =>
        let charCode := Ascii.nat_of_ascii a in
        ((32 <=? charCode) && (charCode <? 127))%nat
    | _ => false
    end in
  mkKeyEvent (if isPrintable then default EmptyString (otk_sequence event)
              else otk_name event)
             (otk_ctrl event) (otk_option event) (otk_shift event)
             (otk_meta event).

Section Runtime.

(** [s.toLowerCase()] of the runtime, as for the prefix matcher. *)
Variable lowerCase : string -> string.

(** [handleKeyEvent(event)] of a [KeyEventInterpreter] made with
    [encodeKeyFn], at time [now]: the prefix matcher afterwards and the
    action. *)
Definition handleKeyEvent (encodeKeyFn : KeyEvent -> string) (now : Z)
           (event : KeyEvent) (m : PrefixMatcher) : PrefixMatcher * Action :=
  match processKey lowerCase now event m with
  | (m', Some prefixAction) => (m', prefixAction)
  | (m', None) =>
      let encoded := encodeKeyFn event in
      if decide (encoded = EmptyString) then (m', noop)
      else (m', send_to_pty encoded)
  end.

(** The handler that [createKeyHandler(encodeKeyFn)] returns. *)
Definition createKeyHandler (encodeKeyFn : KeyEvent -> string) (now : Z)
           (event : OpenTuiKeyEvent) (m : PrefixMatcher)
  : PrefixMatcher * Action :=
  handleKeyEvent encodeKeyFn now (toKeyEvent event) m.

End Runtime.

End KeyInterpreter.

(** ** input.ts *)

Module Input.
Import Keybinds.

Inductive CursorMode := normal | application.

(** What [encodeKey] hands back.  A key name that is no key of a table
    but the name of a property of [Object.prototype] finds that property:
    [encodeKey] then returns it, which is no string, or throws a TypeError
    when it calls [startsWith] on it. *)
Inductive Encoded :=
| Text (s : string)
| Inherited
| Thrown.

(** [String.fromCharCode(n)] *)
Definition chr (n : nat) : string :=
  String (Ascii.ascii_of_nat n) EmptyString.

Definition ESC : string := chr 27.

Definition isDigit (a : Ascii.ascii) : bool :=
  let n := Ascii.nat_of_ascii a in ((48 <=? n) && (n <=? 57))%nat.

(** [s.match(/^\d+$/)] as a truth value *)
Fixpoint allDigits (s : string) : bool :=
  match s with
  | EmptyString => true
  | String a s' => isDigit a && allDigits s'
  end.

Definition matchesDigits (s : string) : bool :=
  negb (bool_decide (s = EmptyString)) && allDigits s.

(** [addModifiers(seq, { ctrl, alt, shift })] *)
Definition addModifiers (seq : string) (ctrl alt shift : option bool)
  : string :=
  if negb (truthy ctrl) && negb (truthy alt) && negb (truthy shift) then seq
  else
    let code : Z :=
      1 + (if truthy shift then 1 else 0) + (if truthy alt then 2 else 0)
        + (if truthy ctrl then 4 else 0) in
    if String.prefix (ESC +:+ "[") seq && (2 <? String.length seq)%nat then
      let lastChar := String.substring (String.length seq - 1) 1 seq in
      let middle := String.substring 2 (String.length seq - 3) seq in
      if bool_decide (middle = EmptyString) || matchesDigits middle then
        let num := if decide (middle = EmptyString) then "1" else middle in
        ESC +:+ "[" +:+ num +:+ ";" +:+ pretty code +:+ lastChar
      else seq
    else seq.

(** The own properties of an object literal. *)
Fixpoint own (table : list (string * string)) (name : string)
  : option string :=
  match table with
  | [] => None
  | (k, v) :: rest => if decide (k = name) then Some v else own rest name
  end.

(** The names of the properties of [Object.prototype]. *)
Definition prototypeNames : list string :=
  [ "constructor"; "hasOwnProperty"; "isPrototypeOf";
    "propertyIsEnumerable"; "toLocaleString"; "toString"; "valueOf";
    "__proto__"; "__defineGetter__"; "__defineSetter__";
    "__lookupGetter__"; "__lookupSetter__" ].

Definition fnKeyMap : list (string * string) :=
  [ ("f1", ESC +:+ "OP"); ("f2", ESC +:+ "OQ"); ("f3", ESC +:+ "OR");
    ("f4", ESC +:+ "OS"); ("f5", ESC +:+ "[15~"); ("f6", ESC +:+ "[17~");
    ("f7", ESC +:+ "[18~"); ("f8", ESC +:+ "[19~"); ("f9", ESC +:+ "[20~");
    ("f10", ESC +:+ "[21~"); ("f11", ESC +:+ "[23~");
    ("f12", ESC +:+ "[24~") ].

Definition navKeyMap (cursorMode : CursorMode) : list (string * string) :=
  let cursorPrefix :=
    match cursorMode with
    | application => ESC +:+ "O"
    | normal => ESC +:+ "["
    end in
  [ ("up", cursorPrefix +:+ "A"); ("down", cursorPrefix +:+ "B");
    ("right", cursorPrefix +:+ "C"); ("left", cursorPrefix +:+ "D");
    ("home", ESC +:+ "[H"); ("end", ESC +:+ "[F");
    ("pageup", ESC +:+ "[5~"); ("pagedown", ESC +:+ "[6~");
    ("insert", ESC +:+ "[2~"); ("delete", ESC +:+ "[3~") ].

(** [if (table[lower]) return this.addModifiers(table[lower], mods)]:
    [None] when the test fails and the code goes on. *)
Definition fromTable (table : list (string * string)) (lower : string)
           (ctrl alt shift : option bool) : option Encoded :=
  match own table lower with
  | Some seq => Some (Text (addModifiers seq ctrl alt shift))
  | None =>
      if bool_decide (lower ∈ prototypeNames) then
        if negb (truthy ctrl) && negb (truthy alt) && negb (truthy shift)
        then Some Inherited
        else Some Thrown
      else None
  end.

(** The control key combinations: [None] when none applies. *)
Definition controlCode (key : string) : option string :=
  match key with
  | String a EmptyString =>
      let n := Ascii.nat_of_ascii a in
      if ((97 <=? n) && (n <=? 122))%nat then Some (chr (n - 96))
      else if ((65 <=? n) && (n <=? 90))%nat then Some (chr (n - 64))
      else if decide (key = "[") then Some (chr 27)
      else if decide (key = chr 92) then Some (chr 28)   (* a backslash *)
      else if decide (key = "]") then Some (chr 29)
      else if decide (key = "^") then Some (chr 30)
      else if decide (key = "_") then Some (chr 31)
      else None
  | _ => None
  end.

(** [encodeKey(event)] of an [InputHandler] in the given cursor mode.
    [key.length] counts bytes here and UTF-16 units in the code, and the
    name is put in lower case by [toLowerCase]: the two agree on key
    names of ASCII characters. *)
Definition encodeKey (cursorMode : CursorMode) (event : KeyEvent)
  : Encoded :=
  let key := key event in
  let ctrl := ctrl event in
  let alt := alt event in
  let shift := shift event in
  let meta := meta event in
  let rest :=
    let lower := toLowerCase key in
    match fromTable fnKeyMap lower ctrl alt shift with
    | Some res => res
    | None =>
        match fromTable (navKeyMap cursorMode) lower ctrl alt shift with
        | Some res => res
        | None =>
            if decide (lower = "return" \/ lower = "enter") then
              Text (if truthy alt && negb (truthy ctrl) then chr 10
                    else chr 13)
            else if decide (lower = "tab") then
              Text (if truthy shift then ESC +:+ "[Z" else chr 9)
            else if decide (lower = "backspace") then Text (chr 127)
            else if decide (lower = "escape") then Text ESC
            else if decide (lower = "space") then Text " "
            else if truthy alt && bool_decide (String.length key = 1%nat)
            then Text (ESC +:+ key)
            else if decide (String.length key = 1%nat) then Text key
            else Text EmptyString
        end
    end in
  if truthy ctrl && negb (truthy alt) && negb (truthy meta) then
    match controlCode key with
    | Some s => Text s
    | None => rest
    end
  else rest.

End Input.

(** ** connection.ts *)

Module Connection.

Inductive LogLevel := info | warn | error.

Inductive LogMessage :=
| ConnectingTo
| ConnectedTo
| FailedToConnect
| MaxReconnectionAttemptsReached
| AttemptingReconnect (attempt max delay : Z)
| ReconnectionFailed.

(** What the connection manager does to the outside, in order. *)
Inductive Effect :=
| Log (level : LogLevel) (msg : LogMessage)
| Sleep (ms : Z)             (* [await new Promise(r => setTimeout(r, ms))] *)
| CreateConnection           (* [createConnection(socketPath, ...)] *)
| OnReconnect.               (* the registered reconnect callback is called *)

(** How a call of an async method ends for whoever holds its promise. *)
Inductive Completion :=
| Resolved
| Rejected (reason : LogMessage)
| Pending.

Record PriseConnection := mkPriseConnection {
  rpc : bool;                 (* [this.rpc !== null] *)
  isConnected : bool;
  reconnectAttempts : Z;
  maxReconnectAttempts : Z;
  reconnectDelayMs : Z;
  onReconnect : bool;         (* [this.onReconnect !== null] *)
}.

(** [new PriseConnection(path)] *)
Definition newPriseConnection : PriseConnection :=
  mkPriseConnection false false 0 5 1000 false.

Definition setReconnectCallback (c : PriseConnection) : PriseConnection :=
  mkPriseConnection (rpc c) (isConnected c) (reconnectAttempts c)
                    (maxReconnectAttempts c) (reconnectDelayMs c) true.

(** [connect()], given whether the socket gets connected ([true]) or
    reports an error first ([false]).  The handler of that error rejects
    the promise only [if (!this.isConnected)]: when the manager counts as
    connected, nothing is logged and the promise never settles. *)
Definition connect (outcome : bool) (c : PriseConnection)
  : PriseConnection * list Effect * Completion :=
  if outcome then
    (mkPriseConnection true true 0 (maxReconnectAttempts c)
                       (reconnectDelayMs c) (onReconnect c),
     [Log info ConnectingTo; CreateConnection; Log info ConnectedTo],
     Resolved)
  else if isConnected c then
    (c, [Log info ConnectingTo; CreateConnection], Pending)
  else
    (c, [Log info ConnectingTo; CreateConnection; Log error FailedToConnect],
     Rejected FailedToConnect).

(** The socket "close" and "error" handlers installed by [connect], up to
    their call of [attemptReconnect]. *)
Definition connectionLost (c : PriseConnection) : PriseConnection :=
  mkPriseConnection false false (reconnectAttempts c)
                    (maxReconnectAttempts c) (reconnectDelayMs c)
                    (onReconnect c).

(** [attemptReconnect()].  [outcomes] lists how the successive steps of
    the [try] block end, in the order in which they are taken: [true] for
    a [connect] that gets connected or a callback that returns, [false]
    for a [connect] that reports an error or a callback that throws.  A
    callback is run, and takes an entry of the list, only after a
    [connect] that resolved and only when one is registered.  When the
    list runs out the step that is under way never ends.  An exception of
    either step goes to the [catch] block, whose call of
    [attemptReconnect] is not awaited: its effects follow, while the
    promise of the outer call is already resolved. *)
Fixpoint attemptReconnect (outcomes : list bool) (c : PriseConnection)
  : PriseConnection * list Effect * Completion :=
  if decide (maxReconnectAttempts c <= reconnectAttempts c) then
    (c, [Log error MaxReconnectionAttemptsReached], Resolved)
  else
    let attempts := reconnectAttempts c + 1 in
    let c1 := mkPriseConnection (rpc c) (isConnected c) attempts
                (maxReconnectAttempts c) (reconnectDelayMs c)
                (onReconnect c) in
    let delay := reconnectDelayMs c * attempts in
    let pre := [Log info (AttemptingReconnect attempts
                            (maxReconnectAttempts c) delay);
                Sleep delay] in
    match outcomes with
    | [] => (c1, pre ++ [Log info ConnectingTo; CreateConnection], Pending)
    | o :: rest =>
        let '(c2, effs, done) := connect o c1 in
        match done with
        | Resolved =>
            if onReconnect c2 then
              match rest with
              | [] => (c2, pre ++ effs ++ [OnReconnect], Pending)
              | true :: _ => (c2, pre ++ effs ++ [OnReconnect], Resolved)
              | false :: rest' =>
                  let '(c3, effs', _) := attemptReconnect rest' c2 in
                  (c3,
                   pre ++ effs ++ [OnReconnect; Log warn ReconnectionFailed]
                   ++ effs',
                   Resolved)
              end
            else (c2, pre ++ effs, Resolved)
        | Rejected _ =>
            let '(c3, effs', _) := attemptReconnect rest c2 in
            (c3, pre ++ effs ++ [Log warn ReconnectionFailed] ++ effs',
             Resolved)
        | Pending => (c2, pre ++ effs, Pending)
        end
    end.

(** [getRpc()]: [inl] is the thrown error "Not connected to server". *)
Definition getRpc (c : PriseConnection) : unit + unit :=
  if rpc c then inr tt else inl tt.

End Connection.

(** ** rpc.ts *)

Module Rpc.

(** Decoded MessagePack data as JS values.  [VNum] holds the numbers
    that are integers; numbers with a fraction, NaN and the infinities
    are not part of the model. *)
#[warnings="-register-all"] Inductive value :=
| VNull
| VUndefined
| VBool (b : bool)
| VNum (n : Z)
| VStr (s : string)
| VBin (b : list byte)
| VArr (items : list value)
| VObj (fields : list (string * value)).

(** [enum MessageType] *)
Definition Request : Z := 0.
Definition Response : Z := 1.
Definition Notification : Z := 2.

Definition REQUEST_TIMEOUT_MS : Z := 30000.

(** How the promise returned by [request] gets settled. *)
Inductive Settlement :=
| Resolve (result : value)
| RejectRpcError (error : value)
| RejectTimeout (method : string) (msgid : Z)
| RejectSendFailed.

(** What a client does to the outside, in order. *)
Inductive Obs :=
| Written (msg : value)                 (* [socket.write] of the encoded message *)
| Deleted (msgid : Z)                   (* [pendingRequests.delete] removed an entry *)
| Settled (promise : Z) (s : Settlement) (* [resolve] or [reject] is called *)
| Dispatched (handler : nat) (params : value)
| ConsoleError.

(** An entry of [pendingRequests]: the [resolve]/[reject] pair of a
    promise, named by the promise, and the handle of its timer. *)
Record PendingRequest := mkPendingRequest {
  promise : Z;
  timeout : Z;
}.

(** A timer of the event loop set by [request]: its callback deletes
    [t_msgid] from the pending table and rejects that request's promise. *)
Record Timer := mkTimer {
  handle : Z;
  due : Z;
  t_msgid : Z;
  t_method : string;
}.

(** [class RpcClient], followed by the part of the runtime it acts on: the
    clock and timer queue of the event loop and the record of what the
    client did. *)
Record RpcClient := mkRpcClient {
  msgidCounter : Z;
  pendingRequests : gmap Z PendingRequest;
  notificationHandlers : gmap string nat;
  buffer : list byte;
  clock : Z;
  nextTimer : Z;
  timers : list Timer;
  trace : list Obs;
}.

(** [new RpcClient(socket)] at time [now]. *)
Definition newRpcClient (now : Z) : RpcClient :=
  mkRpcClient 1 ∅ ∅ [] now 1 [] [].

Definition set_pending (p : gmap Z PendingRequest) (c : RpcClient) :=
  mkRpcClient (msgidCounter c) p (notificationHandlers c) (buffer c)
              (clock c) (nextTimer c) (timers c) (trace c).

Definition set_timers (t : list Timer) (c : RpcClient) :=
  mkRpcClient (msgidCounter c) (pendingRequests c) (notificationHandlers c)
              (buffer c) (clock c) (nextTimer c) t (trace c).

Definition set_buffer (b : list byte) (c : RpcClient) :=
  mkRpcClient (msgidCounter c) (pendingRequests c) (notificationHandlers c)
              b (clock c) (nextTimer c) (timers c) (trace c).

Definition emit (o : Obs) (c : RpcClient) :=
  mkRpcClient (msgidCounter c) (pendingRequests c) (notificationHandlers c)
              (buffer c) (clock c) (nextTimer c) (timers c) (trace c ++ [o]).

(** [this.pendingRequests.delete(msgid)] *)
Definition deletePending (msgid : Z) (c : RpcClient) : RpcClient :=
  match pendingRequests c !! msgid with
  | Some _ => emit (Deleted msgid) (set_pending (delete msgid (pendingRequests c)) c)
  | None => c
  end.

Definition clearTimeout (h : Z) (c : RpcClient) : RpcClient :=
  set_timers (filter (fun t => handle t <> h) (timers c)) c.

(** [request(method, params)]; [sendOk] tells whether encoding and
    [socket.write] went through without an exception.  The result names
    the promise that is returned. *)
Definition request (method : string) (params : value) (sendOk : bool)
           (c : RpcClient) : Z * RpcClient :=
  let msgid := msgidCounter c in
  let h := nextTimer c in
  let c1 :=
    mkRpcClient (msgid + 1)
      (<[msgid := mkPendingRequest msgid h]> (pendingRequests c))
      (notificationHandlers c) (buffer c) (clock c) (h + 1)
      (timers c ++ [mkTimer h (clock c + REQUEST_TIMEOUT_MS) msgid method])
      (trace c) in
  if sendOk then
    (msgid, emit (Written (VArr [VNum Request; VNum msgid; VStr method; params])) c1)
  else
    (msgid, emit (Settled msgid RejectSendFailed)
                 (clearTimeout h (deletePending msgid c1))).

(** [notify(method, params)] *)
Definition notify (method : string) (params : value) (sendOk : bool)
           (c : RpcClient) : RpcClient :=
  if sendOk then emit (Written (VArr [VNum Notification; VStr method; params])) c
  else emit ConsoleError c.

(** [on(method, handler)] *)
Definition on (method : string) (handler : nat) (c : RpcClient) : RpcClient :=
  mkRpcClient (msgidCounter c) (pendingRequests c)
              (<[method := handler]> (notificationHandlers c)) (buffer c)
              (clock c) (nextTimer c) (timers c) (trace c).

(** [error !== null && error !== undefined] *)
Definition isError (error : value) : bool :=
  match error with
  | VNull | VUndefined => false
  | _ => true
  end.

(** [handleMessage(message)].  The first match is on
    [type === MessageType.Response], the second on
    [type === MessageType.Notification]; a message that is not an array is
    reported on the console when it is an object and ignored otherwise. *)
Definition handleMessage (message : value) (c : RpcClient) : RpcClient :=
  match message with
  | VArr (VNum 1 :: rest) =>
      match rest with
      | [VNum msgid; error; result] =>
          match pendingRequests c !! msgid with
          | Some pending =>
              let c1 := clearTimeout (timeout pending) (deletePending msgid c) in
              if isError error
              then emit (Settled (promise pending) (RejectRpcError error)) c1
              else emit (Settled (promise pending) (Resolve result)) c1
          | None => c
          end
      | _ => c
      end
  | VArr (VNum 2 :: rest) =>
      match rest with
      | [VStr method; params] =>
          match notificationHandlers c !! method with
          | Some handler => emit (Dispatched handler params) c
          | None => c
          end
      | _ => c
      end
  | VArr _ => c
  | VObj _ | VBin _ => emit ConsoleError c
  | _ => c
  end.

(** The callback of a timer set by [request]. *)
Definition fireTimer (t : Timer) (c : RpcClient) : RpcClient :=
  emit (Settled (t_msgid t) (RejectTimeout (t_method t) (t_msgid t)))
       (deletePending (t_msgid t) c).

(** [dt] milliseconds pass: the timers that have come due run, oldest
    first, and leave the queue. *)
Definition elapse (dt : N) (c : RpcClient) : RpcClient :=
  let now := clock c + Z.of_N dt in
  let fired := filter (fun t => due t <= now) (timers c) in
  let c1 :=
    mkRpcClient (msgidCounter c) (pendingRequests c) (notificationHandlers c)
                (buffer c) now (nextTimer c)
                (filter (fun t => ¬ due t <= now) (timers c)) (trace c) in
  foldl (fun acc t => fireTimer t acc) c1 fired.

Section Decoder.

(** [unpack src] stands for the msgpackr read of one value at the start
    of [src]: the value and the number of bytes it takes, or [None] when
    the read throws (truncated or malformed data). *)
Variable unpack : list byte -> option (value * nat).

(** [unpackr.unpackMultiple(buffer, callback)]: the values read with the
    position after each; the exception that ends the loop is caught by
    the caller.  Each read takes at least one byte, so [fuel] above the
    buffer length is never used up. *)
Fixpoint unpackLoop (fuel : nat) (src : list byte) (position : nat)
  : list (value * nat) :=
  match fuel with
  | O => []
  | S fuel' =>
      match unpack (drop position src) with
      | None => []
      | Some (v, n) =>
          let e := (position + n)%nat in
          (v, e) :: (if decide (e < length src)%nat
                     then unpackLoop fuel' src e else [])
      end
  end.

Definition unpackMultiple (src : list byte) : list (value * nat) :=
  unpackLoop (S (length src)) src 0.

(** The buffer part of [processData]: the decoded messages and the bytes
    kept for the next call. *)
Definition decodeBuffer (buf : list byte) : list value * list byte :=
  let decoded := unpackMultiple buf in
  let lastEnd := default O (last (decoded.*2)) in
  (decoded.*1, if decide (0 < lastEnd)%nat then drop lastEnd buf else buf).

Definition processData (chunk : list byte) (c : RpcClient) : RpcClient :=
  let '(messages, rest) := decodeBuffer (buffer c ++ chunk) in
  foldl (fun acc msg => handleMessage msg acc) (set_buffer rest c) messages.

End Decoder.

(** What happens to a client, one event at a time. *)
Inductive Event :=
| CallRequest (method : string) (params : value) (sendOk : bool)
| CallNotify (method : string) (params : value) (sendOk : bool)
| CallOn (method : string) (handler : nat)
| Receive (message : value)
| Elapse (dt : N).

Definition step (e : Event) (c : RpcClient) : RpcClient :=
  match e with
  | CallRequest m p ok => (request m p ok c).2
  | CallNotify m p ok => notify m p ok c
  | CallOn m h => on m h c
  | Receive msg => handleMessage msg c
  | Elapse dt => elapse dt c
  end.

Definition run (es : list Event) (c : RpcClient) : RpcClient :=
  foldl (fun acc e => step e acc) c es.

(** The calls of [resolve] and [reject] on a promise, and the removals of
    an id from the pending table, in a trace. *)
Definition settlements (p : Z) (tr : list Obs) : list Settlement :=
  omap (fun o => match o with
                 | Settled q s => if decide (q = p) then Some s else None
                 | _ => None
                 end) tr.

Definition removals (msgid : Z) (tr : list Obs) : list Z :=
  omap (fun o => match o with
                 | Deleted q => if decide (q = msgid) then Some q else None
                 | _ => None
                 end) tr.

End Rpc.

(** ** layout.ts: the application shell *)

Module App.
Import Buffer Layout.

Definition clampRectToBounds (rect bounds : Rect) : option Rect :=
  let x := Z.max (rect_x rect) (rect_x bounds) in
  let y := Z.max (rect_y rect) (rect_y bounds) in
  let maxX := Z.min (rect_x rect + rect_width rect)
                    (rect_x bounds + rect_width bounds) in
  let maxY := Z.min (rect_y rect + rect_height rect)
                    (rect_y bounds + rect_height bounds) in
  if decide (maxX <= x ∨ maxY <= y) then None
  else Some (mkRect x y (maxX - x) (maxY - y)).

(** [drawDividers]: the calls of [buffer.setCell], in order. *)
Fixpoint drawDividers (node : LayoutNode) (bounds : Rect) (fg bg : RGBA)
  : list SetCell :=
  match node with
  | PaneNode _ _ => []
  | SplitNode vertical ratio first second =>
      let splitY := splitAt (rect_y bounds) (rect_height bounds) ratio in
      let line :=
        (fun col => mkSetCell col splitY "─" fg bg 0)
          <$> range (rect_x bounds) (rect_x bounds + rect_width bounds) in
      let firstHeight := splitY - rect_y bounds in
      let secondHeight := rect_height bounds - firstHeight - 1 in
      let firstBounds :=
        mkRect (rect_x bounds) (rect_y bounds) (rect_width bounds)
               firstHeight in
      let secondBounds :=
        mkRect (rect_x bounds) (splitY + 1) (rect_width bounds)
               secondHeight in
      line
      ++ match clampRectToBounds firstBounds bounds with
         | Some f => drawDividers first f fg bg
         | None => []
         end
      ++ match clampRectToBounds secondBounds bounds with
         | Some s => drawDividers second s fg bg
         | None => []
         end
  | SplitNode horizontal ratio first second =>
      let splitX := splitAt (rect_x bounds) (rect_width bounds) ratio in
      let line :=
        (fun row => mkSetCell splitX row "│" fg bg 0)
          <$> range (rect_y bounds) (rect_y bounds + rect_height bounds) in
      let firstWidth := splitX - rect_x bounds in
      let secondWidth := rect_width bounds - firstWidth - 1 in
      let firstBounds :=
        mkRect (rect_x bounds) (rect_y bounds) firstWidth
               (rect_height bounds) in
      let secondBounds :=
        mkRect (splitX + 1) (rect_y bounds) secondWidth
               (rect_height bounds) in
      line
      ++ match clampRectToBounds firstBounds bounds with
         | Some f => drawDividers first f fg bg
         | None => []
         end
      ++ match clampRectToBounds secondBounds bounds with
         | Some s => drawDividers second s fg bg
         | None => []
         end
  end.

(** *** Redraw notifications *)

(** [typeof val === "number" && Number.isFinite(val) ? val : null] on
    the numbers of the model, which are integers.  The code passes a
    number with a fraction on as it is, as a row, a column or a size;
    what the renderer does with one is not modelled. *)
Definition toNumber (val : Rpc.value) : option Z :=
  match val with
  | Rpc.VNum n => Some n
  | _ => None
  end.

Definition toString (val : Rpc.value) : option string :=
  match val with
  | Rpc.VStr s => Some s
  | _ => None
  end.

(** [array[i]]: [undefined] past the end. *)
Definition item (items : list Rpc.value) (i : nat) : Rpc.value :=
  default Rpc.VUndefined (items !! i).

(** [obj.key] of a decoded map, whose keys are distinct: [undefined] when
    there is no such key. *)
Fixpoint field (fields : list (string * Rpc.value)) (k : string)
  : Rpc.value :=
  match fields with
  | [] => Rpc.VUndefined
  | (k', v) :: rest => if decide (k' = k) then v else field rest k
  end.

(** [typeof v === "boolean" ? v : undefined] *)
Definition toBoolean (val : Rpc.value) : option bool :=
  match val with
  | Rpc.VBool b => Some b
  | _ => None
  end.

Definition noAttributes : Renderer.StyleAttributes :=
  Renderer.mkStyleAttributes None None None None None None None None None
                             None None None None.

Definition toStyleAttributes (val : Rpc.value) : Renderer.StyleAttributes :=
  match val with
  | Rpc.VObj obj =>
      Renderer.mkStyleAttributes
        (toNumber (field obj "fg")) (toNumber (field obj "bg"))
        (toNumber (field obj "fg_idx")) (toNumber (field obj "bg_idx"))
        (toBoolean (field obj "bold")) (toBoolean (field obj "dim"))
        (toBoolean (field obj "italic")) (toBoolean (field obj "underline"))
        (toBoolean (field obj "reverse")) (toBoolean (field obj "blink"))
        (toBoolean (field obj "strikethrough"))
        (toNumber (field obj "ul_style")) (toNumber (field obj "ul_color"))
  | _ => noAttributes
  end.

(** One round of the loop of [parseWriteCells]: [None] when the entry is
    skipped. *)
Definition parseWriteCell (cell : Rpc.value) : option Renderer.Cell :=
  match cell with
  | Rpc.VArr items =>
      if decide (length items < 1)%nat then None
      else
        grapheme ← toString (item items 0);
        let style_id :=
          if decide (2 <= length items)%nat then toNumber (item items 1)
          else None in
        let repeat :=
          if decide (3 <= length items)%nat then toNumber (item items 2)
          else None in
        let width :=
          if decide (4 <= length items)%nat then toNumber (item items 3)
          else None in
        Some (Renderer.mkCell grapheme style_id repeat width)
  | _ => None
  end.

Definition parseWriteCells (val : Rpc.value) : list Renderer.Cell :=
  match val with
  | Rpc.VArr cells => omap parseWriteCell cells
  | _ => []
  end.

(** One round of the loop of [applyRedraw] on the map of renderers and
    the flag [shouldFlush]; [None] when a renderer throws. *)
Definition applyEvent (event : Rpc.value)
           (st : gmap Z Renderer.Renderer * bool)
  : option (gmap Z Renderer.Renderer * bool) :=
  let '(renderers, shouldFlush) := st in
  match event with
  | Rpc.VArr [e0; Rpc.VArr args] =>
      match toString e0 with
      | None => Some st
      | Some name =>
          if decide (name = "") then Some st
          else if decide (name = "flush") then Some (renderers, true)
          else if decide (name = "style") then
            match toNumber (item args 0) with
            | None => Some st
            | Some id =>
                let attrs := toStyleAttributes (item args 1) in
                Some (Renderer.style id attrs <$> renderers, shouldFlush)
            end
          else
            match toNumber (item args 0) with
            | None => Some st
            | Some pty =>
                match renderers !! pty with
                | None => Some st
                | Some model =>
                    let store m := Some (<[pty := m]> renderers, shouldFlush) in
                    if decide (name = "resize") then
                      match toNumber (item args 1), toNumber (item args 2) with
                      | Some rows, Some cols =>
                          store (Renderer.resize rows cols model)
                      | _, _ => Some st
                      end
                    else if decide (name = "title") then
                      match toString (item args 1) with
                      | Some text => store (Renderer.title text model)
                      | None => Some st
                      end
                    else if decide (name = "cursor_pos") then
                      let visible :=
                        default false (toBoolean (item args 3)) in
                      match toNumber (item args 1), toNumber (item args 2) with
                      | Some row, Some col =>
                          store (Renderer.cursorPos row col visible model)
                      | _, _ => Some st
                      end
                    else if decide (name = "cursor_shape") then
                      match toNumber (item args 1) with
                      | Some shape => store (Renderer.cursorShape shape model)
                      | None => Some st
                      end
                    else if decide (name = "selection") then
                      store (Renderer.selection
                               (toNumber (item args 1)) (toNumber (item args 2))
                               (toNumber (item args 3)) (toNumber (item args 4))
                               model)
                    else if decide (name = "write") then
                      match toNumber (item args 1), toNumber (item args 2) with
                      | Some row, Some col =>
                          model' ← Renderer.write row col
                                     (parseWriteCells (item args 3)) model;
                          store model'
                      | _, _ => Some st
                      end
                    else Some st
                end
            end
      end
  | _ => Some st
  end.

Fixpoint applyEvents (events : list Rpc.value)
         (st : gmap Z Renderer.Renderer * bool)
  : option (gmap Z Renderer.Renderer * bool) :=
  match events with
  | [] => Some st
  | event :: rest => st' ← applyEvent event st; applyEvents rest st'
  end.

(** [applyRedraw(renderersByPtyId, params)]: the renderers after the call
    and the result [shouldFlush]. *)
Definition applyRedraw (renderersByPtyId : gmap Z Renderer.Renderer)
           (params : Rpc.value)
  : option (gmap Z Renderer.Renderer * bool) :=
  match params with
  | Rpc.VArr events => applyEvents events (renderersByPtyId, false)
  | _ => Some (renderersByPtyId, false)
  end.

End App.

(** ** session.ts *)

Module Session.

(** [interface Session]; [session_ref] tells which object it is, for the
    comparisons by reference. *)
Record Session := mkSession {
  session_ref : nat;
  session_id : Z;
  session_name : string;
  attached_client_count : Z;
}.

(** [interface SessionPickerState], the state of a [SessionManager]. *)
Record SessionManager := mkSessionManager {
  sessions : list Session;
  current_session_id : option Z;
  is_attached : bool;
  last_updated : Z;
}.

Definition newSessionManager : SessionManager :=
  mkSessionManager [] None false 0.

(** [sessions.sort((a, b) => a.id - b.id)]: the sort is stable, an
    element goes behind those whose id is not larger. *)
Fixpoint insertById (s : Session) (l : list Session) : list Session :=
  match l with
  | [] => [s]
  | t :: l' =>
      if decide (session_id s < session_id t) then s :: t :: l'
      else t :: insertById s l'
  end.

Definition sortById (l : list Session) : list Session :=
  foldl (fun acc s => insertById s acc) [] l.

(** [updateSessions(sessions)] at time [now]. *)
Definition updateSessions (new : list Session) (now : Z)
           (m : SessionManager) : SessionManager :=
  mkSessionManager (sortById new) (current_session_id m) (is_attached m) now.

Definition setCurrentSession (sid : option Z) (m : SessionManager)
  : SessionManager :=
  mkSessionManager (sessions m) sid
                   (match sid with Some _ => true | None => false end)
                   (last_updated m).

Definition getSessions (m : SessionManager) : list Session := sessions m.

Definition getCurrentSessionId (m : SessionManager) : option Z :=
  current_session_id m.

Definition isAttached (m : SessionManager) : bool := is_attached m.

Section Text.

(** [isBlank query] stands for [!query.trim()], [includesLower name query]
    for [name.toLowerCase().includes(query.toLowerCase())] and
    [equalsLower name query] for
    [name.toLowerCase() === query.toLowerCase()]. *)
Variable isBlank : string -> bool.
Variable includesLower : string -> string -> bool.
Variable equalsLower : string -> string -> bool.

Definition filterSessions (query : string) (m : SessionManager)
  : list Session :=
  if isBlank query then sessions m
  else List.filter (fun session => includesLower (session_name session) query)
                   (sessions m).

Definition findSessionByName (name : string) (m : SessionManager)
  : option Session :=
  List.find (fun session => equalsLower (session_name session) name)
            (sessions m).

End Text.

Definition findSessionById (id : Z) (m : SessionManager) : option Session :=
  List.find (fun session => bool_decide (session_id session = id))
            (sessions m).

Definition getSessionCount (m : SessionManager) : Z :=
  Z.of_nat (length (sessions m)).

End Session.

(** ** picker.ts *)

Module Picker.
Import Session.

(** [class SessionPicker]; the manager it refers to is passed to the
    methods that read it. *)
Record SessionPicker := mkSessionPicker {
  max_height : Z;
  show_attach_count : bool;
  filter_query : string;
  selected_index : Z;
  view_offset : Z;
}.

(** [new SessionPicker(manager, options)]:
    [max_height: options.max_height || 10] and
    [show_attach_count: options.show_attach_count ?? true]. *)
Definition newSessionPicker (opt_max_height : option Z)
           (opt_show_attach_count : option bool) : SessionPicker :=
  mkSessionPicker
    (match opt_max_height with
     | Some 0 | None => 10
     | Some n => n
     end)
    (default true opt_show_attach_count) EmptyString 0 0.

Definition reset (query : string) (p : SessionPicker) : SessionPicker :=
  mkSessionPicker (max_height p) (show_attach_count p) query 0 0.

Definition setFilterQuery (query : string) (p : SessionPicker)
  : SessionPicker := reset query p.

Definition addFilterChar (char : string) (p : SessionPicker)
  : SessionPicker := reset (filter_query p +:+ char) p.

(** [filter_query.slice(0, -1)]: a string is a sequence of bytes here
    and of UTF-16 units in the code; the two agree on ASCII text. *)
Definition backspaceFilter (p : SessionPicker) : SessionPicker :=
  let n := String.length (filter_query p) in
  if decide (0 < n)%nat
  then reset (String.substring 0 (n - 1) (filter_query p)) p
  else p.

Definition clearFilter (p : SessionPicker) : SessionPicker :=
  reset EmptyString p.

Definition set_selected_index (i : Z) (p : SessionPicker) : SessionPicker :=
  mkSessionPicker (max_height p) (show_attach_count p) (filter_query p)
                  i (view_offset p).

Definition set_view_offset (o : Z) (p : SessionPicker) : SessionPicker :=
  mkSessionPicker (max_height p) (show_attach_count p) (filter_query p)
                  (selected_index p) o.

(** [this.options.max_height || 10] *)
Definition max_visible (p : SessionPicker) : Z :=
  if decide (max_height p = 0) then 10 else max_height p.

Definition updateViewOffset (p : SessionPicker) : SessionPicker :=
  let p1 :=
    if decide (view_offset p + max_visible p <= selected_index p)
    then set_view_offset (selected_index p - max_visible p + 1) p
    else p in
  if decide (selected_index p1 < view_offset p1)
  then set_view_offset (selected_index p1) p1
  else p1.

Definition selectUp (p : SessionPicker) : SessionPicker :=
  if decide (0 < selected_index p)
  then updateViewOffset (set_selected_index (selected_index p - 1) p)
  else p.

Definition selectFirst (p : SessionPicker) : SessionPicker :=
  set_view_offset 0 (set_selected_index 0 p).

(** [array.slice(start, end)] *)
Definition slice {A} (l : list A) (start stop : Z) : list A :=
  let len := Z.of_nat (length l) in
  let from := if decide (start < 0) then Z.max (len + start) 0
              else Z.min start len in
  let to := if decide (stop < 0) then Z.max (len + stop) 0
            else Z.min stop len in
  take (Z.to_nat (to - from)) (drop (Z.to_nat from) l).

(** [array.indexOf(session)]: the first position that holds this very
    object, or -1. *)
Fixpoint indexOf (session : Session) (l : list Session) : Z :=
  match l with
  | [] => -1
  | t :: l' =>
      if decide (session_ref t = session_ref session) then 0
      else let i := indexOf session l' in
           if decide (i < 0) then -1 else i + 1
  end.

(** An entry of the list that [getVisibleSessions] returns, and its
    result. *)
Record Row := mkRow {
  session : Session;
  is_selected : bool;
  is_current : bool;
}.

Record Visible := mkVisible {
  rows : list Row;
  total_count : Z;
  visible_count : Z;
  offset : Z;
}.

Section Text.

Variable isBlank : string -> bool.
Variable includesLower : string -> string -> bool.

Definition getFilteredSessions (m : SessionManager) (p : SessionPicker)
  : list Session :=
  filterSessions isBlank includesLower (filter_query p) m.

Definition selectDown (m : SessionManager) (p : SessionPicker)
  : SessionPicker :=
  let filtered := getFilteredSessions m p in
  if decide (length filtered = 0%nat) then p
  else updateViewOffset
         (set_selected_index
            (Z.min (selected_index p + 1) (Z.of_nat (length filtered) - 1))
            p).

Definition selectLast (m : SessionManager) (p : SessionPicker)
  : SessionPicker :=
  let filtered := getFilteredSessions m p in
  if decide (length filtered = 0%nat) then p
  else updateViewOffset
         (set_selected_index (Z.of_nat (length filtered) - 1) p).

(** [filtered[this.selected_index] || null] *)
Definition getSelectedSession (m : SessionManager) (p : SessionPicker)
  : option Session :=
  let filtered := getFilteredSessions m p in
  if decide (length filtered = 0%nat) then None
  else if decide (0 <= selected_index p)
       then filtered !! Z.to_nat (selected_index p)
       else None.

Definition getVisibleSessions (m : SessionManager) (p : SessionPicker)
  : Visible :=
  let filtered := getFilteredSessions m p in
  let total := Z.of_nat (length filtered) in
  let stop := Z.min (view_offset p + max_visible p) total in
  let visible := slice filtered (view_offset p) stop in
  mkVisible
    ((fun s =>
        mkRow s
          (bool_decide (indexOf s filtered = selected_index p))
          (bool_decide (Some (session_id s) = getCurrentSessionId m)))
       <$> visible)
    total (Z.of_nat (length visible)) (view_offset p).

End Text.

End Picker.

(** ** Vocabulary of the specification *)

Module RendererSpec.
Import Renderer.

(** The [k]-th base-6 digit of [n]. *)
Definition digit6 (n : Z) (k : nat) : Z := (n / 6 ^ Z.of_nat k) `mod` 6.

(** What one cell of a [write] puts on the grid: its grapheme, followed by
    a blank continuation cell of the same style when it is two columns
    wide. *)
Definition cellGlyphs (g : string) (styleId : option Z) (w : Z)
  : list GridCell :=
  if decide (w = 2) then [mkGridCell g styleId; mkGridCell " " styleId]
  else [mkGridCell g styleId].

(** The grid cells that the cells of a [write] stand for, left to right:
    each cell as often as its [repeat] says; a cell without style id takes
    the last explicit one before it in the same call. *)
Fixpoint expandCells (cells : list Cell) (current : option Z)
  : list GridCell :=
  match cells with
  | [] => []
  | cell :: rest =>
      let sty := match style_id cell with
                 | Some s => Some s
                 | None => current
                 end in
      concat (replicate (Z.to_nat (default 1 (repeat cell)))
                (cellGlyphs (grapheme cell) sty (default 1 (width cell))))
      ++ expandCells rest sty
  end.

(** Grid cells laid out in a row from column [col] on; what does not fit
    below column [ncols] is cut off. *)
Fixpoint placeCells (ncols col : Z) (gcs : list GridCell)
         (line : gmap Z GridCell) : gmap Z GridCell :=
  match gcs with
  | [] => line
  | g :: rest =>
      if decide (col < ncols)
      then placeCells ncols (col + 1) rest (<[col := g]> line)
      else line
  end.

(** The coordinates that such a layout touches. *)
Fixpoint touchedCells (row ncols col : Z) (gcs : list GridCell)
  : gset (Z * Z) :=
  match gcs with
  | [] => ∅
  | _ :: rest =>
      if decide (col < ncols)
      then {[ (row, col) ]} ∪ touchedCells row ncols (col + 1) rest
      else ∅
  end.

(** The renderer [r] with row [row] of the grid and the dirty set
    replaced. *)
Definition written (r : Renderer) (row : Z) (line : gmap Z GridCell)
           (d : gset (Z * Z)) : Renderer :=
  set_dirtyCells d (set_grid (<[row := line]> (grid r)) r).

End RendererSpec.

Module KeybindsSpec.
Import Keybinds.




End KeybindsSpec.

Module ConnectionSpec.
Import Connection.

(** What the [k]-th reconnect attempt does when [connect] fails. *)
Definition failedAttempt (k : Z) : list Effect :=
  [ Log info (AttemptingReconnect k 5 (1000 * k)); Sleep (1000 * k);
    Log info ConnectingTo; CreateConnection; Log error FailedToConnect;
    Log warn ReconnectionFailed ].

(** A failure reaches the caller of an async method as a rejected promise;
    the only hook the connection manager offers is the reconnect
    callback. *)
Definition surfacesFailure (res : PriseConnection * list Effect * Completion)
  : Prop :=
  (exists reason, res.2 = Rejected reason) \/ OnReconnect ∈ res.1.2.

End ConnectionSpec.

Module ReconnectSpec.
Import Connection.

(** The delays slept, the number of [createConnection] calls and the
    number of times the reconnect callback runs in a list of effects. *)
Definition sleeps (effs : list Effect) : list Z :=
  omap (fun e => match e with Sleep ms => Some ms | _ => None end) effs.

Definition connectCalls (effs : list Effect) : nat :=
  length (omap (fun e => match e with
                         | CreateConnection => Some tt
                         | _ => None
                         end) effs).

Definition callbackRuns (effs : list Effect) : nat :=
  length (omap (fun e => match e with
                         | OnReconnect => Some tt
                         | _ => None
                         end) effs).

(** No entry [true] of the outcomes is followed by [false]: no callback
    that is run after a [connect] that got connected throws. *)
Fixpoint noThrow (outcomes : list bool) : bool :=
  match outcomes with
  | [] => true
  | o :: rest =>
      match o, rest with
      | true, false :: _ => false
      | _, _ => noThrow rest
      end
  end.

End ReconnectSpec.

Module PickerSpec.
Import Session Picker.

(** What is done to a picker and to the manager it reads, one call at a
    time. *)
Inductive Call :=
| SetFilterQuery (query : string)
| AddFilterChar (char : string)
| BackspaceFilter
| ClearFilter
| SelectDown
| SelectUp
| SelectFirst
| SelectLast
| UpdateSessions (new : list Session) (now : Z)
| SetCurrentSession (sid : option Z).

(** A call that replaces the list of sessions. *)
Definition replacesSessions (call : Call) : bool :=
  match call with
  | UpdateSessions _ _ => true
  | _ => false
  end.

Section Text.

Variable isBlank : string -> bool.
Variable includesLower : string -> string -> bool.

Definition perform (call : Call) (st : SessionManager * SessionPicker)
  : SessionManager * SessionPicker :=
  let '(m, p) := st in
  match call with
  | SetFilterQuery query => (m, setFilterQuery query p)
  | AddFilterChar char => (m, addFilterChar char p)
  | BackspaceFilter => (m, backspaceFilter p)
  | ClearFilter => (m, clearFilter p)
  | SelectDown => (m, selectDown isBlank includesLower m p)
  | SelectUp => (m, selectUp p)
  | SelectFirst => (m, selectFirst p)
  | SelectLast => (m, selectLast isBlank includesLower m p)
  | UpdateSessions new now => (updateSessions new now m, p)
  | SetCurrentSession sid => (setCurrentSession sid m, p)
  end.

Definition performAll (calls : list Call)
           (st : SessionManager * SessionPicker)
  : SessionManager * SessionPicker :=
  foldl (fun acc call => perform call acc) st calls.

End Text.

End PickerSpec.

Module LayoutSpec.
Import Layout.

(** The operations on a layout: those that the application issues on key
    commands and the exported tab and focus functions. *)
Inductive Op :=
| OpSplit (direction : SplitDirection)
| OpClose
| OpFocus (direction : FocusDirection)
| OpMoveFocus (paneId : PaneId)
| OpAddTab
| OpCloseTab (tabId : TabId)
| OpSetActiveTab (tabId : TabId)
| OpNextTab
| OpPrevTab.

Definition applyOp (op : Op) (state : LayoutState) : M (option LayoutState) :=
  match op with
  | OpSplit d => s ← splitFocused state d; mret (Some s)
  | OpClose => mret (closeFocused state)
  | OpFocus d => mret (Some (focusNext state d))
  | OpMoveFocus p => mret (Some (moveFocusToPane state p))
  | OpAddTab => s ← addTab state; mret (Some s)
  | OpCloseTab t => mret (closeTab state t)
  | OpSetActiveTab t => mret (Some (setActiveTab state t))
  | OpNextTab => mret (cycleTab state 1)
  | OpPrevTab => mret (cycleTab state (-1))
  end.

(** The net number of splits applied to each tab: a split of the tab's
    focused pane counts [+1], a close that removes a pane from the tab's
    tree counts [-1] (a close of the only pane asks for the tab to be
    closed and removes no pane). *)
Definition account (op : Op) (state : LayoutState) (net : gmap TabId Z)
  : gmap TabId Z :=
  match op, getActiveTab state with
  | OpSplit _, Some tab =>
      <[tab_id tab := default 0 (net !! tab_id tab) + 1]> net
  | OpClose, Some tab =>
      match closePane (root tab) (focusedPaneId tab) with
      | Some _ => <[tab_id tab := default 0 (net !! tab_id tab) - 1]> net
      | None => net
      end
  | _, _ => net
  end.

(** A sequence of operations, with the account of net splits kept along;
    [None] when an operation throws. *)
Fixpoint applyOps (ops : list Op) (state : LayoutState) (net : gmap TabId Z)
  : M (option (LayoutState * gmap TabId Z)) :=
  match ops with
  | [] => mret (Some (state, net))
  | op :: rest =>
      r ← applyOp op state;
      match r with
      | Some s => applyOps rest s (account op state net)
      | None => mret None
      end
  end.

(** The sequence applied to the initial single-pane layout, with fresh
    counters. *)
Definition runFromInit (ops : list Op) : option (LayoutState * gmap TabId Z) :=
  ((s0 ← initLayout; applyOps ops s0 ∅) resetIdCounters).1.

(** The state of a layout between operations: what [validateLayoutState]
    checks, and tab ids that are distinct and already handed out. *)
Record valid (state : LayoutState) (c : Counters) : Prop := {
  valid_tabs : tabs state <> [];
  valid_active : activeTabId state ∈ tab_id <$> tabs state;
  valid_focus : Forall (fun tab => focusedPaneId tab ∈ getAllPaneIds (root tab))
                       (tabs state);
  valid_ids : NoDup (tab_id <$> tabs state);
  valid_counter : Forall (fun tab => tab_id tab <= _tabCounter c) (tabs state);
}.

Definition paneCount (tab : Tab) : Z :=
  Z.of_nat (length (getAllPaneIds (root tab))).

Definition netSplits (net : gmap TabId Z) (tab : Tab) : Z :=
  default 0 (net !! tab_id tab).

End LayoutSpec.

Module RendererInv.
Import Renderer.

(** The grid as [initGrid] builds it and [write] keeps it: a row for
    every row index below [rows], with a cell for every column index
    below [cols]. *)
Definition gridOk (r : Renderer) : Prop :=
  forall i, 0 <= i < rows r ->
    exists line, grid r !! i = Some line
                 /\ forall c, 0 <= c < cols r -> is_Some (line !! c).

(** The colour with the components that the low 24 bits of [key]
    hold. *)
Definition colourOf (key : Z) : Buffer.RGBA :=
  Buffer.fromInts ((key / 65536) `mod` 256) ((key / 256) `mod` 256)
                  (key `mod` 256).

(** Every colour in the cache is the one of its key. *)
Definition cacheOk (cache : gmap Z Buffer.RGBA) : Prop :=
  forall key c, cache !! key = Some c -> c = colourOf key.

(** The updates of a renderer that mark what they change as dirty. *)
Inductive Update :=
| UWrite (row col : Z) (cells : list Cell)
| UCursorPos (row col : Z) (vis : bool)
| UResize (nrows ncols : Z)
| UTitle (text : string)
| USelection (sr sc er ec : option Z).

Definition update (u : Update) (r : Renderer) : option Renderer :=
  match u with
  | UWrite row col cells => write row col cells r
  | UCursorPos row col vis => Some (cursorPos row col vis r)
  | UResize nrows ncols => Some (resize nrows ncols r)
  | UTitle text => Some (title text r)
  | USelection sr sc er ec => Some (selection sr sc er ec r)
  end.

Fixpoint updates (us : list Update) (r : Renderer) : option Renderer :=
  match us with
  | [] => Some r
  | u :: rest => r' ← update u r; updates rest r'
  end.

End RendererInv.

Module AppSpec.
Import Rpc Renderer App.

(** The pty that a redraw event is addressed to: the first argument of an
    event other than [flush] and [style]. *)
Definition addressee (event : value) : option Z :=
  match event with
  | VArr [VStr name; VArr args] =>
      if decide (name = "flush" \/ name = "style") then None
      else toNumber (item args 0)
  | _ => None
  end.

(** A well-formed [flush] event. *)
Definition isFlush (event : value) : bool :=
  match event with
  | VArr [VStr name; VArr _] => bool_decide (name = "flush")
  | _ => false
  end.

(** Two states of a renderer that differ in the style table at most. *)
Definition sameScreen (r r' : Renderer) : Prop :=
  rows r' = rows r /\ cols r' = cols r /\ grid r' = grid r
  /\ cursorState r' = cursorState r
  /\ selectionState r' = selectionState r
  /\ titleText r' = titleText r /\ dirtyCells r' = dirtyCells r.

(** What a redraw may do to a renderer that no event is addressed to:
    leave it where it is, with its screen. *)
Definition untouched (before after : option Renderer) : Prop :=
  match before, after with
  | Some r, Some r' => sameScreen r r'
  | None, None => True
  | _, _ => False
  end.

End AppSpec.

Module BufferSpec.
Import Buffer.

(** [inside inner outer]: every cell of [inner] is a cell of [outer]. *)
Definition inside (inner outer : Rect) : Prop :=
  forall px py,
    pointInRect px py inner = true -> pointInRect px py outer = true.

(** [apart a b]: no cell lies in both rectangles. *)
Definition apart (a b : Rect) : Prop :=
  forall px py,
    pointInRect px py a = true -> pointInRect px py b = false.

End BufferSpec.

Module LayoutInv.
Import Layout.

(** Every split of the tree has the ratio 0.5 that [splitPane] gives
    it. *)
Fixpoint evenSplits (node : LayoutNode) : Prop :=
  match node with
  | PaneNode _ _ => True
  | SplitNode _ r f s => r = half /\ evenSplits f /\ evenSplits s
  end.

(** The pane ids of all tabs, tab by tab. *)
Definition allPaneIds (state : LayoutState) : list PaneId :=
  tab ← tabs state; getAllPaneIds (root tab).

(** A layout as the operations build it: a valid state in which no pane
    id occurs twice, in one tab or in two, every pane id has been handed
    out by the counter, and every split is even. *)
Record wellFormed (state : LayoutState) (c : Counters) : Prop := {
  wf_valid : LayoutSpec.valid state c;
  wf_panes : NoDup (allPaneIds state);
  wf_paneCounter : Forall (fun p => p <= _paneCounter c) (allPaneIds state);
  wf_even : Forall (fun tab => evenSplits (root tab)) (tabs state);
}.

(** Whether [splitPane] and [setPtyId] get to the pane [paneId]: they
    look into the second child of a split only when the first child is a
    pane with another id. *)
Fixpoint reaches (node : LayoutNode) (paneId : PaneId) : bool :=
  match node with
  | PaneNode i _ => bool_decide (i = paneId)
  | SplitNode _ _ f s =>
      match f with
      | PaneNode i _ => bool_decide (i = paneId) || reaches s paneId
      | SplitNode _ _ _ _ => reaches f paneId
      end
  end.

(** The two parts that an even split makes of a rectangle, with one row
    or column between them for the divider. *)
Definition firstHalf (d : SplitDirection) (bounds : Buffer.Rect)
  : Buffer.Rect :=
  let '(Buffer.mkRect bx by_ bw bh) := bounds in
  match d with
  | vertical => Buffer.mkRect bx by_ bw (bh / 2)
  | horizontal => Buffer.mkRect bx by_ (bw / 2) bh
  end.

Definition secondHalf (d : SplitDirection) (bounds : Buffer.Rect)
  : Buffer.Rect :=
  let '(Buffer.mkRect bx by_ bw bh) := bounds in
  match d with
  | vertical => Buffer.mkRect bx (by_ + bh / 2 + 1) bw (bh - bh / 2 - 1)
  | horizontal => Buffer.mkRect (bx + bw / 2 + 1) by_ (bw - bw / 2 - 1) bh
  end.

(** The cells of the divider between them. *)
Definition onDivider (d : SplitDirection) (bounds : Buffer.Rect)
           (px py : Z) : Prop :=
  let '(Buffer.mkRect bx by_ bw bh) := bounds in
  match d with
  | vertical => bx <= px < bx + bw /\ py = by_ + bh / 2
  | horizontal => px = bx + bw / 2 /\ by_ <= py < by_ + bh
  end.

(** The panes of a tree from left to right, each with its pty. *)
Fixpoint leaves (node : LayoutNode) : list (PaneId * option Z) :=
  match node with
  | PaneNode i pty => [(i, pty)]
  | SplitNode _ _ f s => leaves f ++ leaves s
  end.

(** What the application does to a layout: the operations of
    [LayoutSpec.Op] and the assignment of a pty to the focused pane. *)
Inductive Step :=
| StepOp (op : LayoutSpec.Op)
| StepAssignPty (ptyId : Z).

Definition applyStep (st : Step) (state : LayoutState)
  : M (option LayoutState) :=
  match st with
  | StepOp op => LayoutSpec.applyOp op state
  | StepAssignPty ptyId => mret (Some (assignPtyToFocused state ptyId))
  end.

(** [None] when a step throws. *)
Fixpoint applySteps (steps : list Step) (state : LayoutState)
  : M (option LayoutState) :=
  match steps with
  | [] => mret (Some state)
  | st :: rest =>
      r ← applyStep st state;
      match r with
      | Some s => applySteps rest s
      | None => mret None
      end
  end.

End LayoutInv.

Module RpcSpec.
Import Rpc.

Section Encoded.

Variable unpack : list byte -> option (value * nat).

(** [encodes bytes msgs]: [bytes] is the encoding of the messages [msgs]
    one after the other, each one read back whole by the decoder. *)
Inductive encodes : list byte -> list value -> Prop :=
| encodes_nil : encodes [] []
| encodes_cons (bs : list byte) (v : value) (rest : list byte)
               (msgs : list value) :
    unpack bs = Some (v, length bs) ->
    encodes rest msgs ->
    encodes (bs ++ rest) (v :: msgs).

(** The loop of [unpackMultiple] as a recursion on what is left to read:
    the messages read and the bytes left. *)
Fixpoint decodeAll (fuel : nat) (src : list byte) : list value * list byte :=
  match fuel with
  | O => ([], src)
  | S fuel' =>
      match unpack src with
      | None => ([], src)
      | Some (v, n) =>
          let '(msgs, rest) := decodeAll fuel' (drop n src) in
          (v :: msgs, rest)
      end
  end.

(** [truncated bs]: [bs] is the beginning of one encoded message, and not
    all of it. *)
Definition truncated (bs : list byte) : Prop :=
  exists more v,
    more <> [] /\ unpack (bs ++ more) = Some (v, length (bs ++ more)).

End Encoded.

(** [isResponseFor id msg]: [msg] is a Response message carrying the id
    [id]. *)
Definition isResponseFor (id : Z) (msg : value) : bool :=
  match msg with
  | VArr [VNum 1; VNum k; _; _] => bool_decide (k = id)
  | _ => false
  end.


(** The time that passes during the events [es], in milliseconds. *)
Fixpoint elapsed (es : list Event) : Z :=
  match es with
  | [] => 0
  | Elapse dt :: es' => Z.of_N dt + elapsed es'
  | _ :: es' => elapsed es'
  end.

(** The ids that a trace settles or removes are below [bound]. *)
Definition traceBelow (bound : Z) (tr : list Obs) : Prop :=
  Forall (fun o => match o with
                   | Settled k _ | Deleted k => k < bound
                   | _ => True
                   end) tr.

(** The invariant of a client between two events.  [inflight] holds the
    timers that have left the queue and whose callbacks are about to run.
    Every timer belongs to the pending entry of its request and every
    pending entry has its timer; no timer in the queue is due; timer
    handles are distinct; ids in use are below the counters. *)
Record invariant (inflight : list Timer) (c : RpcClient) : Prop := {
  inv_timer : forall t, t ∈ timers c ++ inflight ->
    pendingRequests c !! t_msgid t
    = Some (mkPendingRequest (t_msgid t) (handle t))
    /\ handle t < nextTimer c;
  inv_due : forall t, t ∈ timers c -> clock c < due t;
  inv_pending : forall k p, pendingRequests c !! k = Some p ->
    k < msgidCounter c
    /\ exists t, t ∈ timers c ++ inflight /\ t_msgid t = k;
  inv_handles : NoDup (handle <$> (timers c ++ inflight));
  inv_trace : traceBelow (msgidCounter c) (trace c);
}.

(** What a client holds and has done about the request [id]: its pending
    entry, the settlements of its promise and the removals of its entry so
    far. *)
Definition history (id : Z) (c : RpcClient)
  : option PendingRequest * list Settlement * list Z :=
  (pendingRequests c !! id, settlements id (trace c), removals id (trace c)).

(** The messages [msgs] handed to [handleMessage] in order. *)
Definition dispatch (msgs : list value) (c : RpcClient) : RpcClient :=
  foldl (fun acc msg => handleMessage msg acc) c msgs.

(** Where the request id [id] stands in a client: not handed out yet;
    pending, its promise untouched; or out of the table, its entry removed
    as often as its promise was settled, which is at most once. *)
Definition accounted (id : Z) (c : RpcClient) : Prop :=
  (msgidCounter c <= id /\ history id c = (None, [], []))
  \/ (id < msgidCounter c /\ exists p, history id c = (Some p, [], []))
  \/ (id < msgidCounter c
      /\ exists ss, (length ss <= 1)%nat
                    /\ history id c = (None, ss, (fun _ => id) <$> ss)).

(** The ids that the calls of [request] among the events return, in
    order. *)
Fixpoint requestIds (es : list Event) (c : RpcClient) : list Z :=
  match es with
  | [] => []
  | e :: es' =>
      match e with
      | CallRequest m p ok => [(request m p ok c).1]
      | _ => []
      end ++ requestIds es' (step e c)
  end.

(** The number of calls of [request] among the events. *)
Fixpoint requestCount (es : list Event) : nat :=
  match es with
  | [] => O
  | CallRequest _ _ _ :: es' => S (requestCount es')
  | _ :: es' => requestCount es'
  end.

End RpcSpec.

(** ** A decoder to run the client on

    The msgpackr package is not part of the repository.  The properties of
    [processData] are stated for any decoder that reads one value from the
    start of its input; the following reader of a fragment of MessagePack
    (positive and negative fixint, nil, booleans, fixstr and fixarray,
    nested up to a given depth) is such a decoder. *)

Module Msgpack.
Import Rpc.

Definition byteZ (b : byte) : Z := Z.of_N (Byte.to_N b).

Section OneLevel.

(** The reader of the items of an array. *)
Variable item : list byte -> option (value * nat).

Fixpoint unpackItems (count : nat) (bs : list byte)
  : option (list value * nat) :=
  match count with
  | O => Some ([], O)
  | S k =>
      match item bs with
      | None => None
      | Some (v, n) =>
          match unpackItems k (drop n bs) with
          | None => None
          | Some (vs, m) => Some (v :: vs, (n + m)%nat)
          end
      end
  end.

Definition unpackOne (bs : list byte) : option (value * nat) :=
  match bs with
  | [] => None
  | t :: rest =>
      let n := byteZ t in
      if decide (n <= 127) then Some (VNum n, 1%nat)
      else if decide (144 <= n <= 159) then
        match unpackItems (Z.to_nat (n - 144)) rest with
        | Some (vs, m) => Some (VArr vs, S m)
        | None => None
        end
      else if decide (160 <= n <= 191) then
        let len := Z.to_nat (n - 160) in
        if decide (len <= length rest)%nat
        then Some (VStr (String.string_of_list_byte (take len rest)), S len)
        else None
      else if decide (n = 192) then Some (VNull, 1%nat)
      else if decide (n = 194) then Some (VBool false, 1%nat)
      else if decide (n = 195) then Some (VBool true, 1%nat)
      else if decide (224 <= n) then Some (VNum (n - 256), 1%nat)
      else None
  end.

End OneLevel.

Fixpoint unpackDepth (depth : nat) : list byte -> option (value * nat) :=
  match depth with
  | O => fun _ => None
  | S d => unpackOne (unpackDepth d)
  end.

Definition unpack : list byte -> option (value * nat) := unpackDepth 8.

End Msgpack.


(* ===================================================================== *)
(** * Part II: properties *)
(* ===================================================================== *)

(** ** renderer.ts *)

Module RendererFacts.
Import Renderer RendererSpec.

Lemma rem_div_digit n : 0 <= n -> Z.rem n 36 / 6 = digit6 n 1.
Proof.
  intros Hn. unfold digit6. rewrite Z.rem_mod_nonneg by lia.
  change (6 ^ Z.of_nat 1) with 6.
  replace 36 with (6 * 6) by lia.
  rewrite Z.rem_mul_r by lia.
  rewrite (Z.mul_comm 6 ((n / 6) `mod` 6)), Z.div_add by lia.
  rewrite (Z.div_small (n `mod` 6)) by (apply Z.mod_pos_bound; lia). lia.
Qed.

Lemma steps_lookup d : 0 <= d < 6 -> exists s, steps !! Z.to_nat d = Some s.
Proof.
  intros Hd.
  assert (d = 0 \/ d = 1 \/ d = 2 \/ d = 3 \/ d = 4 \/ d = 5) as Hc by lia.
  destruct Hc as [->|[->|[->|[->|[->| ->]]]]]; simpl; eauto.
Qed.

Lemma basic_lookup i : 0 <= i <= 15 -> exists c, basic !! Z.to_nat i = Some c.
Proof.
  intros Hi. apply lookup_lt_is_Some_2. simpl. lia.
Qed.

(** C8: palette indices 0-15 go through a fixed table of 16 entries (the
    claim does not give its entries; they are the ones below), indices
    16-231 through the colour cube with the steps 0, 95, 135, 175, 215,
    255 indexed by the three base-6 digits of [idx - 16], indices 232-255
    to the grey [8 + (idx - 232) * 10]; index 21 is (0, 0, 255). *)
Theorem xtermIndexToRgb_spec (idx : Z) :
  (0 <= idx <= 15 ->
     exists r g b,
       [ (0, 0, 0); (205, 49, 49); (13, 188, 121); (229, 229, 16);
         (36, 114, 200); (188, 63, 188); (17, 168, 205); (229, 229, 229);
         (102, 102, 102); (241, 76, 76); (35, 209, 139); (245, 245, 67);
         (59, 142, 234); (214, 112, 214); (41, 184, 219); (255, 255, 255) ]
         !! Z.to_nat idx = Some (r, g, b)
       /\ xtermIndexToRgb idx = mkRgb r g b)
  /\ (16 <= idx <= 231 ->
     exists sr sg sb,
       [0; 95; 135; 175; 215; 255] !! Z.to_nat (digit6 (idx - 16) 2)
       = Some sr
       /\ [0; 95; 135; 175; 215; 255] !! Z.to_nat (digit6 (idx - 16) 1)
          = Some sg
       /\ [0; 95; 135; 175; 215; 255] !! Z.to_nat (digit6 (idx - 16) 0)
          = Some sb
       /\ xtermIndexToRgb idx = mkRgb sr sg sb)
  /\ (232 <= idx <= 255 ->
     xtermIndexToRgb idx
     = mkRgb (8 + (idx - 232) * 10) (8 + (idx - 232) * 10)
             (8 + (idx - 232) * 10))
  /\ xtermIndexToRgb 21 = mkRgb 0 0 255.
Proof.
  split; [|split; [|split]].
  - intros Hi. destruct (basic_lookup idx Hi) as [[[r g] b] Hc].
    exists r, g, b. split; [exact Hc|]. unfold xtermIndexToRgb.
    rewrite decide_True by lia. by rewrite Hc.
  - intros Hi. set (n := idx - 16).
    assert (Hn : 0 <= n < 216) by (unfold n; lia).
    assert (H2 : digit6 n 2 = n / 36).
    { unfold digit6. change (6 ^ Z.of_nat 2) with 36.
      apply Z.mod_small. split; [apply Z.div_pos; lia|].
      apply Z.div_lt_upper_bound; lia. }
    assert (H0 : digit6 n 0 = Z.rem n 6).
    { unfold digit6. change (6 ^ Z.of_nat 0) with 1.
      rewrite Z.div_1_r, Z.rem_mod_nonneg by lia. done. }
    destruct (steps_lookup (digit6 n 2)) as [sr Hr];
      [unfold digit6; apply Z.mod_pos_bound; lia|].
    destruct (steps_lookup (digit6 n 1)) as [sg Hg];
      [unfold digit6; apply Z.mod_pos_bound; lia|].
    destruct (steps_lookup (digit6 n 0)) as [sb Hb];
      [unfold digit6; apply Z.mod_pos_bound; lia|].
    exists sr, sg, sb.
    split; [exact Hr|]. split; [exact Hg|]. split; [exact Hb|].
    unfold xtermIndexToRgb.
    rewrite decide_False by lia. rewrite decide_True by lia.
    fold n. rewrite rem_div_digit by lia. rewrite <- H2, <- H0.
    by rewrite Hr, Hg, Hb.
  - intros Hi. unfold xtermIndexToRgb.
    rewrite decide_False by lia. rewrite decide_False by lia.
    by rewrite decide_True by lia.
  - reflexivity.
Qed.

Lemma xtermIndexToRgb_spec_witness :
  16 <= 21 <= 231 /\
  exists sr sg sb,
    [0; 95; 135; 175; 215; 255] !! Z.to_nat (digit6 (21 - 16) 2) = Some sr
    /\ [0; 95; 135; 175; 215; 255] !! Z.to_nat (digit6 (21 - 16) 1)
       = Some sg
    /\ [0; 95; 135; 175; 215; 255] !! Z.to_nat (digit6 (21 - 16) 0)
       = Some sb
    /\ xtermIndexToRgb 21 = mkRgb sr sg sb.
Proof.
  split; [lia|].
  apply (proj1 (proj2 (xtermIndexToRgb_spec 21))). lia.
Defined.

(** C10: a [write] to a row outside the grid returns the renderer as it
    is (grid, dirty set, style table, cursor and all) and throws nothing. *)
Theorem write_row_out_of_range (r : Renderer) (row col : Z) (cells : list Cell) :
  row < 0 \/ rows r <= row -> write row col cells r = Some r.
Proof.
  intros H. unfold write. by rewrite decide_True.
Qed.

Lemma write_row_out_of_range_witness :
  write 2 0 [mkCell "A" None None None] (newRenderer 2 3)
  = Some (newRenderer 2 3).
Proof.
  apply (write_row_out_of_range (newRenderer 2 3) 2 0). right. simpl. lia.
Defined.
End RendererFacts.

(** ** keybinds.ts *)

Module KeybindsFacts.
Import Keybinds KeybindsSpec.





End KeybindsFacts.

(** ** connection.ts *)

Module ConnectionFacts.
Import Connection ConnectionSpec.

Lemma attemptReconnect_stop (outcomes : list bool) (c : PriseConnection) :
  maxReconnectAttempts c <= reconnectAttempts c ->
  attemptReconnect outcomes c
  = (c, [Log error MaxReconnectionAttemptsReached], Resolved).
Proof.
  intros H. destruct outcomes; simpl; by rewrite decide_True.
Qed.

Lemma attemptReconnect_fail (rest : list bool) (c : PriseConnection) :
  reconnectAttempts c < maxReconnectAttempts c ->
  isConnected c = false ->
  attemptReconnect (false :: rest) c
  = let k := reconnectAttempts c + 1 in
    let c1 := mkPriseConnection (rpc c) (isConnected c) k
                (maxReconnectAttempts c) (reconnectDelayMs c)
                (onReconnect c) in
    let res := attemptReconnect rest c1 in
    (res.1.1,
     [Log info (AttemptingReconnect k (maxReconnectAttempts c)
                                    (reconnectDelayMs c * k));
      Sleep (reconnectDelayMs c * k);
      Log info ConnectingTo; CreateConnection; Log error FailedToConnect;
      Log warn ReconnectionFailed] ++ res.1.2,
     Resolved).
Proof.
  intros H Hdis. cbn [attemptReconnect]. rewrite decide_False by lia.
  cbn [connect isConnected]. rewrite Hdis.
  by destruct (attemptReconnect rest _) as [[c3 effs] d].
Qed.

(** C2, as the code has it: when [connect] fails five times in a row,
    attempt [k] sleeps [1000 * k] ms and calls [connect] again; the sixth
    call of [attemptReconnect] only logs "Max reconnection attempts
    reached" and returns.  No further [connect] is made whatever would
    follow, the promise resolves, the reconnect callback is not invoked and
    the manager stays disconnected ([getRpc] throws). *)
Theorem attemptReconnect_exhausted (cb : bool) (more : list bool) :
  let res := attemptReconnect (replicate 5 false ++ more)
               (mkPriseConnection false false 0 5 1000 cb) in
  res = (mkPriseConnection false false 5 5 1000 cb,
         failedAttempt 1 ++ failedAttempt 2 ++ failedAttempt 3
         ++ failedAttempt 4 ++ failedAttempt 5
         ++ [Log error MaxReconnectionAttemptsReached],
         Resolved)
  /\ getRpc res.1.1 = inl tt
  /\ ~ surfacesFailure res.
Proof.
  assert (Hres : attemptReconnect (replicate 5 false ++ more)
               (mkPriseConnection false false 0 5 1000 cb)
     = (mkPriseConnection false false 5 5 1000 cb,
         failedAttempt 1 ++ failedAttempt 2 ++ failedAttempt 3
         ++ failedAttempt 4 ++ failedAttempt 5
         ++ [Log error MaxReconnectionAttemptsReached],
         Resolved)).
  { change (replicate 5 false ++ more)
      with (false :: false :: false :: false :: false :: more).
    do 5 (rewrite attemptReconnect_fail by (first [reflexivity|simpl; lia]);
          cbv zeta;
          cbn [rpc isConnected reconnectAttempts maxReconnectAttempts
               reconnectDelayMs onReconnect]).
    rewrite attemptReconnect_stop by (simpl; lia). reflexivity. }
  cbv zeta. rewrite Hres. split; [done|]. split; [done|].
  intros [[reason Hr]|Hin]; [discriminate Hr|].
  apply list_elem_of_In in Hin. simpl in Hin. intuition discriminate.
Qed.

(** C2, counterexample: after five failed attempts nothing reaches the
    caller. *)
Lemma attemptReconnect_exhausted_silent :
  ~ surfacesFailure
      (attemptReconnect (replicate 5 false)
         (connectionLost (connect true (setReconnectCallback newPriseConnection)).1.1)).
Proof.
  intros [[reason Hr]|Hin]; [discriminate Hr|].
  apply list_elem_of_In in Hin. vm_compute in Hin. intuition discriminate.
Qed.

End ConnectionFacts.

(** ** layout.ts *)

Module LayoutFacts.
Import Layout LayoutSpec.

Lemma findIndex_app (tabId : TabId) (pre : list Tab) (t : Tab) (post : list Tab) :
  tab_id t = tabId ->
  (forall x, x ∈ pre -> tab_id x <> tabId) ->
  findIndex tabId (pre ++ t :: post) = Some (length pre).
Proof.
  intros Ht. induction pre as [|x pre IH]; intros Hpre; simpl.
  - by rewrite decide_True.
  - rewrite decide_False by (apply Hpre; left).
    rewrite IH; [done|]. intros y Hy. apply Hpre. by right.
Qed.

Lemma filter_keep_all {A} (P : A -> Prop) `{!forall x, Decision (P x)} (l : list A) :
  (forall x, x ∈ l -> P x) -> filter P l = l.
Proof.
  induction l as [|x l IH]; intros Hall; [done|].
  rewrite filter_cons_True by (apply Hall; left).
  rewrite IH; [done|]. intros y Hy. apply Hall. by right.
Qed.

Lemma filter_remove_tab (tabId : TabId) (pre : list Tab) (t : Tab) (post : list Tab) :
  tab_id t = tabId ->
  NoDup (tab_id <$> (pre ++ t :: post)) ->
  filter (fun x => tab_id x <> tabId) (pre ++ t :: post) = pre ++ post.
Proof.
  intros Ht Hnd. rewrite fmap_app, fmap_cons in Hnd.
  apply NoDup_app in Hnd as (_ & Hdisj & Hnd2).
  apply NoDup_cons in Hnd2 as [Hnotin _].
  rewrite filter_app, filter_cons, decide_False by (intros H; by apply H).
  f_equal.
  - apply filter_keep_all. intros x Hx Heq.
    apply (Hdisj (tab_id x)); [by apply list_elem_of_fmap_2|].
    rewrite Heq, <- Ht. left.
  - apply filter_keep_all. intros x Hx Heq.
    apply Hnotin. rewrite Ht, <- Heq. by apply list_elem_of_fmap_2.
Qed.

Lemma NoDup_tab_ids_pre (tabId : TabId) (pre : list Tab) (t : Tab) (post : list Tab) :
  tab_id t = tabId ->
  NoDup (tab_id <$> (pre ++ t :: post)) ->
  forall x, x ∈ pre -> tab_id x <> tabId.
Proof.
  intros Ht Hnd x Hx Heq. rewrite fmap_app, fmap_cons in Hnd.
  apply NoDup_app in Hnd as (_ & Hdisj & _).
  apply (Hdisj (tab_id x)); [by apply list_elem_of_fmap_2|].
  rewrite Heq, <- Ht. left.
Qed.

Lemma closePane_single (node : LayoutNode) (p : PaneId) :
  getAllPaneIds node = [p] -> closePane node p = None.
Proof.
  destruct node as [i pty|d r f s]; simpl.
  - intros [= ->]. by rewrite decide_True.
  - intros H. exfalso.
    assert (Hlen : forall n, (1 <= length (getAllPaneIds n))%nat).
    { induction n; simpl; [lia|]. rewrite length_app. lia. }
    pose proof (Hlen f). pose proof (Hlen s).
    apply (f_equal length) in H. rewrite length_app in H. simpl in H. lia.
Qed.

(** C9: [closeTab] on a layout with a single tab gives the state back;
    closing the active tab of several activates the tab before it, or the
    one after it when it was the first; [closeFocused] on a tab with a
    single pane, the focused one, is the closure of that tab, which a
    single-tab layout refuses. *)
Theorem closeTab_closeFocused_spec (s : LayoutState) :
  (length (tabs s) = 1%nat -> forall t, closeTab s t = Some s)
  /\ (forall pre p t post,
        tabs s = pre ++ p :: t :: post ->
        tab_id t = activeTabId s ->
        NoDup (tab_id <$> tabs s) ->
        closeTab s (tab_id t)
        = Some (mkLayoutState (pre ++ p :: post) (tab_id p)))
  /\ (forall t q post,
        tabs s = t :: q :: post ->
        tab_id t = activeTabId s ->
        NoDup (tab_id <$> tabs s) ->
        closeTab s (tab_id t)
        = Some (mkLayoutState (q :: post) (tab_id q)))
  /\ (forall tab p,
        getActiveTab s = Some tab ->
        getAllPaneIds (root tab) = [p] ->
        focusedPaneId tab = p ->
        closeFocused s = closeTab s (tab_id tab))
  /\ (forall tab p,
        length (tabs s) = 1%nat ->
        getActiveTab s = Some tab ->
        getAllPaneIds (root tab) = [p] ->
        focusedPaneId tab = p ->
        closeFocused s = Some s).
Proof.
  assert (Hsingle : length (tabs s) = 1%nat -> forall t, closeTab s t = Some s).
  { intros Hlen t. unfold closeTab. by rewrite decide_True by lia. }
  assert (Hfocused : forall tab p,
        getActiveTab s = Some tab ->
        getAllPaneIds (root tab) = [p] ->
        focusedPaneId tab = p ->
        closeFocused s = closeTab s (tab_id tab)).
  { intros tab p Hact Hids Hf. unfold closeFocused. rewrite Hact, Hf.
    by rewrite (closePane_single _ _ Hids). }
  split; [exact Hsingle|]. split; [|split; [|split; [exact Hfocused|]]].
  - intros pre p t post Htabs Hid Hnd. unfold closeTab.
    rewrite Htabs in Hnd |- *.
    rewrite decide_False by (rewrite length_app; simpl; lia).
    replace (pre ++ p :: t :: post) with ((pre ++ [p]) ++ t :: post) in *
      by (by rewrite <- app_assoc).
    rewrite (findIndex_app (tab_id t)); [|done|by eapply NoDup_tab_ids_pre].
    rewrite decide_True by done.
    rewrite length_app. simpl.
    rewrite decide_True by lia.
    replace (length pre + 1 - 1)%nat with (length pre) by lia.
    rewrite (filter_remove_tab (tab_id t)) by done.
    rewrite <- !app_assoc. change ([p] ++ t :: post) with (p :: t :: post).
    by rewrite list_lookup_middle by done.
  - intros t q post Htabs Hid Hnd. unfold closeTab.
    rewrite Htabs in Hnd |- *.
    rewrite decide_False by (simpl; lia).
    pose proof (findIndex_app (tab_id t) [] t (q :: post) eq_refl) as Hfi.
    change ([] ++ t :: q :: post) with (t :: q :: post) in Hfi.
    rewrite Hfi by (intros x Hx; by apply elem_of_nil in Hx).
    rewrite decide_True by done.
    pose proof (filter_remove_tab (tab_id t) [] t (q :: post) eq_refl Hnd) as Hfl.
    change ([] ++ t :: q :: post) with (t :: q :: post) in Hfl.
    change ([] ++ q :: post) with (q :: post) in Hfl.
    rewrite Hfl. reflexivity.
  - intros tab p Hlen Hact Hids Hf.
    rewrite (Hfocused tab p) by done. by apply Hsingle.
Qed.

Lemma closeTab_closeFocused_spec_witness :
  let t1 := mkTab 1 (PaneNode 1 None) 1 in
  let t2 := mkTab 2 (PaneNode 2 None) 2 in
  let t3 := mkTab 3 (PaneNode 3 None) 3 in
  closeTab (mkLayoutState [t1] 1) 1 = Some (mkLayoutState [t1] 1)
  /\ closeTab (mkLayoutState [t1; t2; t3] 2) 2 = Some (mkLayoutState [t1; t3] 1)
  /\ closeTab (mkLayoutState [t1; t2; t3] 1) 1 = Some (mkLayoutState [t2; t3] 2)
  /\ closeFocused (mkLayoutState [t1; t2; t3] 2)
     = closeTab (mkLayoutState [t1; t2; t3] 2) 2
  /\ closeFocused (mkLayoutState [t1] 1) = Some (mkLayoutState [t1] 1).
Proof.
  intros t1 t2 t3.
  pose proof (closeTab_closeFocused_spec (mkLayoutState [t1] 1))
    as (H1 & _ & _ & _ & H5).
  pose proof (closeTab_closeFocused_spec (mkLayoutState [t1; t2; t3] 2))
    as (_ & H2 & _ & H4 & _).
  pose proof (closeTab_closeFocused_spec (mkLayoutState [t1; t2; t3] 1))
    as (_ & _ & H3 & _ & _).
  assert (Hnd : NoDup (tab_id <$> [t1; t2; t3])).
  { apply (bool_decide_unpack _). vm_compute. exact I. }
  refine (conj (H1 eq_refl 1) (conj (H2 [] t1 t2 [t3] eq_refl eq_refl Hnd)
           (conj (H3 t1 t2 [t3] eq_refl eq_refl Hnd)
             (conj (H4 t2 2 eq_refl eq_refl eq_refl)
                   (H5 t1 1 eq_refl eq_refl eq_refl eq_refl))))).
Defined.

(** *** The layout stays valid *)

Lemma getAllPaneIds_nonempty (node : LayoutNode) : getAllPaneIds node <> [].
Proof.
  induction node as [i p|d r f IHf s IHs]; simpl; [done|].
  intros H. apply app_eq_nil in H as [H _]. by apply IHf.
Qed.

Lemma findPaneInTree_elem (node : LayoutNode) (p : PaneId) :
  is_Some (findPaneInTree node p) <-> p ∈ getAllPaneIds node.
Proof.
  induction node as [i pty|d r f IHf s IHs]; simpl.
  - destruct (decide (i = p)) as [->|Hne].
    + split; [intros _; left|by eexists].
    + split; [by intros [? ?]|]. intros Hin%list_elem_of_singleton. congruence.
  - rewrite elem_of_app, <- IHf, <- IHs.
    destruct (findPaneInTree f p) as [x|]; [|destruct (findPaneInTree s p) as [y|]].
    + split; [intros _; left|]; by eexists.
    + split; [intros _; right|]; by eexists.
    + split; [by intros [? ?]|]. by intros [[? ?]|[? ?]].
Qed.

Lemma hasPane_elem (node : LayoutNode) (p : PaneId) :
  hasPane node p = true <-> p ∈ getAllPaneIds node.
Proof.
  unfold hasPane. rewrite bool_decide_eq_true. apply findPaneInTree_elem.
Qed.

Lemma lastPaneId_elem (ids : list PaneId) : ids <> [] -> lastPaneId ids ∈ ids.
Proof.
  intros Hne. unfold lastPaneId.
  destruct (last ids) as [p|] eqn:E.
  - simpl. apply last_Some in E as [l' ->]. apply elem_of_app. right. left.
  - by apply last_None in E.
Qed.

Lemma findTab_Some (tabId : TabId) (l : list Tab) (t : Tab) :
  findTab tabId l = Some t -> t ∈ l /\ tab_id t = tabId.
Proof.
  induction l as [|x l IH]; simpl; [done|].
  case_decide.
  - intros [= ->]. split; [left|done].
  - intros H'. destruct (IH H') as [? ?]. split; [by right|done].
Qed.

Lemma findTab_is_Some (tabId : TabId) (l : list Tab) :
  is_Some (findTab tabId l) <-> tabId ∈ tab_id <$> l.
Proof.
  induction l as [|x l IH]; simpl.
  - split; [by intros [? ?]|]. by intros ?%elem_of_nil.
  - case_decide; subst.
    + split; [intros _; left|by eexists].
    + rewrite IH, elem_of_cons. split; [by right|]. by intros [?|?].
Qed.

Lemma findIndex_lookup (tabId : TabId) (l : list Tab) (i : nat) :
  findIndex tabId l = Some i ->
  exists t, l !! i = Some t /\ tab_id t = tabId.
Proof.
  revert i. induction l as [|x l IH]; intros i; simpl; [done|].
  case_decide.
  - intros [= <-]. by exists x.
  - destruct (findIndex tabId l) as [j|]; [|done].
    intros [= <-]. destruct (IH j eq_refl) as (t & ? & ?). by exists t.
Qed.

Lemma findIndex_is_Some (tabId : TabId) (l : list Tab) :
  tabId ∈ tab_id <$> l -> is_Some (findIndex tabId l).
Proof.
  induction l as [|x l IH]; simpl; [by intros ?%elem_of_nil|].
  case_decide; [by eexists|].
  intros [?|Hin]%elem_of_cons; [done|].
  destruct (IH Hin) as [j ->]. by eexists.
Qed.

Lemma validateTab_valid (tab : Tab) :
  focusedPaneId tab ∈ getAllPaneIds (root tab) -> validateTab tab = [].
Proof.
  intros Htab. unfold validateTab.
  rewrite (proj2 (hasPane_elem _ _) Htab).
  rewrite decide_False; [done|].
  pose proof (getAllPaneIds_nonempty (root tab)). by destruct (getAllPaneIds _).
Qed.

Lemma validateTabs_valid (l : list Tab) :
  Forall (fun tab => focusedPaneId tab ∈ getAllPaneIds (root tab)) l ->
  concat (map validateTab l) = [].
Proof.
  induction 1 as [|tab l Htab _ IH]; [done|].
  simpl. by rewrite IH, validateTab_valid.
Qed.

Lemma validateLayoutState_valid (state : LayoutState) (c : Counters) :
  valid state c -> validateLayoutState state = [].
Proof.
  intros [Ht Ha Hf _ _]. unfold validateLayoutState.
  rewrite decide_False by (by destruct (tabs state)).
  apply findTab_is_Some in Ha as [t ->]. simpl.
  by apply validateTabs_valid.
Qed.

Lemma updateTab_ids (state : LayoutState) (tab : Tab) :
  tab_id <$> tabs (updateTab state (tab_id tab) tab) = tab_id <$> tabs state.
Proof.
  unfold updateTab. simpl. induction (tabs state) as [|x l IH]; [done|].
  simpl. f_equal; [by case_decide|exact IH].
Qed.

Lemma valid_updateTab (state : LayoutState) (c : Counters) (tab : Tab) :
  valid state c ->
  focusedPaneId tab ∈ getAllPaneIds (root tab) ->
  tab_id tab <= _tabCounter c ->
  valid (updateTab state (tab_id tab) tab) c.
Proof.
  intros [Ht Ha Hf Hn Hc] Hfocus Hle.
  split; rewrite ?updateTab_ids; try done.
  - unfold updateTab. simpl. by destruct (tabs state).
  - unfold updateTab. simpl. apply Forall_fmap.
    eapply Forall_impl; [exact Hf|]. intros x Hx. simpl. by case_decide.
  - unfold updateTab. simpl. apply Forall_fmap.
    eapply Forall_impl; [exact Hc|]. intros x Hx. simpl. by case_decide.
Qed.

Lemma splitPane_tabCounter (node : LayoutNode) (p : PaneId)
      (d : SplitDirection) (c : Counters) :
  _tabCounter (splitPane node p d c).2 = _tabCounter c.
Proof.
  revert c. induction node as [i pty|d' r f IHf s IHs]; intros c; simpl.
  - by case_decide.
  - unfold mbind, M_bind, bind. specialize (IHf c).
    destruct (splitPane f p d c) as [[first changed] c1]. simpl in *.
    destruct changed; [done|]. specialize (IHs c1).
    destruct (splitPane s p d c1) as [[second ?] c2]. simpl in *. congruence.
Qed.

Lemma valid_counters (state : LayoutState) (c c' : Counters) :
  _tabCounter c <= _tabCounter c' -> valid state c -> valid state c'.
Proof.
  intros Hle [Ht Ha Hf Hn Hc]. split; try done.
  eapply Forall_impl; [exact Hc|]. intros x Hx. simpl in *. lia.
Qed.

Lemma getActiveTab_valid (state : LayoutState) (c : Counters) (tab : Tab) :
  valid state c -> getActiveTab state = Some tab ->
  tab ∈ tabs state /\ tab_id tab = activeTabId state
  /\ tab_id tab <= _tabCounter c.
Proof.
  intros Hv Hact. apply findTab_Some in Hact as [Hin Hid].
  split; [done|]. split; [done|].
  by apply (proj1 (Forall_forall _ _) (valid_counter _ _ Hv)).
Qed.

Lemma valid_splitFocused (state : LayoutState) (d : SplitDirection)
      (c : Counters) :
  valid state c ->
  valid (splitFocused state d c).1 (splitFocused state d c).2.
Proof.
  intros Hv. unfold splitFocused.
  destruct (getActiveTab state) as [tab|] eqn:Hact; [|done].
  destruct (getActiveTab_valid _ _ _ Hv Hact) as (_ & _ & Hle).
  unfold mbind, M_bind, bind.
  pose proof (splitPane_tabCounter (root tab) (focusedPaneId tab) d c) as Hc.
  destruct (splitPane (root tab) (focusedPaneId tab) d c)
    as [[newRoot changed] c1]. simpl in *.
  apply (valid_updateTab state c1 (mkTab (tab_id tab) newRoot _)).
  - apply (valid_counters state c); [lia|done].
  - simpl. apply lastPaneId_elem, getAllPaneIds_nonempty.
  - simpl. lia.
Qed.

Lemma valid_moveFocusToPane (state : LayoutState) (p : PaneId) (c : Counters) :
  valid state c -> valid (moveFocusToPane state p) c.
Proof.
  intros Hv. unfold moveFocusToPane.
  destruct (getActiveTab state) as [tab|] eqn:Hact; [|done].
  destruct (getActiveTab_valid _ _ _ Hv Hact) as (_ & _ & Hle).
  destruct (hasPane (root tab) p) eqn:Hp; [|done].
  apply (valid_updateTab state c (mkTab (tab_id tab) (root tab) p)); try done.
  simpl. by apply hasPane_elem.
Qed.

Lemma valid_focusNext (state : LayoutState) (d : FocusDirection) (c : Counters) :
  valid state c -> valid (focusNext state d) c.
Proof.
  intros Hv. unfold focusNext. repeat case_match; try done;
    by apply valid_moveFocusToPane.
Qed.

Lemma valid_setActiveTab (state : LayoutState) (t : TabId) (c : Counters) :
  valid state c -> valid (setActiveTab state t) c.
Proof.
  intros Hv. unfold setActiveTab.
  destruct (findTab t (tabs state)) as [tab|] eqn:E; [|done].
  destruct Hv as [Ht Ha Hf Hn Hc]. split; try done. simpl.
  apply findTab_is_Some. by rewrite E.
Qed.

Lemma valid_addTab (state : LayoutState) (c : Counters) :
  valid state c -> valid (addTab state c).1 (addTab state c).2.
Proof.
  intros [Ht Ha Hf Hn Hc]. split; simpl.
  - by destruct (tabs state).
  - rewrite fmap_app. apply elem_of_app. right. left.
  - apply Forall_app. split; [done|]. repeat constructor.
  - rewrite fmap_app. apply NoDup_app. split; [done|]. split.
    + intros i Hi [->|?%elem_of_nil]%elem_of_cons; [|done].
      apply list_elem_of_fmap in Hi as (t & Heq & Hin).
      pose proof (proj1 (Forall_forall _ _) Hc t Hin) as Hle.
      simpl in *. lia.
    + apply NoDup_singleton.
  - apply Forall_app. split.
    + eapply Forall_impl; [exact Hc|]. intros x Hx. simpl in *. lia.
    + repeat constructor. simpl. lia.
Qed.

Lemma valid_closeTab (state : LayoutState) (t : TabId) (c : Counters) :
  valid state c ->
  exists state', closeTab state t = Some state' /\ valid state' c.
Proof.
  intros Hv. pose proof Hv as [Ht Ha Hf Hn Hc]. unfold closeTab.
  destruct (decide (length (tabs state) <= 1)%nat) as [|Hlen]; [by eexists|].
  destruct (findIndex t (tabs state)) as [index|] eqn:Hidx; [|by eexists].
  destruct (findIndex_lookup _ _ _ Hidx) as (tab & Hlook & Hid).
  assert (Hfilter : forall x, x ∈ tabs state -> tab_id x <> t ->
            x ∈ filter (fun t0 => tab_id t0 <> t) (tabs state))
    by (intros x Hx Hne; by apply list_elem_of_filter).
  assert (Hsub : filter (fun t0 => tab_id t0 <> t) (tabs state)
                 `sublist_of` tabs state) by apply sublist_filter.
  assert (Hrest : forall a, a <> t -> a ∈ tab_id <$> tabs state ->
      valid (mkLayoutState (filter (fun t0 => tab_id t0 <> t) (tabs state)) a) c).
  { intros a Hne Hin. apply list_elem_of_fmap in Hin as (x & -> & Hx).
    split; simpl.
    - intros Hnil. specialize (Hfilter x Hx Hne). rewrite Hnil in Hfilter.
      by apply elem_of_nil in Hfilter.
    - apply list_elem_of_fmap_2. by apply Hfilter.
    - apply Forall_forall. intros y [_ Hy]%list_elem_of_filter.
      by apply (proj1 (Forall_forall _ _) Hf).
    - eapply sublist_NoDup; [exact Hn|]. by apply fmap_sublist.
    - apply Forall_forall. intros y [_ Hy]%list_elem_of_filter.
      by apply (proj1 (Forall_forall _ _) Hc). }
  destruct (decide (activeTabId state = t)) as [Hact|Hact].
  - set (j := if decide (0 < index)%nat then (index - 1)%nat else (index + 1)%nat).
    assert (Hj : j <> index) by (unfold j; case_decide; lia).
    assert (Hjlt : (j < length (tabs state))%nat).
    { apply lookup_lt_Some in Hlook. unfold j. case_decide; lia. }
    destruct (lookup_lt_is_Some_2 _ _ Hjlt) as [nb Hnb].
    rewrite Hnb. simpl. eexists. split; [done|]. apply Hrest.
    + intros Heq. apply Hj.
      apply (NoDup_lookup _ j index (tab_id nb) Hn);
        rewrite list_lookup_fmap; [by rewrite Hnb|].
      rewrite Hlook. simpl. congruence.
    + apply list_elem_of_fmap_2. by eapply list_elem_of_lookup_2.
  - eexists. split; [done|]. by apply Hrest.
Qed.

Lemma valid_closeFocused (state : LayoutState) (c : Counters) :
  valid state c ->
  exists state', closeFocused state = Some state' /\ valid state' c.
Proof.
  intros Hv. unfold closeFocused.
  destruct (getActiveTab state) as [tab|] eqn:Hact; [|by eexists].
  destruct (getActiveTab_valid _ _ _ Hv Hact) as (_ & _ & Hle).
  destruct (closePane (root tab) (focusedPaneId tab)) as [newRoot|] eqn:Hclose;
    [|by apply valid_closeTab].
  eexists. split; [done|].
  apply (valid_updateTab state c (mkTab (tab_id tab) newRoot _)); try done.
  simpl. pose proof (getAllPaneIds_nonempty newRoot).
  destruct (getAllPaneIds newRoot); [done|left].
Qed.

Lemma valid_cycleTab (state : LayoutState) (delta : Z) (c : Counters) :
  delta = 1 \/ delta = -1 ->
  valid state c ->
  exists state', cycleTab state delta = Some state' /\ valid state' c.
Proof.
  intros Hdelta Hv. unfold cycleTab.
  destruct (decide (length (tabs state) <= 1)%nat) as [|Hlen]; [by eexists|].
  destruct (findIndex (activeTabId state) (tabs state)) as [idx|] eqn:Hidx;
    [|by eexists].
  destruct (findIndex_lookup _ _ _ Hidx) as (tab & Hlook & _).
  apply lookup_lt_Some in Hlook.
  set (n := Z.of_nat (length (tabs state))).
  set (nextIdx := Z.rem (Z.of_nat idx + delta + n) n).
  assert (Hrange : 0 <= nextIdx < n).
  { unfold nextIdx. rewrite Z.rem_mod_nonneg by lia.
    apply Z.mod_pos_bound. lia. }
  rewrite decide_True by lia.
  destruct (lookup_lt_is_Some_2 (tabs state) (Z.to_nat nextIdx)) as [t Ht];
    [lia|].
  rewrite Ht. simpl. eexists. split; [done|]. by apply valid_setActiveTab.
Qed.

Lemma valid_initLayout :
  valid (initLayout resetIdCounters).1 (initLayout resetIdCounters).2.
Proof.
  split; simpl.
  - done.
  - left.
  - constructor; [left|constructor].
  - apply NoDup_singleton.
  - constructor; [simpl; lia|constructor].
Qed.

Lemma valid_applyOp (op : Op) (state : LayoutState) (c : Counters) :
  valid state c ->
  exists state', (applyOp op state c).1 = Some state'
                 /\ valid state' (applyOp op state c).2.
Proof.
  intros Hv. destruct op; simpl.
  - unfold mbind, M_bind, bind. pose proof (valid_splitFocused state direction c Hv).
    destruct (splitFocused state direction c) as [s' c']. by eexists.
  - by apply valid_closeFocused.
  - eexists. split; [done|]. by apply valid_focusNext.
  - eexists. split; [done|]. by apply valid_moveFocusToPane.
  - eexists. split; [done|]. exact (valid_addTab state c Hv).
  - by apply valid_closeTab.
  - eexists. split; [done|]. by apply valid_setActiveTab.
  - apply valid_cycleTab; [by left|done].
  - apply valid_cycleTab; [by right|done].
Qed.

Lemma valid_applyOps (ops : list Op) : forall state net c,
  valid state c ->
  exists state' net', (applyOps ops state net c).1 = Some (state', net')
                      /\ valid state' (applyOps ops state net c).2.
Proof.
  induction ops as [|op ops IH]; intros state net c Hv.
  - by exists state, net.
  - simpl. unfold mbind, M_bind, bind.
    destruct (valid_applyOp op state c Hv) as (s' & Hs' & Hv').
    destruct (applyOp op state c) as [r c']. simpl in *. subst r.
    by apply IH.
Qed.

(** C1, at reachable states.  On the initial layout [splitFocused] does
    as claimed: pane 1 becomes the first child of a split of ratio 0.5
    whose second child is the new pane 2, without pty and focused.  After a
    focus move back to pane 1, [splitFocused] does split the focused pane
    1, but the focus goes to pane 2, the last pane in pre-order, not to the
    new pane 3.  In the state so reached pane 2 is focused and
    [splitFocused] does nothing: [splitPane] takes the copy it made of the
    first subtree for a change and never looks at the second one. *)
Theorem splitFocused_defects :
  let P := fun i => PaneNode i None in
  let s0 := mkLayoutState [mkTab 1 (P 1) 1] 1 in
  let s1 := mkLayoutState
              [mkTab 1 (SplitNode horizontal half (P 1) (P 2)) 2] 1 in
  let s := mkLayoutState
             [mkTab 1 (SplitNode horizontal half (P 1) (P 2)) 1] 1 in
  let s' := mkLayoutState
              [mkTab 1 (SplitNode horizontal half
                          (SplitNode vertical half (P 1) (P 3)) (P 2)) 2] 1 in
  initLayout resetIdCounters = (s0, mkCounters 1 1)
  /\ splitFocused s0 horizontal (mkCounters 1 1) = (s1, mkCounters 2 1)
  /\ focusNext s1 focus_left = s
  /\ splitFocused s vertical (mkCounters 2 1) = (s', mkCounters 3 1)
  /\ splitFocused s' vertical (mkCounters 3 1) = (s', mkCounters 3 1).
Proof. repeat split; vm_compute; reflexivity. Qed.

(** C6: whatever operations are applied to the initial layout, none of
    them throws and the layout they give passes [validateLayoutState]: the
    tab list is not empty, the active tab exists, every tab's focused pane
    is in its tree and every tree has a pane.  The pane count does not
    follow the splits: after split, focus left, split, split the third
    split has added no pane, and the tab holds 3 panes where 1 plus the
    net number of splits is 4. *)
Theorem paneCount_netSplits_defect :
  (forall ops, exists s net,
      runFromInit ops = Some (s, net) /\ validateLayoutState s = [])
  /\ exists s net tab,
      runFromInit [OpSplit vertical; OpFocus focus_left;
                   OpSplit horizontal; OpSplit horizontal] = Some (s, net)
      /\ getActiveTab s = Some tab
      /\ paneCount tab = 3
      /\ 1 + netSplits net tab = 4.
Proof.
  split.
  - intros ops. unfold runFromInit, mbind, M_bind, bind.
    pose proof valid_initLayout as Hv.
    destruct (initLayout resetIdCounters) as [s0 c0].
    destruct (valid_applyOps ops s0 ∅ c0 Hv) as (s & net & Hrun & Hvalid).
    exists s, net. split; [done|]. by eapply validateLayoutState_valid.
  - eexists _, _, _. split; [vm_compute; reflexivity|].
    repeat split; vm_compute; reflexivity.
Qed.

End LayoutFacts.

Module WriteFacts.
Import Renderer RendererSpec.

Lemma written_cols r row line d : cols (written r row line d) = cols r.
Proof. reflexivity. Qed.

Lemma written_id (r : Renderer) (row : Z) (line : gmap Z GridCell) :
  grid r !! row = Some line -> written r row line (dirtyCells r) = r.
Proof.
  intros H. destruct r. unfold written, set_dirtyCells, set_grid. simpl in *.
  by rewrite insert_id.
Qed.

Lemma putCell_written r row c cell line d :
  putCell row c cell (written r row line d)
  = Some (written r row (<[c := cell]> line) (d ∪ {[ (row, c) ]})).
Proof.
  unfold putCell, written, set_dirtyCells, set_grid. simpl.
  rewrite lookup_insert_eq. simpl. by rewrite insert_insert_eq.
Qed.

Lemma writeRepeat_full row g sty w n c r :
  cols r <= c -> writeRepeat row g sty w n c r = Some (c, r).
Proof. intros H. destruct n; simpl; [done|]. by rewrite decide_True. Qed.

Lemma placeCells_full ncols col gcs line :
  ncols <= col -> placeCells ncols col gcs line = line.
Proof. intros H. destruct gcs; simpl; [done|]. by rewrite decide_False by lia. Qed.

Lemma touchedCells_full row ncols col gcs :
  ncols <= col -> touchedCells row ncols col gcs = ∅.
Proof. intros H. destruct gcs; simpl; [done|]. by rewrite decide_False by lia. Qed.

Lemma placeCells_app ncols col l1 l2 line :
  placeCells ncols col (l1 ++ l2) line
  = placeCells ncols (col + Z.of_nat (length l1)) l2 (placeCells ncols col l1 line).
Proof.
  revert col line. induction l1 as [|g l1 IH]; intros col line; simpl.
  - by rewrite Z.add_0_r.
  - case_decide.
    + rewrite IH. f_equal. lia.
    + by rewrite placeCells_full by lia.
Qed.

Lemma touchedCells_app row ncols col l1 l2 :
  touchedCells row ncols col (l1 ++ l2)
  = touchedCells row ncols col l1
    ∪ touchedCells row ncols (col + Z.of_nat (length l1)) l2.
Proof.
  revert col. induction l1 as [|g l1 IH]; intros col; simpl.
  - rewrite Z.add_0_r. by rewrite (left_id_L ∅ (∪)).
  - case_decide.
    + rewrite IH. rewrite <- (assoc_L (∪)). do 3 f_equal. lia.
    + rewrite touchedCells_full by lia. by rewrite (left_id_L ∅ (∪)).
Qed.

Lemma writeRepeat_written r row g sty w n : forall c line d,
  let glyphs := concat (replicate n (cellGlyphs g sty w)) in
  exists c',
    writeRepeat row g sty w n c (written r row line d)
    = Some (c', written r row (placeCells (cols r) c glyphs line)
                        (d ∪ touchedCells row (cols r) c glyphs))
    /\ (c' = c + Z.of_nat (length glyphs)
        \/ (cols r <= c' /\ cols r <= c + Z.of_nat (length glyphs))).
Proof.
  induction n as [|n IH]; intros c line d glyphs.
  - exists c. subst glyphs. simpl. rewrite (right_id_L ∅ (∪)).
    split; [done|left; lia].
  - subst glyphs. rewrite replicate_S, concat_cons.
    set (rest := concat (replicate n (cellGlyphs g sty w))) in *.
    simpl writeRepeat. rewrite ?written_cols.
    destruct (decide (cols r <= c)) as [Hfull|Hroom].
    { exists c. rewrite placeCells_full, touchedCells_full by lia.
      rewrite (right_id_L ∅ (∪)). split; [done|right; split; lia]. }
    destruct (decide (w = 2 /\ c + 1 < cols r)) as [[Hw Hc]|Hnarrow].
    + rewrite putCell_written. simpl. rewrite putCell_written. simpl.
      destruct (IH (c + 2) (<[c + 1 := mkGridCell " " sty]>
                              (<[c := mkGridCell g sty]> line))
                   (d ∪ {[ (row, c) ]} ∪ {[ (row, c + 1) ]})) as (c' & Hrun & Hc').
      fold rest in Hrun, Hc'.
      exists c'. unfold cellGlyphs. rewrite decide_True by done.
      simpl. rewrite !decide_True by lia.
      replace (c + 1 + 1) with (c + 2) by lia.
      rewrite Hrun. split.
      * do 3 f_equal. by rewrite <- !(assoc_L (∪)).
      * rewrite ?length_app; simpl length. 
        destruct Hc' as [->|[? ?]]; [left|right]; lia.
    + rewrite putCell_written. simpl.
      unfold cellGlyphs. destruct (decide (w = 2)) as [Hw|Hw].
      * assert (Hlast : cols r <= c + 1) by lia.
        rewrite writeRepeat_full by (rewrite written_cols; lia).
        exists (c + 1). simpl. rewrite decide_True by lia.
        rewrite decide_False by lia. rewrite decide_True by lia.
        rewrite decide_False by lia.
        split; [by rewrite (right_id_L ∅ (∪))|].
        right. rewrite ?length_app; simpl length. lia.
      * destruct (IH (c + 1) (<[c := mkGridCell g sty]> line)
                     (d ∪ {[ (row, c) ]})) as (c' & Hrun & Hc').
        fold rest in Hrun, Hc'.
        exists c'. simpl. rewrite !decide_True by lia.
        rewrite Hrun. split.
        -- do 3 f_equal. by rewrite <- !(assoc_L (∪)).
        -- rewrite ?length_app; simpl length.
           destruct Hc' as [->|[? ?]]; [left|right]; lia.
Qed.

Lemma writeCells_full row cells cur c r :
  cols r <= c -> writeCells row cells cur c r = Some r.
Proof. intros H. destruct cells; simpl; [done|]. by rewrite decide_True. Qed.

Lemma writeCells_written r row cells : forall cur c line d,
  writeCells row cells cur c (written r row line d)
  = Some (written r row (placeCells (cols r) c (expandCells cells cur) line)
                  (d ∪ touchedCells row (cols r) c (expandCells cells cur))).
Proof.
  induction cells as [|cell cells IH]; intros cur c line d.
  - simpl. by rewrite (right_id_L ∅ (∪)).
  - simpl writeCells. rewrite ?written_cols.
    destruct (decide (cols r <= c)) as [Hfull|Hroom].
    { rewrite placeCells_full, touchedCells_full by lia.
      by rewrite (right_id_L ∅ (∪)). }
    simpl expandCells.
    set (sty := match style_id cell with Some s => Some s | None => cur end).
    assert (Hsty : match style_id cell with
                   | Some s => Some s | None => sty end = sty)
      by (unfold sty; by destruct (style_id cell)).
    rewrite Hsty.
    destruct (writeRepeat_written r row (grapheme cell) sty
                (default 1 (width cell)) (Z.to_nat (default 1 (repeat cell)))
                c line d) as (c' & Hrun & Hc').
    rewrite Hrun. simpl. rewrite IH.
    rewrite placeCells_app, touchedCells_app.
    destruct Hc' as [->|[Hc1 Hc2]].
    + by rewrite (assoc_L (∪)).
    + rewrite (placeCells_full _ c') by done.
      rewrite (touchedCells_full _ _ c') by done.
      rewrite (placeCells_full _ (c + _)) by done.
      rewrite (touchedCells_full _ _ (c + _)) by done.
      by rewrite !(right_id_L ∅ (∪)).
Qed.

Lemma placeCells_lookup ncols gcs : forall col line c,
  placeCells ncols col gcs line !! c
  = if decide (col <= c < col + Z.of_nat (length gcs) /\ c < ncols)
    then gcs !! Z.to_nat (c - col) else line !! c.
Proof.
  induction gcs as [|g gcs IH]; intros col line c; simpl.
  - by rewrite decide_False by lia.
  - destruct (decide (col < ncols)) as [Hroom|Hfull].
    + rewrite IH. destruct (decide (c = col)) as [->|Hne].
      * rewrite decide_False by lia. rewrite lookup_insert_eq.
        rewrite decide_True by lia. by rewrite Z.sub_diag.
      * rewrite lookup_insert_ne by done.
        destruct (decide (col + 1 <= c < col + 1 + Z.of_nat (length gcs) /\ c < ncols)).
        -- rewrite decide_True by lia.
           replace (Z.to_nat (c - col)) with (S (Z.to_nat (c - (col + 1)))) by lia.
           done.
        -- by rewrite decide_False by lia.
    + by rewrite decide_False by lia.
Qed.

Lemma touchedCells_elem row ncols gcs : forall col i c,
  (i, c) ∈ touchedCells row ncols col gcs
  <-> i = row /\ col <= c < col + Z.of_nat (length gcs) /\ c < ncols.
Proof.
  induction gcs as [|g gcs IH]; intros col i c; simpl.
  - rewrite elem_of_empty. lia.
  - destruct (decide (col < ncols)).
    + rewrite elem_of_union, elem_of_singleton, IH.
      split.
      * intros [[= -> ->]|(-> & ? & ?)]; lia.
      * intros (-> & ? & ?). destruct (decide (c = col)) as [->|]; [by left|].
        right. lia.
    + rewrite elem_of_empty. lia.
Qed.


(** C5: [write] on a row of the grid lays the cells out left to right
    from [(row, col)]: every cell as [expandCells] has it (a wide cell
    followed by a blank continuation cell of its style, a missing style id
    taken from the last explicit one of the call), cut off at the column
    count; no other row changes and the cells written are marked dirty.
    In particular, on 10 columns, "A" followed by a wide "B" fills
    [col], [col + 1] and, with a blank, [col + 2]; a wide "B" written at
    column 9 fills column 9 and nothing else. *)
Theorem write_spec (r : Renderer) (row col : Z) (cells : list Cell)
        (line : gmap Z GridCell) :
  0 <= row < rows r ->
  grid r !! row = Some line ->
  let gcs := expandCells cells None in
  exists r' line',
    write row col cells r = Some r'
    /\ grid r' = <[row := line']> (grid r)
    /\ (forall c,
          line' !! c
          = if decide (col <= c < col + Z.of_nat (length gcs) /\ c < cols r)
            then gcs !! Z.to_nat (c - col) else line !! c)
    /\ (forall i c,
          (i, c) ∈ dirtyCells r'
          <-> (i, c) ∈ dirtyCells r
              \/ (i = row /\ col <= c < col + Z.of_nat (length gcs)
                  /\ c < cols r))
    /\ (rows r' = rows r /\ cols r' = cols r /\ styles r' = styles r
        /\ cursorState r' = cursorState r
        /\ selectionState r' = selectionState r
        /\ titleText r' = titleText r)
    /\ (forall a b sa sb,
          cells = [mkCell a sa None None; mkCell b sb None (Some 2)] ->
          cols r = 10 -> col + 2 < 10 ->
          let sty := match sb with Some s => Some s | None => sa end in
          line' !! col = Some (mkGridCell a sa)
          /\ line' !! (col + 1) = Some (mkGridCell b sty)
          /\ line' !! (col + 2) = Some (mkGridCell " " sty))
    /\ (forall b sb,
          cells = [mkCell b sb None (Some 2)] ->
          cols r = 10 -> col = 9 ->
          line' !! 9 = Some (mkGridCell b sb)
          /\ forall c, c <> 9 -> line' !! c = line !! c).
Proof.
  intros Hrow Hline gcs.
  exists (written r row (placeCells (cols r) col gcs line)
                  (dirtyCells r ∪ touchedCells row (cols r) col gcs)),
         (placeCells (cols r) col gcs line).
  assert (Hlook := placeCells_lookup (cols r) gcs col line).
  split; [|split; [done|split; [exact Hlook|split; [|split; [done|split]]]]].
  - unfold write. rewrite decide_False by lia.
    rewrite <- (written_id r row line Hline) at 1.
    apply writeCells_written.
  - intros i c. unfold written. simpl.
    rewrite elem_of_union, touchedCells_elem. done.
  - intros a b sa sb -> Hcols Hcol sty.
    assert (Hg : gcs = [mkGridCell a sa; mkGridCell b sty; mkGridCell " " sty]).
    { subst gcs sty. simpl. unfold cellGlyphs. simpl.
      by destruct sb, sa. }
    rewrite !Hlook, Hg. simpl length.
    rewrite !decide_True by lia.
    replace (Z.to_nat (col - col)) with 0%nat by lia.
    replace (Z.to_nat (col + 1 - col)) with 1%nat by lia.
    replace (Z.to_nat (col + 2 - col)) with 2%nat by lia.
    done.
  - intros b sb -> Hcols ->.
    assert (Hg : gcs = [mkGridCell b sb; mkGridCell " " sb]).
    { subst gcs. simpl. unfold cellGlyphs. simpl. by destruct sb. }
    split.
    + rewrite Hlook, Hg. simpl length. by rewrite decide_True by lia.
    + intros c Hc. rewrite Hlook, Hg. simpl length.
      by rewrite decide_False by lia.
Qed.

Lemma write_spec_witness :
  (exists r',
     write 1 3 [mkCell "A" None None None; mkCell "B" None None (Some 2)]
           (newRenderer 3 10) = Some r'
     /\ (grid r' !! 1) ≫= (fun l => l !! 3) = Some (mkGridCell "A" None)
     /\ (grid r' !! 1) ≫= (fun l => l !! 4) = Some (mkGridCell "B" None)
     /\ (grid r' !! 1) ≫= (fun l => l !! 5) = Some (mkGridCell " " None))
  /\ (exists r',
        write 1 9 [mkCell "B" None None (Some 2)] (newRenderer 3 10) = Some r'
        /\ (grid r' !! 1) ≫= (fun l => l !! 9) = Some (mkGridCell "B" None)
        /\ grid r' !! 2 = grid (newRenderer 3 10) !! 2).
Proof.
  assert (Hrow : 0 <= 1 < rows (newRenderer 3 10)) by (simpl; lia).
  assert (Hline : grid (newRenderer 3 10) !! 1 = Some (blankRow 10))
    by (vm_compute; reflexivity).
  split.
  - destruct (write_spec (newRenderer 3 10) 1 3
                [mkCell "A" None None None; mkCell "B" None None (Some 2)]
                (blankRow 10) Hrow Hline)
      as (r' & line' & Hw & Hg & _ & _ & _ & Hab & _).
    exists r'. split; [exact Hw|]. rewrite Hg, lookup_insert_eq. simpl.
    apply (Hab "A" "B" None None eq_refl eq_refl). lia.
  - destruct (write_spec (newRenderer 3 10) 1 9
                [mkCell "B" None None (Some 2)]
                (blankRow 10) Hrow Hline)
      as (r' & line' & Hw & Hg & _ & _ & _ & _ & Hb).
    exists r'. split; [exact Hw|]. rewrite Hg, lookup_insert_eq. simpl.
    split; [apply (Hb "B" None eq_refl eq_refl eq_refl)|].
    by rewrite lookup_insert_ne.
Defined.

End WriteFacts.

(** ** rpc.ts: the incremental decoder *)

Module DecoderFacts.
Import Rpc RpcSpec.

Section Decoder.

Variable unpack : list byte -> option (value * nat).

(** A read takes at least one byte and no more than there is. *)
Hypothesis unpack_bounds : forall bs v n,
  unpack bs = Some (v, n) -> (0 < n <= length bs)%nat.

(** A read that succeeds does not depend on what follows the value. *)
Hypothesis unpack_ext : forall bs more v n,
  unpack bs = Some (v, n) -> unpack (bs ++ more) = Some (v, n).

Lemma unpack_nil : unpack [] = None.
Proof.
  destruct (unpack []) as [[v n]|] eqn:E; [|done].
  apply unpack_bounds in E. simpl in E. lia.
Qed.

Lemma decodeAll_nil fuel : decodeAll unpack fuel [] = ([], []).
Proof. destruct fuel; simpl; [done|]. by rewrite unpack_nil. Qed.

(** Enough fuel is as good as any more. *)
Lemma decodeAll_fuel f1 : forall f2 src,
  (length src < f1)%nat -> (length src < f2)%nat ->
  decodeAll unpack f1 src = decodeAll unpack f2 src.
Proof.
  induction f1 as [|f1 IH]; intros f2 src H1 H2; [lia|].
  destruct f2 as [|f2]; [lia|]. simpl.
  destruct (unpack src) as [[v n]|] eqn:E; [|done].
  apply unpack_bounds in E.
  rewrite (IH f2); [done| |]; rewrite length_drop; lia.
Qed.

Lemma default_last_cons {A} (a b x : A) (l : list A) :
  default a (last (b :: x :: l)) = default b (last (x :: l)).
Proof. rewrite last_cons_cons, last_cons. by destruct (last l). Qed.

Lemma unpackLoop_decodeAll fuel : forall src position,
  (position <= length src)%nat ->
  (length src - position < fuel)%nat ->
  let l := unpackLoop unpack fuel src position in
  l.*1 = (decodeAll unpack fuel (drop position src)).1
  /\ drop (default position (last (l.*2))) src
     = (decodeAll unpack fuel (drop position src)).2.
Proof.
  induction fuel as [|fuel IH]; intros src position Hpos Hfuel; [lia|].
  simpl. destruct (unpack (drop position src)) as [[v n]|] eqn:E; [|done].
  pose proof (unpack_bounds _ _ _ E) as Hn. rewrite length_drop in Hn.
  rewrite drop_drop.
  destruct (decide (position + n < length src)%nat) as [Hlt|Hge].
  - destruct (IH src (position + n)%nat) as [IH1 IH2]; [lia|lia|].
    destruct (decodeAll unpack fuel (drop (position + n) src)) as [msgs rest].
    simpl in *. split; [by f_equal|].
    rewrite <- IH2.
    destruct (unpackLoop unpack fuel src (position + n)) as [|x l]; [done|].
    rewrite fmap_cons. by rewrite default_last_cons.
  - assert (position + n = length src)%nat as Hend by lia.
    rewrite (drop_ge src (position + n)) by lia.
    rewrite decodeAll_nil. simpl. split; [done|]. by rewrite drop_ge by lia.
Qed.

Lemma decodeBuffer_decodeAll (buf : list byte) :
  decodeBuffer unpack buf = decodeAll unpack (S (length buf)) buf.
Proof.
  unfold decodeBuffer, unpackMultiple. cbv zeta.
  destruct (unpackLoop_decodeAll (S (length buf)) buf 0) as [H1 H2];
    [lia|lia|].
  rewrite drop_0 in H1, H2.
  set (l := unpackLoop unpack (S (length buf)) buf 0) in *.
  set (e := default 0%nat (last l.*2)) in *.
  destruct (decodeAll unpack (S (length buf)) buf) as [msgs rest]. simpl in H1, H2.
  destruct (decide (0 < e)%nat) as [He|He]; [by rewrite H1, H2|].
  assert (e = 0%nat) as He0 by lia. rewrite He0, drop_0 in H2.
  by rewrite H1, H2.
Qed.

(** Decoding a buffer and then what it left with more bytes behind gives
    what decoding all the bytes at once gives. *)
Lemma decodeAll_app fuel : forall src more f1 f2,
  (length src < fuel)%nat ->
  (length src + length more < f1)%nat ->
  (length src + length more < f2)%nat ->
  decodeAll unpack f1 (src ++ more)
  = let '(m1, r1) := decodeAll unpack fuel src in
    let '(m2, r2) := decodeAll unpack f2 (r1 ++ more) in
    (m1 ++ m2, r2).
Proof.
  induction fuel as [|fuel IH]; intros src more f1 f2 Hf H1 H2; [lia|].
  simpl. destruct (unpack src) as [[v n]|] eqn:E.
  - pose proof (unpack_bounds _ _ _ E) as Hn.
    destruct f1 as [|f1]; [lia|]. simpl.
    rewrite (unpack_ext _ more _ _ E).
    rewrite drop_app_le by lia.
    rewrite (IH (drop n src) more f1 f2);
      [| rewrite length_drop; lia ..].
    destruct (decodeAll unpack fuel (drop n src)) as [m1 r1].
    by destruct (decodeAll unpack f2 (r1 ++ more)) as [m2 r2].
  - destruct (decodeAll unpack f2 (src ++ more)) as [m2 r2] eqn:E2. simpl.
    rewrite <- E2. apply decodeAll_fuel; rewrite length_app; lia.
Qed.

Lemma decodeBuffer_app (buf more : list byte) :
  decodeBuffer unpack (buf ++ more)
  = let '(m1, r1) := decodeBuffer unpack buf in
    let '(m2, r2) := decodeBuffer unpack (r1 ++ more) in
    (m1 ++ m2, r2).
Proof.
  rewrite !decodeBuffer_decodeAll.
  rewrite (decodeAll_app (S (length buf)) buf more _
             (S (length buf + length more)));
    [| rewrite ?length_app; lia ..].
  destruct (decodeAll unpack (S (length buf)) buf) as [m1 r1] eqn:E1.
  rewrite decodeBuffer_decodeAll.
  assert (length r1 <= length buf)%nat as Hr1.
  { clear -E1 unpack_bounds. revert E1. generalize (S (length buf)) as fuel.
    intros fuel. revert buf m1 r1.
    induction fuel as [|fuel IH]; intros buf m1 r1; simpl.
    - by intros [= <- <-].
    - destruct (unpack buf) as [[v n]|] eqn:E; [|by intros [= <- <-]].
      destruct (decodeAll unpack fuel (drop n buf)) as [m r] eqn:E'.
      intros [= <- <-]. apply IH in E'. rewrite length_drop in E'. lia. }
  rewrite (decodeAll_fuel (S (length buf + length more)) (S (length (r1 ++ more))));
    [done| |]; rewrite length_app; lia.
Qed.

Lemma decodeAll_encodes (bytes : list byte) (msgs : list value) :
  encodes unpack bytes msgs ->
  forall fuel, (length bytes < fuel)%nat -> decodeAll unpack fuel bytes = (msgs, []).
Proof.
  induction 1 as [|bs v rest msgs Hbs Henc IH]; intros fuel Hfuel.
  - apply decodeAll_nil.
  - destruct fuel as [|fuel]; [lia|]. simpl.
    rewrite (unpack_ext _ rest _ _ Hbs).
    rewrite drop_app_length. rewrite IH; [done|].
    apply unpack_bounds in Hbs. rewrite length_app in Hfuel. lia.
Qed.

Lemma truncated_unpack (bs : list byte) :
  truncated unpack bs -> unpack bs = None.
Proof.
  intros (more & v & Hmore & Hfull).
  destruct (unpack bs) as [[v' n']|] eqn:E; [|done].
  pose proof (unpack_bounds _ _ _ E) as Hn.
  rewrite (unpack_ext _ more _ _ E) in Hfull.
  injection Hfull as _ Hlen. rewrite length_app in Hlen.
  destruct more; [done|]. simpl in Hlen. lia.
Qed.

Lemma processData_decodeBuffer (chunk : list byte) (c : RpcClient) :
  processData unpack chunk c
  = dispatch (decodeBuffer unpack (buffer c ++ chunk)).1
             (set_buffer (decodeBuffer unpack (buffer c ++ chunk)).2 c).
Proof.
  unfold processData. by destruct (decodeBuffer unpack (buffer c ++ chunk)).
Qed.

Lemma handleMessage_buffer (msg : value) (c : RpcClient) :
  buffer (handleMessage msg c) = buffer c.
Proof.
  unfold handleMessage.
  repeat (case_match; try done); simpl; unfold deletePending;
    repeat (case_match; try done).
Qed.

Lemma dispatch_buffer (msgs : list value) : forall c,
  buffer (dispatch msgs c) = buffer c.
Proof.
  induction msgs as [|m msgs IH]; intros c; [done|].
  unfold dispatch in *. simpl. by rewrite IH, handleMessage_buffer.
Qed.

Lemma deletePending_set_buffer (msgid : Z) (b : list byte) (c : RpcClient) :
  deletePending msgid (set_buffer b c) = set_buffer b (deletePending msgid c).
Proof.
  unfold deletePending. simpl. by destruct (pendingRequests c !! msgid).
Qed.

Lemma handleMessage_set_buffer (msg : value) (b : list byte) (c : RpcClient) :
  handleMessage msg (set_buffer b c) = set_buffer b (handleMessage msg c).
Proof.
  unfold handleMessage.
  change (pendingRequests (set_buffer b c)) with (pendingRequests c).
  change (notificationHandlers (set_buffer b c)) with (notificationHandlers c).
  repeat (case_match; try reflexivity);
    by rewrite deletePending_set_buffer.
Qed.

Lemma dispatch_set_buffer (msgs : list value) (b : list byte) : forall c,
  dispatch msgs (set_buffer b c) = set_buffer b (dispatch msgs c).
Proof.
  induction msgs as [|m msgs IH]; intros c; [done|].
  unfold dispatch in *. simpl. by rewrite handleMessage_set_buffer, IH.
Qed.

Lemma buffer_set_buffer (b : list byte) (c : RpcClient) :
  buffer (set_buffer b c) = b.
Proof. reflexivity. Qed.

Lemma set_buffer_set_buffer (b1 b2 : list byte) (c : RpcClient) :
  set_buffer b2 (set_buffer b1 c) = set_buffer b2 c.
Proof. reflexivity. Qed.

(** C4: for a decoder that reads one value off the start of its input,
    feeding [processData] a chunk and then another is feeding it the two
    at once, from any buffer; encoded messages split at any point are
    dispatched as when fed whole, one [handleMessage] each, in order, and
    nothing is left in the buffer; a buffer that ends in a truncated
    message has the messages before it dispatched and the truncated bytes
    kept, whatever the decoder threw. *)
Theorem processData_chunks :
  (forall (c : RpcClient) (a b : list byte),
      processData unpack b (processData unpack a c)
      = processData unpack (a ++ b) c)
  /\ (forall (c : RpcClient) (bytes : list byte) (msgs : list value) (k : nat),
        buffer c = [] ->
        encodes unpack bytes msgs ->
        processData unpack (drop k bytes) (processData unpack (take k bytes) c)
        = processData unpack bytes c
        /\ processData unpack bytes c = dispatch msgs c)
  /\ (forall (c : RpcClient) (chunk whole part : list byte) (msgs : list value),
        buffer c ++ chunk = whole ++ part ->
        encodes unpack whole msgs ->
        truncated unpack part ->
        processData unpack chunk c = dispatch msgs (set_buffer part c)
        /\ buffer (processData unpack chunk c) = part).
Proof.
  assert (Hchunks : forall c a b,
      processData unpack b (processData unpack a c)
      = processData unpack (a ++ b) c).
  { intros c a b. rewrite !processData_decodeBuffer.
    rewrite dispatch_buffer, buffer_set_buffer.
    rewrite (assoc_L (++)), (decodeBuffer_app (buffer c ++ a) b).
    destruct (decodeBuffer unpack (buffer c ++ a)) as [m1 r1]. cbn [fst snd].
    destruct (decodeBuffer unpack (r1 ++ b)) as [m2 r2]. cbn [fst snd].
    rewrite <- (dispatch_set_buffer m1 r2), set_buffer_set_buffer.
    unfold dispatch. by rewrite foldl_app. }
  assert (Hwhole : forall (c : RpcClient) whole part msgs,
      encodes unpack whole msgs -> unpack part = None ->
      decodeBuffer unpack (whole ++ part) = (msgs, part)).
  { intros c whole part msgs Henc Hpart.
    rewrite decodeBuffer_decodeAll.
    rewrite (decodeAll_app (S (length whole)) whole part _ (S (length whole + length part)));
      [| rewrite ?length_app; lia ..].
    rewrite (decodeAll_encodes _ _ Henc) by lia.
    rewrite app_nil_l. simpl. by rewrite Hpart, app_nil_r. }
  split; [exact Hchunks|]. split.
  - intros c bytes msgs k Hbuf Henc. rewrite Hchunks, take_drop.
    split; [done|]. rewrite processData_decodeBuffer, Hbuf, app_nil_l.
    rewrite <- (app_nil_r bytes).
    rewrite (Hwhole c bytes [] msgs Henc unpack_nil). cbn [fst snd].
    destruct c; simpl in *. by subst.
  - intros c chunk whole part msgs Heq Henc Htr.
    rewrite processData_decodeBuffer, Heq.
    rewrite (Hwhole c whole part msgs Henc (truncated_unpack _ Htr)).
    cbn [fst snd]. split; [done|]. by rewrite dispatch_buffer.
Qed.

End Decoder.

End DecoderFacts.

(** ** The MessagePack fragment reader is such a decoder *)

Module MsgpackFacts.
Import Rpc RpcSpec Msgpack.

Section OneLevel.

Variable item : list byte -> option (value * nat).

Hypothesis item_bounds : forall bs v n,
  item bs = Some (v, n) -> (0 < n <= length bs)%nat.

Hypothesis item_ext : forall bs more v n,
  item bs = Some (v, n) -> item (bs ++ more) = Some (v, n).

Lemma unpackItems_bounds (count : nat) : forall bs vs m,
  unpackItems item count bs = Some (vs, m) -> (m <= length bs)%nat.
Proof.
  induction count as [|k IH]; intros bs vs m; simpl.
  - intros [= <- <-]. lia.
  - destruct (item bs) as [[v n]|] eqn:E; [|done].
    destruct (unpackItems item k (drop n bs)) as [[vs' m']|] eqn:E'; [|done].
    intros [= <- <-]. apply item_bounds in E. apply IH in E'.
    rewrite length_drop in E'. lia.
Qed.

Lemma unpackItems_ext (count : nat) : forall bs more vs m,
  unpackItems item count bs = Some (vs, m) ->
  unpackItems item count (bs ++ more) = Some (vs, m).
Proof.
  induction count as [|k IH]; intros bs more vs m; simpl; [done|].
  destruct (item bs) as [[v n]|] eqn:E; [|done].
  destruct (unpackItems item k (drop n bs)) as [[vs' m']|] eqn:E'; [|done].
  intros [= <- <-]. rewrite (item_ext _ more _ _ E).
  apply item_bounds in E as Hn.
  rewrite drop_app_le by lia. by rewrite (IH _ more _ _ E').
Qed.

Lemma unpackOne_bounds (bs : list byte) (v : value) (n : nat) :
  unpackOne item bs = Some (v, n) -> (0 < n <= length bs)%nat.
Proof.
  destruct bs as [|t rest]; [done|]. unfold unpackOne. simpl.
  repeat case_decide; try (intros [= <- <-]; lia); try done.
  destruct (unpackItems item _ rest) as [[vs m]|] eqn:E; [|done].
  intros [= <- <-]. apply unpackItems_bounds in E. lia.
Qed.

Lemma unpackOne_ext (bs more : list byte) (v : value) (n : nat) :
  unpackOne item bs = Some (v, n) -> unpackOne item (bs ++ more) = Some (v, n).
Proof.
  destruct bs as [|t rest]; [done|]. unfold unpackOne. simpl.
  destruct (decide (byteZ t <= 127)); [done|].
  destruct (decide (144 <= byteZ t <= 159)).
  { destruct (unpackItems item _ rest) as [[vs m]|] eqn:E; [|done].
    intros [= <- <-]. by rewrite (unpackItems_ext _ _ more _ _ E). }
  destruct (decide (160 <= byteZ t <= 191)); [|done].
  destruct (decide (Z.to_nat (byteZ t - 160) <= length rest)%nat); [|done].
  intros [= <- <-]. rewrite decide_True by (rewrite length_app; lia).
  by rewrite take_app_le by lia.
Qed.

End OneLevel.

Lemma unpackDepth_spec (depth : nat) :
  (forall bs v n, unpackDepth depth bs = Some (v, n) -> (0 < n <= length bs)%nat)
  /\ (forall bs more v n,
        unpackDepth depth bs = Some (v, n) ->
        unpackDepth depth (bs ++ more) = Some (v, n)).
Proof.
  induction depth as [|d [IH1 IH2]]; simpl; [done|]. split.
  - by apply unpackOne_bounds.
  - by apply unpackOne_ext.
Qed.

Lemma msgpack_unpack_bounds (bs : list byte) (v : value) (n : nat) :
  unpack bs = Some (v, n) -> (0 < n <= length bs)%nat.
Proof. apply unpackDepth_spec. Qed.

Lemma msgpack_unpack_ext (bs more : list byte) (v : value) (n : nat) :
  unpack bs = Some (v, n) -> unpack (bs ++ more) = Some (v, n).
Proof. apply unpackDepth_spec. Qed.

(** A response [[1, 1, nil, 42]] to request 1, followed by a notification
    [[2, "hi", nil]], cut after the second byte: the request resolves and
    the handler of "hi" runs, as when the bytes come in one piece. *)
Lemma processData_chunks_witness :
  let bytes := [x94; x01; x01; xc0; x2a; x93; x02; xa2; x68; x69; xc0] in
  let msgs := [VArr [VNum 1; VNum 1; VNull; VNum 42];
               VArr [VNum 2; VStr "hi"; VNull]] in
  let c := on "hi" 7 (request "list_sessions" VNull true (newRpcClient 0)).2 in
  encodes unpack bytes msgs
  /\ processData unpack (drop 2 bytes) (processData unpack (take 2 bytes) c)
     = processData unpack bytes c
  /\ processData unpack bytes c = dispatch msgs c.
Proof.
  intros bytes msgs c.
  assert (Henc : encodes unpack bytes msgs).
  { apply (encodes_cons unpack [x94; x01; x01; xc0; x2a]); [reflexivity|].
    apply (encodes_cons unpack [x93; x02; xa2; x68; x69; xc0] _ []);
      [reflexivity|]. constructor. }
  split; [exact Henc|].
  exact (proj1 (proj2 (DecoderFacts.processData_chunks
                         unpack msgpack_unpack_bounds msgpack_unpack_ext))
               c bytes msgs 2%nat eq_refl Henc).
Defined.

End MsgpackFacts.

(** ** rpc.ts: requests, responses and timeouts *)

Module RequestFacts.
Import Rpc RpcSpec.

(** *** Traces *)

Lemma settlements_app (id : Z) (t1 t2 : list Obs) :
  settlements id (t1 ++ t2) = settlements id t1 ++ settlements id t2.
Proof. apply omap_app. Qed.

Lemma removals_app (id : Z) (t1 t2 : list Obs) :
  removals id (t1 ++ t2) = removals id t1 ++ removals id t2.
Proof. apply omap_app. Qed.

Lemma traceBelow_fresh (id : Z) (tr : list Obs) :
  traceBelow id tr -> settlements id tr = [] /\ removals id tr = [].
Proof.
  induction 1 as [|o tr Ho _ [IH1 IH2]]; [done|].
  change (o :: tr) with ([o] ++ tr).
  rewrite settlements_app, removals_app, IH1, IH2.
  destruct o; try done; unfold settlements, removals; simpl;
    by rewrite decide_False by lia.
Qed.

Lemma traceBelow_mono (b1 b2 : Z) (tr : list Obs) :
  b1 <= b2 -> traceBelow b1 tr -> traceBelow b2 tr.
Proof.
  intros Hle Htr. eapply Forall_impl; [exact Htr|].
  intros o. destruct o; try done; simpl; lia.
Qed.

Lemma traceBelow_snoc (b : Z) (tr : list Obs) (o : Obs) :
  traceBelow b tr ->
  match o with Settled k _ | Deleted k => k < b | _ => True end ->
  traceBelow b (tr ++ [o]).
Proof. intros Htr Ho. apply Forall_app. split; [done|]. by constructor. Qed.

(** *** The pieces of a step, field by field *)

Lemma deletePending_pending (k : Z) (c : RpcClient) :
  pendingRequests (deletePending k c) = delete k (pendingRequests c).
Proof.
  unfold deletePending. destruct (pendingRequests c !! k) eqn:E; [done|].
  by rewrite delete_id.
Qed.

Lemma deletePending_trace (k : Z) (c : RpcClient) :
  trace (deletePending k c)
  = trace c ++ (if pendingRequests c !! k is Some _ then [Deleted k] else []).
Proof.
  unfold deletePending. destruct (pendingRequests c !! k); [done|].
  by rewrite app_nil_r.
Qed.

Lemma deletePending_other (k : Z) (c : RpcClient) :
  msgidCounter (deletePending k c) = msgidCounter c
  /\ timers (deletePending k c) = timers c
  /\ clock (deletePending k c) = clock c
  /\ nextTimer (deletePending k c) = nextTimer c.
Proof. unfold deletePending. by destruct (pendingRequests c !! k). Qed.

(** Timers with distinct places in a queue have distinct handles. *)
Lemma handle_inj (l : list Timer) (t1 t2 : Timer) :
  NoDup (handle <$> l) -> t1 ∈ l -> t2 ∈ l -> handle t1 = handle t2 -> t1 = t2.
Proof.
  induction l as [|x l IH]; intros Hnd H1 H2 Heq.
  - by apply elem_of_nil in H1.
  - rewrite fmap_cons in Hnd. apply NoDup_cons in Hnd as [Hx Hnd].
    apply elem_of_cons in H1 as [->|H1]; apply elem_of_cons in H2 as [->|H2].
    + done.
    + exfalso. apply Hx. rewrite Heq. by apply list_elem_of_fmap_2.
    + exfalso. apply Hx. rewrite <- Heq. by apply list_elem_of_fmap_2.
    + by apply IH.
Qed.

Lemma NoDup_handles_sublist (l1 l2 : list Timer) :
  l1 `sublist_of` l2 -> NoDup (handle <$> l2) -> NoDup (handle <$> l1).
Proof.
  intros Hsub Hnd. eapply sublist_NoDup; [exact Hnd|]. by apply fmap_sublist.
Qed.

(** The timer of a pending request. *)
Lemma invariant_timer_of (inflight : list Timer) (c : RpcClient) (k : Z)
      (p : PendingRequest) :
  invariant inflight c ->
  pendingRequests c !! k = Some p ->
  exists t, t ∈ timers c ++ inflight /\ t_msgid t = k
            /\ p = mkPendingRequest k (handle t).
Proof.
  intros Hinv Hp. destruct (inv_pending _ _ Hinv k p Hp) as (_ & t & Ht & Hk).
  exists t. split; [done|]. split; [done|].
  destruct (inv_timer _ _ Hinv t Ht) as [Hpt _]. rewrite Hk in Hpt. congruence.
Qed.

Lemma invariant_timer_unique (inflight : list Timer) (c : RpcClient)
      (t1 t2 : Timer) :
  invariant inflight c ->
  t1 ∈ timers c ++ inflight -> t2 ∈ timers c ++ inflight ->
  t_msgid t1 = t_msgid t2 -> t1 = t2.
Proof.
  intros Hinv H1 H2 Heq.
  apply (handle_inj (timers c ++ inflight)); [apply Hinv|done|done|].
  destruct (inv_timer _ _ Hinv t1 H1) as [Hp1 _].
  destruct (inv_timer _ _ Hinv t2 H2) as [Hp2 _].
  rewrite Heq in Hp1. congruence.
Qed.


(** *** The invariant holds between events *)

Lemma invariant_init (now : Z) : invariant [] (newRpcClient now).
Proof.
  split; simpl.
  - intros t Ht. by apply elem_of_nil in Ht.
  - intros t Ht. by apply elem_of_nil in Ht.
  - intros k p Hp. by rewrite lookup_empty in Hp.
  - constructor.
  - constructor.
Qed.

Lemma invariant_emit (inflight : list Timer) (o : Obs) (c : RpcClient) :
  invariant inflight c ->
  match o with
  | Settled k _ | Deleted k => k < msgidCounter c
  | _ => True
  end ->
  invariant inflight (emit o c).
Proof.
  intros [I1 I1' I2 I3 I4] Ho. split; simpl; try done.
  by apply traceBelow_snoc.
Qed.

(** Removing a pending entry together with its timer. *)
Lemma invariant_remove (k : Z) (p : PendingRequest) (c : RpcClient) :
  invariant [] c ->
  pendingRequests c !! k = Some p ->
  invariant [] (clearTimeout (timeout p) (deletePending k c)).
Proof.
  intros Hinv Hp.
  destruct (invariant_timer_of _ _ _ _ Hinv Hp) as (t & Ht & Hk & ->).
  pose proof Hinv as [I1 I1' I2 I3 I4]. rewrite app_nil_r in *.
  destruct (deletePending_other k c) as (Ec & Et & Eclk & Ent).
  split; unfold clearTimeout; simpl;
    rewrite ?app_nil_r, ?deletePending_pending, ?deletePending_trace,
            ?Ec, ?Et, ?Eclk, ?Ent, ?Hp.
  - intros t' [Hh Ht']%list_elem_of_filter.
    destruct (I1 t' Ht') as [Hpt Hlt]. split; [|done].
    rewrite lookup_delete_ne; [done|]. intros Heq. apply Hh. f_equal.
    apply (invariant_timer_unique [] c); rewrite ?app_nil_r; try done.
    congruence.
  - intros t' [_ Ht']%list_elem_of_filter. by apply I1'.
  - intros k' p' Hp'. apply lookup_delete_Some in Hp' as [Hne Hp'].
    destruct (I2 k' p' Hp') as (Hlt & t' & Ht' & Hk').
    split; [done|]. exists t'. split; [|done].
    apply list_elem_of_filter. split; [|done].
    intros Heq. apply Hne. rewrite <- Hk, <- Hk'. f_equal.
    by apply (handle_inj (timers c)).
  - eapply NoDup_handles_sublist; [|exact I3]. apply sublist_filter.
  - apply traceBelow_snoc; [done|]. by apply (I2 k _ Hp).
Qed.

(** The state that [request] builds before it sends. *)
Lemma invariant_register (method : string) (c : RpcClient) :
  invariant [] c ->
  invariant []
    (mkRpcClient (msgidCounter c + 1)
       (<[msgidCounter c := mkPendingRequest (msgidCounter c) (nextTimer c)]>
          (pendingRequests c))
       (notificationHandlers c) (buffer c) (clock c) (nextTimer c + 1)
       (timers c ++ [mkTimer (nextTimer c) (clock c + REQUEST_TIMEOUT_MS)
                             (msgidCounter c) method])
       (trace c)).
Proof.
  intros [I1 I1' I2 I3 I4]. rewrite app_nil_r in *.
  assert (Hfresh : pendingRequests c !! msgidCounter c = None).
  { destruct (pendingRequests c !! msgidCounter c) as [p|] eqn:E; [|done].
    apply I2 in E as [E _]. lia. }
  split; simpl; rewrite ?app_nil_r.
  - intros t [Ht|Ht]%elem_of_app.
    + destruct (I1 t Ht) as [Hpt Hlt]. split; [|lia].
      rewrite lookup_insert_ne; [done|]. intros Heq.
      rewrite <- Heq in Hpt. congruence.
    + apply list_elem_of_singleton in Ht as ->. simpl.
      rewrite lookup_insert_eq. split; [done|lia].
  - intros t [Ht|Ht]%elem_of_app; [by apply I1'|].
    apply list_elem_of_singleton in Ht as ->. simpl.
    unfold REQUEST_TIMEOUT_MS. lia.
  - intros k p Hp. apply lookup_insert_Some in Hp as [[<- <-]|[Hne Hp]].
    + split; [lia|]. eexists. split; [apply elem_of_app; right; left|done].
    + destruct (I2 k p Hp) as (Hlt & t & Ht & Hk). split; [lia|].
      exists t. split; [|done]. apply elem_of_app. by left.
  - rewrite fmap_app. apply NoDup_app. split; [done|]. split.
    + intros h Hh [->|Hnil%elem_of_nil]%elem_of_cons; [|done].
      apply list_elem_of_fmap in Hh as (t & Heq & Ht).
      destruct (I1 t Ht) as [_ Hlt]. simpl in Heq. lia.
    + apply NoDup_singleton.
  - eapply traceBelow_mono; [|exact I4]. lia.
Qed.

Lemma invariant_request (method : string) (params : value) (sendOk : bool)
      (c : RpcClient) :
  invariant [] c -> invariant [] (request method params sendOk c).2.
Proof.
  intros Hinv. pose proof (invariant_register method c Hinv) as H1.
  unfold request. destruct sendOk; simpl.
  - by apply invariant_emit.
  - apply invariant_emit; [|simpl; rewrite (proj1 (deletePending_other _ _)); simpl; lia].
    apply (invariant_remove _ (mkPendingRequest (msgidCounter c) (nextTimer c)));
      [done|]. simpl. by rewrite lookup_insert_eq.
Qed.

Lemma invariant_handleMessage (msg : value) (c : RpcClient) :
  invariant [] c -> invariant [] (handleMessage msg c).
Proof.
  intros Hinv. unfold handleMessage.
  repeat (case_match; try done); try (by apply invariant_emit).
  all: match goal with
       | H : pendingRequests _ !! ?k = Some ?p |- _ =>
           destruct (invariant_timer_of _ _ _ _ Hinv H) as (t & _ & _ & ->);
           apply invariant_emit; [by eapply invariant_remove|];
           simpl; unfold clearTimeout; simpl;
           rewrite (proj1 (deletePending_other _ _));
           by apply (inv_pending _ _ Hinv _ _ H)
       end.
Qed.

Lemma invariant_fireTimer (t : Timer) (inflight : list Timer) (c : RpcClient) :
  invariant (t :: inflight) c -> invariant inflight (fireTimer t c).
Proof.
  intros Hinv. pose proof Hinv as [I1 I1' I2 I3 I4].
  assert (Ht : t ∈ timers c ++ t :: inflight)
    by (apply elem_of_app; right; left).
  destruct (I1 t Ht) as [Hpt Hlt].
  assert (Hothers : forall t', t' ∈ timers c ++ inflight ->
                               t_msgid t' <> t_msgid t).
  { intros t' Ht' Heq.
    assert (Ht'' : t' ∈ timers c ++ t :: inflight).
    { apply elem_of_app in Ht' as [?|?]; apply elem_of_app; [by left|].
      right. by right. }
    assert (t' = t) as -> by by apply (invariant_timer_unique (t :: inflight) c).
    rewrite fmap_app, fmap_cons in I3.
    apply NoDup_app in I3 as (_ & Hdisj & Hnd).
    apply NoDup_cons in Hnd as [Hnotin _].
    apply elem_of_app in Ht' as [Hq|Hi].
    - apply (Hdisj (handle t)); [by apply list_elem_of_fmap_2|left].
    - apply Hnotin. by apply list_elem_of_fmap_2. }
  destruct (deletePending_other (t_msgid t) c) as (Ec & Et & Eclk & Ent).
  apply invariant_emit; [|by rewrite Ec; apply (I2 _ _ Hpt)].
  split; rewrite ?deletePending_pending, ?deletePending_trace,
                 ?Ec, ?Et, ?Eclk, ?Ent, ?Hpt.
  - intros t' Ht'. rewrite lookup_delete_ne by (symmetry; by apply Hothers).
    apply I1. apply elem_of_app in Ht' as [?|?]; apply elem_of_app;
      [by left|right; by right].
  - done.
  - intros k p Hp. apply lookup_delete_Some in Hp as [Hne Hp].
    destruct (I2 k p Hp) as (Hk & t' & Ht' & Hk'). split; [done|].
    exists t'. split; [|done].
    apply elem_of_app in Ht' as [?|[->|?]%elem_of_cons]; apply elem_of_app;
      [by left|done|by right].
  - eapply NoDup_handles_sublist; [|exact I3].
    apply sublist_app; [done|]. by apply sublist_cons.
  - apply traceBelow_snoc; [done|]. by apply (I2 _ _ Hpt).
Qed.

Lemma invariant_fireTimers (fired : list Timer) : forall c,
  invariant fired c -> invariant [] (foldl (fun acc t => fireTimer t acc) c fired).
Proof.
  induction fired as [|t fired IH]; intros c Hinv; [done|].
  simpl. apply IH. by apply invariant_fireTimer.
Qed.

Lemma invariant_elapse (dt : N) (c : RpcClient) :
  invariant [] c -> invariant [] (elapse dt c).
Proof.
  intros [I1 I1' I2 I3 I4]. rewrite app_nil_r in *.
  unfold elapse. apply invariant_fireTimers.
  set (now := clock c + Z.of_N dt).
  assert (Hperm : filter (fun t => ~ due t <= now) (timers c)
                  ++ filter (fun t => due t <= now) (timers c)
                  ≡ₚ timers c).
  { rewrite Permutation_app_comm. apply filter_app_complement. }
  split; simpl.
  - intros t Ht. rewrite Hperm in Ht. by apply I1.
  - intros t [Hd _]%list_elem_of_filter. lia.
  - intros k p Hp. destruct (I2 k p Hp) as (Hk & t & Ht & Hkt).
    split; [done|]. exists t. by rewrite Hperm.
  - by rewrite Hperm.
  - done.
Qed.

Lemma invariant_step (e : Event) (c : RpcClient) :
  invariant [] c -> invariant [] (step e c).
Proof.
  intros Hinv. destruct e; simpl.
  - by apply invariant_request.
  - unfold notify. destruct sendOk; by apply invariant_emit.
  - by destruct Hinv.
  - by apply invariant_handleMessage.
  - by apply invariant_elapse.
Qed.

Lemma invariant_run (es : list Event) : forall c,
  invariant [] c -> invariant [] (run es c).
Proof.
  induction es as [|e es IH]; intros c Hinv; [done|].
  simpl. apply IH. by apply invariant_step.
Qed.


(** *** Events that leave a request alone *)

Lemma history_emit (id : Z) (o : Obs) (c : RpcClient) :
  match o with
  | Settled k _ | Deleted k => k <> id
  | _ => True
  end ->
  history id (emit o c) = history id c.
Proof.
  intros Ho. unfold history. simpl.
  rewrite settlements_app, removals_app.
  destruct o; unfold settlements, removals; simpl;
    rewrite ?decide_False by done; by rewrite ?app_nil_r.
Qed.

Lemma history_deletePending (id k : Z) (c : RpcClient) :
  k <> id -> history id (deletePending k c) = history id c.
Proof.
  intros Hne. unfold deletePending.
  destruct (pendingRequests c !! k) eqn:E; [|done].
  rewrite history_emit by done. unfold history. simpl.
  by rewrite lookup_delete_ne.
Qed.

Lemma history_clearTimeout (id h : Z) (c : RpcClient) :
  history id (clearTimeout h c) = history id c.
Proof. reflexivity. Qed.

Lemma history_fireTimer (id : Z) (t : Timer) (c : RpcClient) :
  t_msgid t <> id -> history id (fireTimer t c) = history id c.
Proof.
  intros Hne. unfold fireTimer.
  by rewrite history_emit, history_deletePending.
Qed.

Lemma history_fireTimers (id : Z) (fired : list Timer) : forall c,
  (forall t, t ∈ fired -> t_msgid t <> id) ->
  history id (foldl (fun acc t => fireTimer t acc) c fired) = history id c.
Proof.
  induction fired as [|t fired IH]; intros c Hne; [done|].
  simpl. rewrite IH by (intros t' Ht'; apply Hne; by right).
  apply history_fireTimer. apply Hne. left.
Qed.

Lemma timers_fireTimers (fired : list Timer) : forall c,
  timers (foldl (fun acc t => fireTimer t acc) c fired) = timers c
  /\ clock (foldl (fun acc t => fireTimer t acc) c fired) = clock c
  /\ msgidCounter (foldl (fun acc t => fireTimer t acc) c fired)
     = msgidCounter c.
Proof.
  induction fired as [|t fired IH]; intros c; [done|].
  simpl. destruct (IH (fireTimer t c)) as (-> & -> & ->).
  unfold fireTimer. simpl.
  by destruct (deletePending_other (t_msgid t) c) as (-> & -> & -> & _).
Qed.

Lemma history_request (id : Z) (method : string) (params : value)
      (sendOk : bool) (c : RpcClient) :
  msgidCounter c <> id ->
  history id (request method params sendOk c).2 = history id c.
Proof.
  intros Hne. unfold request. destruct sendOk; simpl.
  - rewrite history_emit by done. unfold history. simpl.
    by rewrite lookup_insert_ne.
  - rewrite history_emit, history_clearTimeout, history_deletePending by done.
    unfold history. simpl. by rewrite lookup_insert_ne.
Qed.

(** A message that is not a Response to [id], or any message once [id] is
    not pending, leaves the request alone. *)
Lemma history_handleMessage (id : Z) (msg : value) (c : RpcClient) :
  invariant [] c ->
  isResponseFor id msg = false \/ pendingRequests c !! id = None ->
  history id (handleMessage msg c) = history id c.
Proof.
  intros Hinv Hcase. unfold handleMessage.
  repeat (case_match; try done); try (by apply history_emit).
  all: match goal with
       | H : pendingRequests _ !! ?k = Some ?p |- _ =>
           assert (k <> id) as Hne
             by (intros ->; destruct Hcase as [Hr|Hn];
                 [simpl in Hr; by rewrite bool_decide_eq_true_2 in Hr
                 |congruence]);
           destruct (invariant_timer_of _ _ _ _ Hinv H) as (t & _ & _ & ->);
           simpl;
           by rewrite history_emit, history_clearTimeout,
                      history_deletePending
       end.
Qed.

(** Time passing before the timer of [id] is due, if it has one, leaves
    the request alone. *)
Lemma history_elapse (id : Z) (dt : N) (c : RpcClient) :
  (forall t, t ∈ timers c -> t_msgid t = id -> clock c + Z.of_N dt < due t) ->
  history id (elapse dt c) = history id c.
Proof.
  intros Hdue. unfold elapse. rewrite history_fireTimers; [done|].
  intros t [Hd Ht]%list_elem_of_filter Hid.
  specialize (Hdue t Ht Hid). lia.
Qed.

Lemma step_msgidCounter (e : Event) (c : RpcClient) :
  msgidCounter c <= msgidCounter (step e c).
Proof.
  destruct e; simpl.
  - unfold request. destruct sendOk; simpl;
      rewrite ?(proj1 (deletePending_other _ _)); simpl; lia.
  - unfold notify. by destruct sendOk.
  - done.
  - unfold handleMessage. repeat (case_match; try done); simpl;
      rewrite ?(proj1 (deletePending_other _ _)); lia.
  - unfold elapse. rewrite (proj2 (proj2 (timers_fireTimers _ _))). done.
Qed.


(** Once a request is out of the pending table, nothing that happens
    touches it again. *)
Lemma history_stale_step (id : Z) (e : Event) (c : RpcClient) :
  invariant [] c -> id < msgidCounter c ->
  pendingRequests c !! id = None ->
  history id (step e c) = history id c.
Proof.
  intros Hinv Hlt Hnone. destruct e; simpl.
  - apply history_request. lia.
  - unfold notify. destruct sendOk; by apply history_emit.
  - done.
  - apply history_handleMessage; [done|by right].
  - apply history_elapse. intros t Ht Hid.
    destruct (inv_timer _ _ Hinv t) as [Hp _];
      [by rewrite app_nil_r|]. congruence.
Qed.



(** *** A pending request before its deadline *)

Lemma elapsed_cons (e : Event) (es : list Event) :
  elapsed (e :: es) = elapsed [e] + elapsed es.
Proof. destruct e; simpl; lia. Qed.

Lemma elapsed_app (es1 es2 : list Event) :
  elapsed (es1 ++ es2) = elapsed es1 + elapsed es2.
Proof.
  induction es1 as [|e es1 IH]; [done|].
  rewrite <- app_comm_cons, (elapsed_cons e (es1 ++ es2)), IH.
  rewrite (elapsed_cons e es1). lia.
Qed.






(** *** The two ends of a request *)

Lemma history_response (id : Z) (error result : value) (p : PendingRequest)
      (c : RpcClient) :
  invariant [] c ->
  pendingRequests c !! id = Some p ->
  history id (handleMessage (VArr [VNum 1; VNum id; error; result]) c)
  = (None,
     settlements id (trace c)
     ++ [if isError error then RejectRpcError error else Resolve result],
     removals id (trace c) ++ [id]).
Proof.
  intros Hinv Hp.
  destruct (invariant_timer_of _ _ _ _ Hinv Hp) as (t & _ & _ & ->).
  unfold handleMessage. rewrite Hp. unfold history.
  destruct (isError error); simpl;
    rewrite deletePending_pending, deletePending_trace, Hp, lookup_delete_eq;
    rewrite !settlements_app, !removals_app;
    unfold settlements, removals; simpl; rewrite !decide_True by done;
    by rewrite !app_nil_r.
Qed.

Lemma NoDup_timers (c : RpcClient) : invariant [] c -> NoDup (timers c).
Proof.
  intros Hinv. pose proof (inv_handles _ _ Hinv) as Hnd.
  rewrite app_nil_r in Hnd. by apply NoDup_fmap_1 in Hnd.
Qed.

Lemma history_timeout (t : Timer) (dt : N) (c : RpcClient) :
  invariant [] c ->
  t ∈ timers c ->
  due t <= clock c + Z.of_N dt ->
  history (t_msgid t) (elapse dt c)
  = (None,
     settlements (t_msgid t) (trace c)
     ++ [RejectTimeout (t_method t) (t_msgid t)],
     removals (t_msgid t) (trace c) ++ [t_msgid t]).
Proof.
  intros Hinv Ht Hdue.
  destruct (inv_timer _ _ Hinv t) as [Hp _]; [by rewrite app_nil_r|].
  unfold elapse. set (now := clock c + Z.of_N dt).
  set (c1 := mkRpcClient _ _ _ _ _ _ _ _).
  assert (Hfired : t ∈ filter (fun t => due t <= now) (timers c))
    by (apply list_elem_of_filter; split; [unfold now; lia|done]).
  assert (Hnd : NoDup (filter (fun t => due t <= now) (timers c)))
    by (apply NoDup_filter; by apply NoDup_timers).
  apply list_elem_of_split in Hfired as (l1 & l2 & Hsplit).
  rewrite Hsplit in Hnd |- *.
  apply NoDup_app in Hnd as (_ & Hl1 & Hnd2).
  apply NoDup_cons in Hnd2 as [Hl2 _].
  assert (Hin : forall t', t' ∈ l1 ++ t :: l2 -> t' ∈ timers c).
  { intros t' Ht'. rewrite <- Hsplit in Ht'.
    by apply list_elem_of_filter in Ht' as [_ ?]. }
  assert (Hother : forall t', t' ∈ timers c -> t' <> t ->
                              t_msgid t' <> t_msgid t).
  { intros t' Ht' Hne Heq. apply Hne.
    apply (invariant_timer_unique [] c); rewrite ?app_nil_r; done. }
  rewrite foldl_app. simpl.
  rewrite history_fireTimers.
  2:{ intros t' Ht'. apply Hother.
      - apply Hin. apply elem_of_app. right. by right.
      - intros ->. done. }
  set (c2 := foldl _ c1 l1).
  assert (Hc2 : history (t_msgid t) c2 = history (t_msgid t) c).
  { unfold c2. rewrite history_fireTimers; [done|].
    intros t' Ht'. apply Hother.
    - apply Hin. apply elem_of_app. by left.
    - intros ->. by apply (Hl1 t); [|left]. }
  unfold history in Hc2. injection Hc2 as Hp2 Hs2 Hr2. rewrite Hp in Hp2.
  unfold fireTimer, history. simpl.
  rewrite deletePending_pending, deletePending_trace, Hp2, lookup_delete_eq.
  rewrite !settlements_app, !removals_app, Hs2, Hr2.
  unfold settlements, removals. simpl. rewrite !decide_True by done.
  by rewrite !app_nil_r.
Qed.





(** What [request] leaves behind when the send goes through. *)
Lemma request_sent (method : string) (params : value) (c : RpcClient) :
  invariant [] c ->
  let id := msgidCounter c in
  let t := mkTimer (nextTimer c) (clock c + REQUEST_TIMEOUT_MS) id method in
  let c1 := (request method params true c).2 in
  (request method params true c).1 = id
  /\ invariant [] c1
  /\ t ∈ timers c1
  /\ clock c1 = clock c
  /\ msgidCounter c1 = id + 1
  /\ history id c1 = (Some (mkPendingRequest id (nextTimer c)), [], []).
Proof.
  intros Hinv id t c1.
  split; [done|]. split; [by apply invariant_request|].
  split; [apply elem_of_app; right; left|].
  split; [done|]. split; [done|].
  unfold history, c1, request. simpl. rewrite lookup_insert_eq.
  rewrite settlements_app, removals_app.
  destruct (traceBelow_fresh id (trace c) (inv_trace _ _ Hinv)) as [-> ->].
  done.
Qed.

(** What [request] leaves behind when the send throws. *)
Lemma request_not_sent (method : string) (params : value) (c : RpcClient) :
  invariant [] c ->
  let id := msgidCounter c in
  let c1 := (request method params false c).2 in
  (request method params false c).1 = id
  /\ invariant [] c1
  /\ msgidCounter c1 = id + 1
  /\ history id c1 = (None, [RejectSendFailed], [id]).
Proof.
  intros Hinv id c1.
  split; [done|]. split; [by apply invariant_request|].
  unfold c1, request. simpl.
  split; [by rewrite (proj1 (deletePending_other _ _))|].
  unfold history. simpl.
  rewrite deletePending_pending, deletePending_trace. simpl.
  rewrite lookup_insert_eq, lookup_delete_eq.
  rewrite !settlements_app, !removals_app.
  destruct (traceBelow_fresh id (trace c) (inv_trace _ _ Hinv)) as [-> ->].
  unfold settlements, removals. simpl. by rewrite !decide_True by done.
Qed.




End RequestFacts.

(** ** buffer.ts *)

Module BufferFacts.
Import Buffer.

Lemma pointInRect_true (px py : Z) (rect : Rect) :
  pointInRect px py rect = true <->
  rect_x rect <= px < rect_x rect + rect_width rect
  /\ rect_y rect <= py < rect_y rect + rect_height rect.
Proof.
  unfold pointInRect. rewrite !andb_true_iff, !bool_decide_eq_true. lia.
Qed.

Lemma pointInRect_false (px py : Z) (rect : Rect) :
  pointInRect px py rect = false <->
  ~ (rect_x rect <= px < rect_x rect + rect_width rect
     /\ rect_y rect <= py < rect_y rect + rect_height rect).
Proof.
  rewrite <- pointInRect_true. destruct (pointInRect px py rect); naive_solver.
Qed.

Lemma elem_of_range (i lo hi : Z) : i ∈ range lo hi <-> lo <= i < hi.
Proof. unfold range. rewrite elem_of_seqZ. lia. Qed.

(** X1 (rectIntersection).  The intersection of two rectangles holds
    exactly the points that lie in both; the result is [null] exactly when
    no point lies in both; and the order of the arguments does not
    matter. *)
Theorem rectIntersection_points (a b : Rect) :
  (forall r, rectIntersection a b = Some r ->
     forall px py,
       pointInRect px py r = pointInRect px py a && pointInRect px py b)
  /\ (rectIntersection a b = None <->
      forall px py, pointInRect px py a && pointInRect px py b = false)
  /\ rectIntersection a b = rectIntersection b a.
Proof.
  split; [|split].
  - intros r. unfold rectIntersection. case_decide as Hd; [done|].
    intros [= <-] px py.
    destruct (pointInRect px py a) eqn:Ha; destruct (pointInRect px py b) eqn:Hb;
      simpl;
      rewrite ?pointInRect_true, ?pointInRect_false in *; simpl in *; lia.
  - unfold rectIntersection. case_decide as Hd; split; try done.
    + intros _ px py.
      destruct (pointInRect px py a) eqn:Ha; [|done].
      simpl. rewrite pointInRect_true in Ha. rewrite pointInRect_false. lia.
    + intros Hno.
      specialize (Hno (Z.max (rect_x a) (rect_x b))
                      (Z.max (rect_y a) (rect_y b))).
      apply andb_false_iff in Hno.
      rewrite !pointInRect_false in Hno. lia.
  - unfold rectIntersection.
    rewrite (Z.max_comm (rect_x b)), (Z.max_comm (rect_y b)),
      (Z.min_comm (rect_x b + _)), (Z.min_comm (rect_y b + _)).
    done.
Qed.

(** X2 (paintRect).  [paintRect] sets the cells of the rectangle and no
    others, each one once, to a blank on the background colour. *)
Theorem paintRect_cells (rect : Rect) (background : RGBA) :
  (forall c, c ∈ paintRect rect background ->
     c = mkSetCell (sc_x c) (sc_y c) " " background background 0)
  /\ (forall px py,
        mkSetCell px py " " background background 0
          ∈ paintRect rect background
        <-> pointInRect px py rect = true)
  /\ NoDup (paintRect rect background).
Proof.
  unfold paintRect. split; [|split].
  - intros c Hc.
    apply list_elem_of_bind in Hc as (row & Hc & _).
    apply list_elem_of_bind in Hc as (col & Hc & _).
    apply list_elem_of_singleton in Hc. by subst.
  - intros px py. rewrite pointInRect_true. split.
    + intros Hc.
      apply list_elem_of_bind in Hc as (row & Hc & Hrow).
      apply list_elem_of_bind in Hc as (col & Hc & Hcol).
      apply list_elem_of_singleton in Hc. injection Hc as -> ->.
      apply elem_of_range in Hrow, Hcol. lia.
    + intros [Hx Hy].
      apply list_elem_of_bind. exists py. split; [|by apply elem_of_range].
      apply list_elem_of_bind. exists px. split; [|by apply elem_of_range].
      by apply list_elem_of_singleton.
  - apply NoDup_bind.
    + intros row row' c _ _ Hc Hc'.
      apply list_elem_of_bind in Hc as (col & Hc & _).
      apply list_elem_of_bind in Hc' as (col' & Hc' & _).
      apply list_elem_of_singleton in Hc, Hc'. congruence.
    + intros row _. apply NoDup_bind.
      * intros col col' c _ _ Hc Hc'.
        apply list_elem_of_singleton in Hc, Hc'. congruence.
      * intros col _. apply NoDup_singleton.
      * apply NoDup_seqZ.
    + apply NoDup_seqZ.
Qed.

(** The cells on the edge of a rectangle: those of the rectangle that are
    not in its inner rectangle. *)
Lemma on_edge (px py : Z) (rect : Rect) :
  (pointInRect px py rect = true
   /\ forall inner, getInnerRect rect = Some inner ->
        pointInRect px py inner = false)
  <-> (rect_x rect <= px < rect_x rect + rect_width rect
       /\ rect_y rect <= py < rect_y rect + rect_height rect)
      /\ (px = rect_x rect \/ px = rect_x rect + rect_width rect - 1
          \/ py = rect_y rect \/ py = rect_y rect + rect_height rect - 1).
Proof.
  rewrite pointInRect_true. unfold getInnerRect.
  case_decide as Hd; split.
  - intros [Hin _]. split; [done|]. lia.
  - intros [Hin _]. split; [done|]. by intros inner.
  - intros [Hin Hinner]. split; [done|].
    specialize (Hinner _ eq_refl). rewrite pointInRect_false in Hinner.
    simpl in Hinner. lia.
  - intros [Hin Hedge]. split; [done|]. intros inner [= <-].
    rewrite pointInRect_false. simpl. lia.
Qed.

(** X3 (drawBorder, getInnerRect).  For a rectangle of at least one
    column and one row, [drawBorder] sets only cells on the edge of the
    rectangle: cells of the rectangle that are outside its inner
    rectangle.  When the rectangle starts at non-negative coordinates it
    sets all of them. *)
Theorem drawBorder_edge (rect : Rect) (foreground background : RGBA)
        (focused : bool) :
  1 <= rect_width rect -> 1 <= rect_height rect ->
  (forall c, c ∈ drawBorder rect foreground background focused ->
     pointInRect (sc_x c) (sc_y c) rect = true
     /\ forall inner, getInnerRect rect = Some inner ->
          pointInRect (sc_x c) (sc_y c) inner = false)
  /\ (0 <= rect_x rect -> 0 <= rect_y rect ->
      forall px py,
        pointInRect px py rect = true ->
        (forall inner, getInnerRect rect = Some inner ->
           pointInRect px py inner = false) ->
        exists c, c ∈ drawBorder rect foreground background focused
                  /\ sc_x c = px /\ sc_y c = py).
Proof.
  intros Hw Hh. split.
  - intros c Hc. apply on_edge. unfold drawBorder in Hc.
    repeat (apply elem_of_app in Hc as [Hc|Hc]);
      repeat case_decide;
      try (apply list_elem_of_bind in Hc as (i & Hc & Hi);
           apply elem_of_range in Hi;
           apply elem_of_app in Hc as [Hc|Hc]; repeat case_decide);
      try (by apply elem_of_nil in Hc);
      apply list_elem_of_singleton in Hc; subst c; simpl; lia.
  - intros Hx Hy px py Hin Hinner.
    pose proof (proj1 (on_edge px py rect) (conj Hin Hinner)) as [Hpt Hedge].
    unfold drawBorder.
    set (cell := fun cx cy ch =>
           mkSetCell cx cy ch foreground background (if focused then 0 else 2)).
    destruct (decide (px = rect_x rect)) as [Hl|Hl];
      [|destruct (decide (px = rect_x rect + rect_width rect - 1)) as [Hr|Hr]].
    + (* left column *)
      destruct (decide (py = rect_y rect)) as [Ht|Ht];
        [|destruct (decide (py = rect_y rect + rect_height rect - 1)) as [Hb|Hb]].
      * exists (cell px py "┌"). split; [|done]. subst px py.
        rewrite decide_True by lia. apply elem_of_app. left. left.
      * exists (cell px py "└"). split; [|done]. subst px py.
        apply elem_of_app. right. apply elem_of_app. right.
        rewrite (decide_True (P := 0 <= rect_x rect ∧ _)) by lia.
        apply elem_of_app. left. left.
      * exists (cell px py "│"). split; [|done]. subst px.
        do 5 (apply elem_of_app; right).
        apply list_elem_of_bind. exists py. split; [|apply elem_of_range; lia].
        rewrite decide_True by lia. apply elem_of_app. left. left.
    + (* right column *)
      destruct (decide (py = rect_y rect)) as [Ht|Ht];
        [|destruct (decide (py = rect_y rect + rect_height rect - 1)) as [Hb|Hb]].
      * exists (cell px py "┐"). split; [|done]. subst px py.
        apply elem_of_app. right.
        rewrite (decide_True (P := 0 <= _ + _ - 1 ∧ _)) by lia.
        apply elem_of_app. left. left.
      * exists (cell px py "┘"). split; [|done]. subst px py.
        do 3 (apply elem_of_app; right).
        rewrite (decide_True (P := 0 <= _ + _ - 1 ∧ 0 <= _ + _ - 1)) by lia.
        apply elem_of_app. left. left.
      * exists (cell px py "│"). split; [|done]. subst px.
        do 5 (apply elem_of_app; right).
        apply list_elem_of_bind. exists py. split; [|apply elem_of_range; lia].
        rewrite (decide_True (P := 0 <= _ + _ - 1)) by lia.
        apply elem_of_app. right. left.
    + (* top or bottom row, between the corners *)
      exists (cell px py "─"). split; [|done].
      do 4 (apply elem_of_app; right). apply elem_of_app. left.
      apply list_elem_of_bind. exists px. split; [|apply elem_of_range; lia].
      destruct (decide (py = rect_y rect)) as [Ht|Ht].
      * subst py. rewrite decide_True by lia. apply elem_of_app. left. left.
      * assert (py = rect_y rect + rect_height rect - 1) as -> by lia.
        rewrite (decide_True (P := 0 <= _ + _ - 1)) by lia.
        apply elem_of_app. right. left.
Qed.

Lemma drawBorder_edge_witness :
  let rect := mkRect 0 0 4 3 in
  let fg := fromInts 180 180 180 in
  let bg := fromInts 0 0 0 in
  (forall c, c ∈ drawBorder rect fg bg true ->
     pointInRect (sc_x c) (sc_y c) rect = true
     /\ forall inner, getInnerRect rect = Some inner ->
          pointInRect (sc_x c) (sc_y c) inner = false)
  /\ (0 <= rect_x rect -> 0 <= rect_y rect ->
      forall px py,
        pointInRect px py rect = true ->
        (forall inner, getInnerRect rect = Some inner ->
           pointInRect px py inner = false) ->
        exists c, c ∈ drawBorder rect fg bg true
                  /\ sc_x c = px /\ sc_y c = py).
Proof.
  intros rect fg bg.
  apply (drawBorder_edge rect fg bg true); simpl; lia.
Defined.

End BufferFacts.

(** ** layout.ts: pane rectangles and dividers *)

Module PaneRectFacts.
Import Buffer BufferSpec Layout LayoutInv App.

Lemma splitAt_half (origin extent : Z) :
  splitAt origin extent half = origin + extent / 2.
Proof.
  unfold splitAt, half, Qfloor. simpl.
  rewrite !Z.mul_1_r. rewrite Z.div_add_l by lia. done.
Qed.

Ltac rect_lia :=
  rewrite ?BufferFacts.pointInRect_true, ?BufferFacts.pointInRect_false in *;
  simpl in *; Z.to_euclidean_division_equations; lia.

Lemma inside_refl (r : Rect) : inside r r.
Proof. by intros px py. Qed.

Lemma inside_trans (a b c : Rect) : inside a b -> inside b c -> inside a c.
Proof. intros Hab Hbc px py H. by apply Hbc, Hab. Qed.

Lemma apart_inside (a b a' b' : Rect) :
  apart a b -> inside a' a -> inside b' b -> apart a' b'.
Proof.
  intros Hab Ha Hb px py Hin.
  destruct (pointInRect px py b') eqn:Hb'; [|done].
  apply Hb in Hb'. apply Ha in Hin. apply Hab in Hin. congruence.
Qed.

Lemma apart_sym (a b : Rect) : apart a b -> apart b a.
Proof.
  intros Hab px py Hin.
  destruct (pointInRect px py a) eqn:Ha; [|done].
  apply Hab in Ha. congruence.
Qed.

Lemma calculatePaneRectInTree_is_Some (node : LayoutNode) (p : PaneId) :
  forall bounds,
    is_Some (calculatePaneRectInTree node p bounds) <-> p ∈ getAllPaneIds node.
Proof.
  induction node as [i pty|d r f IHf s IHs]; intros bounds; simpl.
  - rewrite list_elem_of_singleton. case_decide as Hd; split; intros Hp;
      try done; try (by eexists); by destruct Hp.
  - rewrite elem_of_app.
    destruct d; simpl;
      match goal with
      | |- context [calculatePaneRectInTree f p ?b] =>
          specialize (IHf b);
          destruct (calculatePaneRectInTree f p b) eqn:Hf
      end;
      try (split; [intros _; left; apply IHf; by eexists | by eexists]);
      rewrite IHs; split; try tauto;
      (intros [H|H]; [|done]); apply IHf in H; by destruct H.
Qed.

Lemma calculatePaneRectInTree_inside (node : LayoutNode) (p : PaneId) :
  evenSplits node ->
  forall bounds r,
    calculatePaneRectInTree node p bounds = Some r -> inside r bounds.
Proof.
  induction node as [i pty|d r f IHf s IHs]; intros Heven bounds rect; simpl.
  - case_decide; [|done]. intros [= <-]. apply inside_refl.
  - destruct Heven as (-> & Hf & Hs).
    rewrite !splitAt_half.
    destruct d; simpl;
      match goal with
      | |- context [calculatePaneRectInTree f p ?b] =>
          specialize (IHf Hf b);
          destruct (calculatePaneRectInTree f p b) eqn:Hcf
      end;
      [intros [= <-]; eapply inside_trans; [by apply IHf|]
      |intros Hcs; eapply inside_trans; [by eapply IHs|]
      |intros [= <-]; eapply inside_trans; [by apply IHf|]
      |intros Hcs; eapply inside_trans; [by eapply IHs|]];
      intros px py; rect_lia.
Qed.

Lemma calculatePaneRectInTree_apart (node : LayoutNode) (p q : PaneId) :
  evenSplits node -> p <> q ->
  forall bounds rp rq,
    calculatePaneRectInTree node p bounds = Some rp ->
    calculatePaneRectInTree node q bounds = Some rq ->
    apart rp rq.
Proof.
  intros Heven Hpq.
  induction node as [i pty|d r f IHf s IHs]; intros bounds rp rq; simpl.
  - repeat case_decide; try done. congruence.
  - destruct Heven as (-> & Hf & Hs).
    rewrite !splitAt_half.
    destruct d; simpl;
      match goal with
      | |- context [calculatePaneRectInTree f p ?b] =>
          destruct (calculatePaneRectInTree f p b) eqn:Hfp;
          destruct (calculatePaneRectInTree f q b) eqn:Hfq
      end;
      intros Hp Hq; simplify_eq;
      try (by eapply IHf); try (by eapply IHs).
    + eapply apart_inside;
        [|eapply calculatePaneRectInTree_inside; [|exact Hfp]; done
         |eapply calculatePaneRectInTree_inside; [|exact Hq]; done].
      intros px py. rect_lia.
    + eapply apart_inside;
        [|eapply calculatePaneRectInTree_inside; [|exact Hp]; done
         |eapply calculatePaneRectInTree_inside; [|exact Hfq]; done].
      intros px py. rect_lia.
    + eapply apart_inside;
        [|eapply calculatePaneRectInTree_inside; [|exact Hfp]; done
         |eapply calculatePaneRectInTree_inside; [|exact Hq]; done].
      intros px py. rect_lia.
    + eapply apart_inside;
        [|eapply calculatePaneRectInTree_inside; [|exact Hp]; done
         |eapply calculatePaneRectInTree_inside; [|exact Hfq]; done].
      intros px py. rect_lia.
Qed.

(** X4 (getPaneRect, calculatePaneRectInTree).  In a layout whose splits
    are even, [getPaneRect] gives a rectangle for exactly the panes of the
    active tab, every such rectangle lies inside the container, and the
    rectangles of two different panes have no cell in common. *)
Theorem getPaneRect_tiles (state : LayoutState) (tab : Tab)
        (containerRect : Rect) :
  getActiveTab state = Some tab ->
  evenSplits (root tab) ->
  (forall p, is_Some (getPaneRect state p containerRect)
             <-> p ∈ getAllPaneIds (root tab))
  /\ (forall p r, getPaneRect state p containerRect = Some r ->
                  inside r containerRect)
  /\ (forall p q rp rq,
        p <> q ->
        getPaneRect state p containerRect = Some rp ->
        getPaneRect state q containerRect = Some rq ->
        apart rp rq).
Proof.
  intros Htab Heven. unfold getPaneRect. rewrite Htab.
  split; [|split].
  - intros p. destruct (hasPane (root tab) p) eqn:Hhas.
    + apply calculatePaneRectInTree_is_Some.
    + split; [by intros [? ?]|].
      intros Hp. apply LayoutFacts.hasPane_elem in Hp. congruence.
  - intros p r. destruct (hasPane (root tab) p); [|done].
    by apply calculatePaneRectInTree_inside.
  - intros p q rp rq Hpq.
    destruct (hasPane (root tab) p); [|done].
    destruct (hasPane (root tab) q); [|done].
    by apply calculatePaneRectInTree_apart.
Qed.

Lemma getPaneRect_tiles_witness :
  let tree := SplitNode horizontal half (PaneNode 1 None)
                (SplitNode vertical half (PaneNode 2 None) (PaneNode 3 None)) in
  let tab := mkTab 1 tree 1 in
  let state := mkLayoutState [tab] 1 in
  let containerRect := mkRect 0 0 80 24 in
  (forall p, is_Some (getPaneRect state p containerRect)
             <-> p ∈ getAllPaneIds (root tab))
  /\ (forall p r, getPaneRect state p containerRect = Some r ->
                  inside r containerRect)
  /\ (forall p q rp rq,
        p <> q ->
        getPaneRect state p containerRect = Some rp ->
        getPaneRect state q containerRect = Some rq ->
        apart rp rq).
Proof.
  intros tree tab state containerRect.
  apply (getPaneRect_tiles state tab containerRect).
  - reflexivity.
  - simpl. done.
Defined.

Lemma getAllPaneRects_fold (g : PaneId -> option Rect) (ids : list PaneId) :
  forall (m : gmap PaneId Rect) (q : PaneId),
    foldl (fun result paneId =>
             match g paneId with
             | Some rect => <[paneId := rect]> result
             | None => result
             end) m ids !! q
    = if decide (q ∈ ids)
      then match g q with Some r => Some r | None => m !! q end
      else m !! q.
Proof.
  induction ids as [|i ids IH]; intros m q; simpl.
  - done.
  - rewrite IH. destruct (decide (q ∈ ids)) as [Hin|Hin].
    + rewrite decide_True by (by right).
      destruct (g q) eqn:Hq; [done|].
      destruct (g i) eqn:Hi; [|done].
      rewrite lookup_insert_ne; [done|]. congruence.
    + destruct (decide (q = i)) as [->|Hne].
      * rewrite decide_True by left.
        destruct (g i); [by rewrite lookup_insert_eq|done].
      * rewrite decide_False by (rewrite elem_of_cons; tauto).
        destruct (g i); [by rewrite lookup_insert_ne|done].
Qed.

(** X5 (getAllPaneRects).  The map that [getAllPaneRects] returns holds
    for every pane id what [getPaneRect] answers for it: a rectangle for
    each pane of the active tab and nothing else. *)
Theorem getAllPaneRects_lookup (state : LayoutState) (containerRect : Rect)
        (p : PaneId) :
  getAllPaneRects state containerRect !! p
  = getPaneRect state p containerRect.
Proof.
  unfold getAllPaneRects.
  destruct (getActiveTab state) as [tab|] eqn:Htab.
  - rewrite getAllPaneRects_fold.
    case_decide as Hin.
    + by destruct (getPaneRect state p containerRect).
    + rewrite lookup_empty. unfold getPaneRect. rewrite Htab.
      destruct (hasPane (root tab) p) eqn:Hhas; [|done].
      apply bool_decide_eq_true in Hhas.
      destruct Hin. apply LayoutFacts.hasPane_elem.
      by apply bool_decide_eq_true.
  - rewrite lookup_empty. unfold getPaneRect. by rewrite Htab.
Qed.

Lemma calculatePaneRectInTree_split (d : SplitDirection) (f s : LayoutNode)
      (p : PaneId) (bounds : Rect) :
  calculatePaneRectInTree (SplitNode d half f s) p bounds
  = match calculatePaneRectInTree f p (firstHalf d bounds) with
    | Some r => Some r
    | None => calculatePaneRectInTree s p (secondHalf d bounds)
    end.
Proof.
  destruct bounds as [bx by_ bw bh]. simpl. rewrite !splitAt_half.
  destruct d; simpl;
    rewrite ?Z.add_simpl_l; done.
Qed.

Lemma halves_inside (d : SplitDirection) (bounds : Rect) :
  inside (firstHalf d bounds) bounds /\ inside (secondHalf d bounds) bounds
  /\ apart (firstHalf d bounds) (secondHalf d bounds).
Proof.
  destruct bounds as [bx by_ bw bh].
  split; [|split]; intros px py; destruct d; rect_lia.
Qed.

Lemma divider_apart (d : SplitDirection) (bounds : Rect) (px py : Z) :
  onDivider d bounds px py ->
  pointInRect px py (firstHalf d bounds) = false
  /\ pointInRect px py (secondHalf d bounds) = false
  /\ (1 <= rect_width bounds -> 1 <= rect_height bounds ->
      pointInRect px py bounds = true).
Proof.
  destruct bounds as [bx by_ bw bh].
  destruct d; simpl; intros Hd; (split; [|split]); rect_lia.
Qed.

Lemma clampRectToBounds_half (r bounds f : Rect) :
  inside r bounds ->
  clampRectToBounds r bounds = Some f ->
  f = r /\ 1 <= rect_width r /\ 1 <= rect_height r.
Proof.
  unfold clampRectToBounds. intros Hin. case_decide as Hd; [done|].
  intros [= <-].
  destruct r as [rx ry rw rh], bounds as [bx by_ bw bh]. simpl in *.
  assert (0 < rw /\ 0 < rh) as [Hw Hh] by lia.
  pose proof (Hin rx ry) as H1.
  pose proof (Hin (rx + rw - 1) (ry + rh - 1)) as H2.
  rewrite !BufferFacts.pointInRect_true in H1, H2. simpl in *.
  split; [|lia]. f_equal; lia.
Qed.

Lemma drawDividers_split (d : SplitDirection) (f s : LayoutNode)
      (bounds : Rect) (fg bg : RGBA) (c : SetCell) :
  c ∈ drawDividers (SplitNode d half f s) bounds fg bg ->
  onDivider d bounds (sc_x c) (sc_y c)
  \/ (1 <= rect_width (firstHalf d bounds)
      /\ 1 <= rect_height (firstHalf d bounds)
      /\ c ∈ drawDividers f (firstHalf d bounds) fg bg)
  \/ (1 <= rect_width (secondHalf d bounds)
      /\ 1 <= rect_height (secondHalf d bounds)
      /\ c ∈ drawDividers s (secondHalf d bounds) fg bg).
Proof.
  pose proof (halves_inside d bounds) as (Hf & Hs & _).
  destruct bounds as [bx by_ bw bh].
  destruct d; simpl; rewrite !splitAt_half, ?Z.add_simpl_l;
    simpl in Hf, Hs; rewrite !elem_of_app;
    (intros [Hc|[Hc|Hc]];
     [left; apply list_elem_of_fmap in Hc as (i & -> & Hi);
      apply BufferFacts.elem_of_range in Hi; simpl; lia
     |right; left;
      match type of Hc with
      | context [clampRectToBounds ?r ?b] =>
          destruct (clampRectToBounds r b) as [r'|] eqn:Hcl;
          [|by apply elem_of_nil in Hc];
          apply clampRectToBounds_half in Hcl as (-> & Hw & Hh); [|done]
      end; done
     |right; right;
      match type of Hc with
      | context [clampRectToBounds ?r ?b] =>
          destruct (clampRectToBounds r b) as [r'|] eqn:Hcl;
          [|by apply elem_of_nil in Hc];
          apply clampRectToBounds_half in Hcl as (-> & Hw & Hh); [|done]
      end; done]).
Qed.

(** X6 (drawDividers, with calculatePaneRectInTree and
    clampRectToBounds).  In a tree whose splits are even, no cell that
    [drawDividers] sets lies in the rectangle of a pane; and when the
    bounds have at least one row and one column, every such cell lies in
    the bounds. *)
Theorem drawDividers_between_panes (node : LayoutNode) (fg bg : RGBA) :
  evenSplits node ->
  forall bounds c,
    c ∈ drawDividers node bounds fg bg ->
    (forall p r, calculatePaneRectInTree node p bounds = Some r ->
                 pointInRect (sc_x c) (sc_y c) r = false)
    /\ (1 <= rect_width bounds -> 1 <= rect_height bounds ->
        pointInRect (sc_x c) (sc_y c) bounds = true).
Proof.
  induction node as [i pty|d r f IHf s IHs]; intros Heven bounds c Hc.
  - by apply elem_of_nil in Hc.
  - destruct Heven as (-> & Hef & Hes).
    pose proof (halves_inside d bounds) as (Hf & Hs & Hfs).
    assert (forall p r,
              calculatePaneRectInTree (SplitNode d half f s) p bounds = Some r ->
              (calculatePaneRectInTree f p (firstHalf d bounds) = Some r
               /\ inside r (firstHalf d bounds))
              \/ (calculatePaneRectInTree s p (secondHalf d bounds) = Some r
                  /\ inside r (secondHalf d bounds))) as Hcase.
    { intros p r. rewrite calculatePaneRectInTree_split.
      destruct (calculatePaneRectInTree f p (firstHalf d bounds)) eqn:Hfp.
      - intros [= <-]. left. split; [done|].
        exact (calculatePaneRectInTree_inside f p Hef _ _ Hfp).
      - intros Hsp. right. split; [done|].
        exact (calculatePaneRectInTree_inside s p Hes _ _ Hsp). }
    apply drawDividers_split in Hc as [Hdiv|[(Hw & Hh & Hc)|(Hw & Hh & Hc)]].
    + apply divider_apart in Hdiv as (Hnf & Hns & Hin).
      split; [|done]. intros p r Hr.
      destruct (pointInRect (sc_x c) (sc_y c) r) eqn:Hpt; [|done].
      apply Hcase in Hr as [[_ Hr]|[_ Hr]]; apply Hr in Hpt; congruence.
    + destruct (IHf Hef _ _ Hc) as [Hclear Hin].
      specialize (Hin Hw Hh).
      split; [|intros _ _; by apply Hf]. intros p r Hr.
      apply Hcase in Hr as [[Hr _]|[_ Hr]]; [by eapply Hclear|].
      destruct (pointInRect (sc_x c) (sc_y c) r) eqn:Hpt; [|done].
      apply Hr in Hpt. apply Hfs in Hin. congruence.
    + destruct (IHs Hes _ _ Hc) as [Hclear Hin].
      specialize (Hin Hw Hh).
      split; [|intros _ _; by apply Hs]. intros p r Hr.
      apply Hcase in Hr as [[_ Hr]|[Hr _]]; [|by eapply Hclear].
      destruct (pointInRect (sc_x c) (sc_y c) r) eqn:Hpt; [|done].
      apply Hr in Hpt. apply Hfs in Hpt. congruence.
Qed.

Lemma drawDividers_between_panes_witness :
  let tree := SplitNode horizontal half (PaneNode 1 None)
                (SplitNode vertical half (PaneNode 2 None) (PaneNode 3 None)) in
  let fg := fromInts 90 90 90 in
  let bg := fromInts 0 0 0 in
  let bounds := mkRect 0 0 80 24 in
  let c := mkSetCell 40 0 "│" fg bg 0 in
  c ∈ drawDividers tree bounds fg bg
  /\ (forall p r, calculatePaneRectInTree tree p bounds = Some r ->
                  pointInRect (sc_x c) (sc_y c) r = false)
  /\ (1 <= rect_width bounds -> 1 <= rect_height bounds ->
      pointInRect (sc_x c) (sc_y c) bounds = true).
Proof.
  intros tree fg bg bounds c.
  assert (c ∈ drawDividers tree bounds fg bg) as Hc by (vm_compute; left).
  split; [exact Hc|].
  apply (drawDividers_between_panes tree fg bg); [simpl; done|exact Hc].
Defined.

End PaneRectFacts.

(** ** layout.ts: panes, ptys and focus *)

Module LayoutInvFacts.
Import Layout LayoutSpec LayoutInv.

Lemma leaves_ids (node : LayoutNode) : (leaves node).*1 = getAllPaneIds node.
Proof.
  induction node as [i pty|d r f IHf s IHs]; simpl; [done|].
  by rewrite fmap_app, IHf, IHs.
Qed.

Lemma findPaneInTree_leaves (node : LayoutNode) (p : PaneId) :
  findPaneInTree node p = head (filter (fun l => l.1 = p) (leaves node)).
Proof.
  induction node as [i pty|d r f IHf s IHs]; simpl.
  - rewrite filter_cons. simpl. by case_decide.
  - rewrite filter_app, IHf, IHs.
    by destruct (filter (fun l => l.1 = p) (leaves f)).
Qed.

Lemma filter_none_fst (p : PaneId) (l : list (PaneId * option Z)) :
  p ∉ l.*1 -> filter (fun l => l.1 = p) l = [].
Proof.
  induction l as [|x l IH]; intros Hp; [done|].
  rewrite filter_cons_False.
  - apply IH. intros Hin. apply Hp. simpl. by right.
  - intros Heq. apply Hp. simpl. rewrite Heq. left.
Qed.

Lemma findPaneInTree_first (node : LayoutNode) (p : PaneId)
      (l1 l2 : list (PaneId * option Z)) (pty : option Z) :
  leaves node = l1 ++ (p, pty) :: l2 -> p ∉ l1.*1 ->
  findPaneInTree node p = Some (p, pty).
Proof.
  intros Hl Hp. rewrite findPaneInTree_leaves, Hl, filter_app.
  rewrite filter_none_fst by done. simpl.
  by rewrite filter_cons_True.
Qed.

Lemma closePane_leaves (node : LayoutNode) (p : PaneId) :
  match closePane node p with
  | Some n' => leaves n' = filter (fun l => l.1 <> p) (leaves node)
  | None => filter (fun l => l.1 <> p) (leaves node) = []
  end.
Proof.
  induction node as [i pty|d r f IHf s IHs]; simpl.
  - rewrite filter_cons. simpl. case_decide as Hi.
    + rewrite decide_False; [done|]. by intros ?.
    + by rewrite decide_True.
  - rewrite filter_app.
    destruct (closePane f p) as [first|], (closePane s p) as [second|];
      simpl; rewrite ?IHf, ?IHs, ?app_nil_r; done.
Qed.

Lemma closePane_even (node : LayoutNode) (p : PaneId) (n' : LayoutNode) :
  evenSplits node -> closePane node p = Some n' -> evenSplits n'.
Proof.
  revert n'. induction node as [i pty|d r f IHf s IHs]; intros n' Hev; simpl.
  - case_decide; [done|]. by intros [= <-].
  - destruct Hev as (Hr & Hf & Hs).
    destruct (closePane f p) as [first|], (closePane s p) as [second|];
      intros [= <-]; simpl; auto.
Qed.

(** X7 (closePane).  [closePane] removes the panes with the given id and
    keeps all others, in their order and with their ptys and their split
    ratios; it answers [null] exactly when every pane of the tree has the
    given id. *)
Theorem closePane_removes (node : LayoutNode) (p : PaneId) :
  (forall n', closePane node p = Some n' ->
     leaves n' = filter (fun l => l.1 <> p) (leaves node)
     /\ (evenSplits node -> evenSplits n'))
  /\ (closePane node p = None <->
      forall q, q ∈ getAllPaneIds node -> q = p).
Proof.
  pose proof (closePane_leaves node p) as Hl. split.
  - intros n' Hc. rewrite Hc in Hl. split; [done|].
    intros Hev. by eapply closePane_even.
  - rewrite <- leaves_ids. split.
    + intros Hc. rewrite Hc in Hl. intros q Hq.
      apply list_elem_of_fmap in Hq as ([q' pty] & -> & Hq). simpl.
      destruct (decide (q' = p)) as [|Hne]; [done|].
      assert ((q', pty) ∈ filter (fun l => l.1 <> p) (leaves node)) as Hin
        by (by apply list_elem_of_filter).
      rewrite Hl in Hin. by apply elem_of_nil in Hin.
    + intros Hall. destruct (closePane node p) as [n'|]; [|done].
      assert (leaves n' = []) as Hnil.
      { rewrite Hl.
        destruct (filter (fun l => l.1 <> p) (leaves node)) as [|x l'] eqn:E;
          [done|].
        assert (x ∈ filter (fun l => l.1 <> p) (leaves node)) as Hx
          by (rewrite E; left).
        apply list_elem_of_filter in Hx as [Hne Hin].
        destruct Hne. apply Hall. by apply list_elem_of_fmap_2. }
      apply (f_equal (fmap fst)) in Hnil. rewrite leaves_ids in Hnil.
      by apply LayoutFacts.getAllPaneIds_nonempty in Hnil.
Qed.

Lemma splitPane_split_flag (d : SplitDirection) (r : Q) (f s : LayoutNode)
      (p : PaneId) (dir : SplitDirection) (c : Counters) :
  (splitPane (SplitNode d r f s) p dir c).1.2 = true.
Proof.
  simpl. unfold mbind, M_bind, bind.
  destruct (splitPane f p dir c) as [[first changed] c1].
  destruct changed; [done|].
  by destruct (splitPane s p dir c1) as [[second ?] c2].
Qed.

Lemma splitPane_reaches (node : LayoutNode) (p : PaneId)
      (dir : SplitDirection) :
  forall c,
    if reaches node p
    then exists l1 pty l2 node',
        splitPane node p dir c
        = (node', true, mkCounters (_paneCounter c + 1) (_tabCounter c))
        /\ leaves node = l1 ++ (p, pty) :: l2 /\ (p ∉ l1.*1)
        /\ leaves node' = l1 ++ (p, pty) :: (_paneCounter c + 1, None) :: l2
        /\ (evenSplits node -> evenSplits node')
    else exists flag, splitPane node p dir c = (node, flag, c).
Proof.
  induction node as [i pty|d r f IHf s IHs]; intros c.
  - simpl. case_decide as Hi.
    + subst i. rewrite bool_decide_eq_true_2 by done.
      exists [], pty, []. eexists. split; [done|].
      split; [done|]. split; [apply not_elem_of_nil|]. split; [done|].
      intros _. simpl. done.
    + rewrite bool_decide_eq_false_2 by done. by exists false.
  - destruct f as [i pty|d' r' f1 f2].
    + (* the first child is a pane *)
      simpl. unfold mbind, M_bind, bind. simpl. case_decide as Hi.
      * subst i. rewrite bool_decide_eq_true_2 by done. simpl.
        exists [], pty, (leaves s). eexists. split; [done|].
        split; [done|]. split; [apply not_elem_of_nil|]. split; [done|].
        intros (Hr & _ & Hs). simpl. done.
      * rewrite bool_decide_eq_false_2 by done. simpl.
        specialize (IHs c). destruct (reaches s p).
        -- destruct IHs as (l1 & q & l2 & second & -> & Hl & Hp & Hl' & Hev).
           exists ((i, pty) :: l1), q, l2. eexists. split; [done|].
           simpl. rewrite Hl, Hl'. split; [done|].
           split; [|split; [done|]].
           ++ rewrite not_elem_of_cons. split; [congruence|done].
           ++ intros (Hr & _ & Hs). auto.
        -- destruct IHs as (flag & ->). by exists true.
    + (* the first child is a split *)
      specialize (IHf c).
      pose proof (splitPane_split_flag d' r' f1 f2 p dir c) as Hflag.
      change (reaches (SplitNode d r (SplitNode d' r' f1 f2) s) p)
        with (reaches (SplitNode d' r' f1 f2) p).
      set (f := SplitNode d' r' f1 f2) in *.
      change (splitPane (SplitNode d r f s) p dir c)
        with (bind (splitPane f p dir)
                (fun '(first, changed) =>
                   if (changed : bool) then ret (SplitNode d r first s, true)
                   else bind (splitPane s p dir)
                          (fun '(second, _) => ret (SplitNode d r f second, true)))
                c).
      destruct (reaches f p); unfold bind at 1.
      * destruct IHf as (l1 & q & l2 & first & -> & Hl & Hp & Hl' & Hev).
        exists l1, q, (l2 ++ leaves s). eexists. split; [done|].
        change (leaves (SplitNode d r f s)) with (leaves f ++ leaves s).
        change (leaves (SplitNode d r first s)) with (leaves first ++ leaves s).
        rewrite Hl, Hl', <- !app_assoc. split; [done|]. split; [done|].
        split; [done|]. intros (Hr & Hf & Hs). simpl. auto.
      * destruct IHf as (flag & Hf). rewrite Hf in Hflag |- *.
        simpl in Hflag. subst flag. by exists true.
Qed.

(** X8 (splitPane).  [splitPane] gets to a pane only along first children
    that are splits and past first children that are panes with another
    id.  When it gets to the pane, the new pane comes right after it in
    the order of the tree, without pty and with the next id of the
    counter, and nothing else changes; otherwise the tree and the counter
    stay as they are, also when the tree has a pane with the given id. *)
Theorem splitPane_effect (node : LayoutNode) (p : PaneId)
        (dir : SplitDirection) (c : Counters) :
  (reaches node p = true ->
   exists l1 pty l2,
     leaves node = l1 ++ (p, pty) :: l2 /\ (p ∉ l1.*1)
     /\ leaves (splitPane node p dir c).1.1
        = l1 ++ (p, pty) :: (_paneCounter c + 1, None) :: l2
     /\ (splitPane node p dir c).2
        = mkCounters (_paneCounter c + 1) (_tabCounter c))
  /\ (reaches node p = false ->
      (splitPane node p dir c).1.1 = node /\ (splitPane node p dir c).2 = c)
  /\ (reaches node p = true -> p ∈ getAllPaneIds node).
Proof.
  pose proof (splitPane_reaches node p dir c) as H.
  destruct (reaches node p).
  - destruct H as (l1 & pty & l2 & node' & -> & Hl & Hp & Hl' & _).
    split; [|split]; [|done|].
    + intros _. by exists l1, pty, l2.
    + intros _. rewrite <- leaves_ids, Hl, fmap_app. simpl.
      apply elem_of_app. right. left.
  - destruct H as (flag & ->). by split; [|split].
Qed.

Lemma splitPane_effect_witness :
  let node := SplitNode horizontal half (PaneNode 1 None) (PaneNode 2 (Some 7)) in
  let c := mkCounters 2 1 in
  exists l1 pty l2,
    leaves node = l1 ++ (2, pty) :: l2 /\ (2 ∉ l1.*1)
    /\ leaves (splitPane node 2 vertical c).1.1
       = l1 ++ (2, pty) :: (_paneCounter c + 1, None) :: l2
    /\ (splitPane node 2 vertical c).2
       = mkCounters (_paneCounter c + 1) (_tabCounter c).
Proof.
  intros node c.
  apply (proj1 (splitPane_effect node 2 vertical c)). reflexivity.
Defined.

Lemma setPtyId_split_flag (d : SplitDirection) (r : Q) (f s : LayoutNode)
      (p : PaneId) (pty : Z) :
  (setPtyId (SplitNode d r f s) p pty).2 = true.
Proof.
  simpl. destruct (setPtyId f p pty) as [first changed].
  destruct changed; [done|].
  by destruct (setPtyId s p pty) as [second ?].
Qed.

Lemma setPtyId_reaches (node : LayoutNode) (p : PaneId) (pty : Z) :
  if reaches node p
  then exists l1 old l2,
      leaves node = l1 ++ (p, old) :: l2 /\ (p ∉ l1.*1)
      /\ leaves (setPtyId node p pty).1 = l1 ++ (p, Some pty) :: l2
      /\ (setPtyId node p pty).2 = true
      /\ (evenSplits node -> evenSplits (setPtyId node p pty).1)
  else (setPtyId node p pty).1 = node.
Proof.
  induction node as [i old|d r f IHf s IHs].
  - simpl. case_decide as Hi.
    + subst i. rewrite bool_decide_eq_true_2 by done.
      exists [], old, []. simpl. split; [done|].
      split; [apply not_elem_of_nil|]. done.
    + by rewrite bool_decide_eq_false_2.
  - destruct f as [i old|d' r' f1 f2].
    + simpl. case_decide as Hi.
      * subst i. rewrite bool_decide_eq_true_2 by done. simpl.
        exists [], old, (leaves s). split; [done|].
        split; [apply not_elem_of_nil|]. split; [done|]. split; [done|].
        intros (Hr & _ & Hs). simpl. done.
      * rewrite bool_decide_eq_false_2 by done. simpl.
        destruct (reaches s p).
        -- destruct IHs as (l1 & q & l2 & Hl & Hp & Hl' & Hflag & Hev).
           destruct (setPtyId s p pty) as [second changed]. simpl in *.
           exists ((i, old) :: l1), q, l2.
           rewrite Hl, Hl'. split; [done|].
           split; [|split; [done|split; [done|]]].
           ++ rewrite fmap_cons, not_elem_of_cons. split; [simpl; congruence|done].
           ++ intros (Hr & _ & Hs). auto.
        -- destruct (setPtyId s p pty) as [second changed]. simpl in *.
           by subst second.
    + pose proof (setPtyId_split_flag d' r' f1 f2 p pty) as Hflag.
      change (reaches (SplitNode d r (SplitNode d' r' f1 f2) s) p)
        with (reaches (SplitNode d' r' f1 f2) p).
      set (f := SplitNode d' r' f1 f2) in *.
      change (setPtyId (SplitNode d r f s) p pty)
        with (let '(first, changed) := setPtyId f p pty in
              if (changed : bool) then (SplitNode d r first s, true)
              else let '(second, _) := setPtyId s p pty in
                   (SplitNode d r f second, true)).
      destruct (setPtyId f p pty) as [first changed]. simpl in Hflag.
      subst changed. cbn [fst snd] in IHf |- *.
      destruct (reaches f p).
      * destruct IHf as (l1 & q & l2 & Hl & Hp & Hl' & _ & Hev).
        exists l1, q, (l2 ++ leaves s).
        change (leaves (SplitNode d r f s)) with (leaves f ++ leaves s).
        change (leaves (SplitNode d r first s)) with (leaves first ++ leaves s).
        rewrite Hl, Hl', <- !app_assoc. split; [done|]. split; [done|].
        split; [done|]. split; [done|]. intros (Hr & Hf & Hs).
        split; [done|]. split; [by apply Hev|done].
      * by subst first.
Qed.

Lemma findTab_updateTab (l : list Tab) (tab tab' : Tab) (tabId : TabId) :
  findTab tabId l = Some tab -> tab_id tab' = tabId ->
  findTab tabId
    (map (fun t => if decide (tab_id t = tabId) then tab' else t) l)
  = Some tab'.
Proof.
  intros Hfind Hid. induction l as [|x l IH]; simpl in *; [done|].
  destruct (decide (tab_id x = tabId)) as [Hx|Hx].
  - by rewrite decide_True.
  - rewrite decide_False by done. by apply IH.
Qed.

Lemma getActiveTab_updateTab (state : LayoutState) (tab tab' : Tab) :
  getActiveTab state = Some tab -> tab_id tab' = tab_id tab ->
  getActiveTab (updateTab state (tab_id tab) tab') = Some tab'.
Proof.
  intros Hact Hid. unfold getActiveTab in *. simpl.
  pose proof (LayoutFacts.findTab_Some _ _ _ Hact) as [_ Heq].
  rewrite Heq. apply (findTab_updateTab _ tab); [done|congruence].
Qed.

(** X9 (setPtyId, assignPtyToFocused, getFocusedPtyId).  After
    [assignPtyToFocused], [getFocusedPtyId] answers the pty just assigned
    when [setPtyId] gets to the focused pane; otherwise the assignment is
    lost and the answer is the one from before. *)
Theorem assignPtyToFocused_getFocusedPtyId (state : LayoutState) (ptyId : Z) :
  getFocusedPtyId (assignPtyToFocused state ptyId)
  = match getActiveTab state with
    | None => None
    | Some tab =>
        if reaches (root tab) (focusedPaneId tab) then Some ptyId
        else getFocusedPtyId state
    end.
Proof.
  unfold assignPtyToFocused, getFocusedPtyId at 1.
  destruct (getActiveTab state) as [tab|] eqn:Hact; [|by rewrite Hact].
  erewrite getActiveTab_updateTab; [|done|done]. simpl.
  pose proof (setPtyId_reaches (root tab) (focusedPaneId tab) ptyId) as H.
  destruct (reaches (root tab) (focusedPaneId tab)).
  - destruct H as (l1 & old & l2 & _ & Hp & Hl' & _).
    by erewrite findPaneInTree_first.
  - rewrite H. unfold getFocusedPtyId. by rewrite Hact.
Qed.












(** *** Pane ids stay distinct *)

Lemma Forall_sublist_of {A} (P : A -> Prop) (l1 l2 : list A) :
  l1 `sublist_of` l2 -> Forall P l2 -> Forall P l1.
Proof.
  intros Hsub Hall. apply Forall_forall. intros a Ha.
  apply (proj1 (Forall_forall _ _) Hall). by eapply elem_of_sublist.
Qed.

Lemma map_keep_tabs (tabId : TabId) (tab' : Tab) (l : list Tab) :
  (forall t, t ∈ l -> tab_id t <> tabId) ->
  map (fun t => if decide (tab_id t = tabId) then tab' else t) l = l.
Proof.
  induction l as [|a l IH]; intros Hne; [done|]. simpl.
  rewrite decide_False by (apply Hne; left).
  f_equal. apply IH. intros t Ht. apply Hne. by right.
Qed.

Lemma allPaneIds_updateTab (state : LayoutState) (tab tab' : Tab) :
  NoDup (tab_id <$> tabs state) -> tab ∈ tabs state ->
  exists A B,
    allPaneIds state = A ++ getAllPaneIds (root tab) ++ B
    /\ allPaneIds (updateTab state (tab_id tab) tab')
       = A ++ getAllPaneIds (root tab') ++ B.
Proof.
  intros Hnd Hin. unfold allPaneIds, updateTab. simpl.
  apply list_elem_of_split in Hin as (pre & post & Heq).
  rewrite Heq in Hnd |- *.
  exists (pre ≫= fun t => getAllPaneIds (root t)),
         (post ≫= fun t => getAllPaneIds (root t)).
  rewrite bind_app, bind_cons. split; [done|].
  rewrite map_app. simpl. rewrite decide_True by done.
  rewrite !map_keep_tabs.
  - by rewrite bind_app, bind_cons.
  - rewrite fmap_app, fmap_cons in Hnd.
    apply NoDup_app in Hnd as (_ & _ & Hnd).
    apply NoDup_cons in Hnd as [Hnot _].
    intros t Ht Hid. apply Hnot. rewrite <- Hid.
    by apply list_elem_of_fmap_2.
  - by apply (LayoutFacts.NoDup_tab_ids_pre _ pre tab post).
Qed.

Lemma wellFormed_updateTab (state : LayoutState) (c c' : Counters)
      (tab tab' : Tab) :
  wellFormed state c -> tab ∈ tabs state ->
  valid (updateTab state (tab_id tab) tab') c' ->
  evenSplits (root tab') ->
  (getAllPaneIds (root tab') `sublist_of` getAllPaneIds (root tab)
   /\ _paneCounter c <= _paneCounter c')
  \/ (getAllPaneIds (root tab')
      ≡ₚ (_paneCounter c + 1) :: getAllPaneIds (root tab)
      /\ _paneCounter c' = _paneCounter c + 1) ->
  wellFormed (updateTab state (tab_id tab) tab') c'.
Proof.
  intros [Hv Hnd Hle Hev] Hin Hv' Hev' Hids.
  destruct (allPaneIds_updateTab state tab tab' (valid_ids _ _ Hv) Hin)
    as (A & B & HA & HB).
  split; [done| | |].
  - rewrite HB. rewrite HA in Hnd, Hle.
    destruct Hids as [[Hsub _]|[Hperm Hc]].
    + eapply sublist_NoDup; [exact Hnd|].
      apply sublist_app; [done|]. by apply sublist_app.
    + rewrite Hperm, <- app_comm_cons, <- Permutation_middle.
      apply NoDup_cons. split; [|done].
      intros Hx.
      pose proof (proj1 (Forall_forall _ _) Hle _ Hx) as Hbound.
      simpl in Hbound. lia.
  - rewrite HB. rewrite HA in Hle.
    destruct Hids as [[Hsub Hc]|[Hperm Hc]].
    + eapply Forall_sublist_of;
        [apply sublist_app; [done|]; apply sublist_app; [exact Hsub|done]|].
      eapply Forall_impl; [exact Hle|]. intros x Hx. simpl in *. lia.
    + rewrite Hperm, <- app_comm_cons, <- Permutation_middle.
      constructor; [lia|].
      eapply Forall_impl; [exact Hle|]. intros x Hx. simpl in *. lia.
  - unfold updateTab. simpl. apply Forall_fmap.
    eapply Forall_impl; [exact Hev|]. intros x Hx. simpl. by case_decide.
Qed.

Lemma wellFormed_tabs (state state' : LayoutState) (c : Counters) :
  wellFormed state c -> valid state' c ->
  tabs state' `sublist_of` tabs state ->
  wellFormed state' c.
Proof.
  intros [Hv Hnd Hle Hev] Hv' Hsub.
  assert (allPaneIds state' `sublist_of` allPaneIds state) as Hids
    by (by apply bind_sublist).
  split; [done| | |].
  - by eapply sublist_NoDup.
  - by eapply Forall_sublist_of.
  - by eapply Forall_sublist_of.
Qed.

Lemma wellFormed_splitFocused (state : LayoutState) (d : SplitDirection)
      (c : Counters) :
  wellFormed state c ->
  wellFormed (splitFocused state d c).1 (splitFocused state d c).2.
Proof.
  intros Hwf.
  pose proof (LayoutFacts.valid_splitFocused state d c (wf_valid _ _ Hwf)) as Hv'.
  unfold splitFocused in *.
  destruct (getActiveTab state) as [tab|] eqn:Hact; [|done].
  destruct (LayoutFacts.getActiveTab_valid _ _ _ (wf_valid _ _ Hwf) Hact)
    as (Hin & _ & _).
  pose proof (proj1 (Forall_forall _ _) (wf_even _ _ Hwf) tab Hin) as Hev.
  simpl in Hev.
  unfold mbind, M_bind, bind in *.
  pose proof (splitPane_reaches (root tab) (focusedPaneId tab) d c) as Hsp.
  destruct (reaches (root tab) (focusedPaneId tab)).
  - destruct Hsp as (l1 & pty & l2 & newRoot & Heq & Hl & _ & Hl' & Hev').
    rewrite Heq in Hv' |- *. simpl in *.
    apply (wellFormed_updateTab state c _ tab); try done.
    + simpl. by apply Hev'.
    + right. simpl. split; [|done].
      rewrite <- !leaves_ids, Hl, Hl', !fmap_app, !fmap_cons. simpl.
      transitivity ((l1.*1 ++ [focusedPaneId tab])
                    ++ (_paneCounter c + 1) :: l2.*1);
        [by rewrite <- app_assoc|].
      rewrite <- (Permutation_middle (l1.*1 ++ [focusedPaneId tab]) (l2.*1)).
      by rewrite <- app_assoc.
  - destruct Hsp as (flag & Heq). rewrite Heq in Hv' |- *. simpl in *.
    apply (wellFormed_updateTab state c _ tab); try done.
    left. split; [done|lia].
Qed.

Lemma wellFormed_moveFocusToPane (state : LayoutState) (p : PaneId)
      (c : Counters) :
  wellFormed state c -> wellFormed (moveFocusToPane state p) c.
Proof.
  intros Hwf.
  pose proof (LayoutFacts.valid_moveFocusToPane state p c (wf_valid _ _ Hwf))
    as Hv'.
  unfold moveFocusToPane in *.
  destruct (getActiveTab state) as [tab|] eqn:Hact; [|done].
  destruct (LayoutFacts.getActiveTab_valid _ _ _ (wf_valid _ _ Hwf) Hact)
    as (Hin & _ & _).
  destruct (hasPane (root tab) p); [|done].
  apply (wellFormed_updateTab state c _ tab); try done.
  - exact (proj1 (Forall_forall _ _) (wf_even _ _ Hwf) tab Hin).
  - left. split; [done|lia].
Qed.

Lemma wellFormed_focusNext (state : LayoutState) (d : FocusDirection)
      (c : Counters) :
  wellFormed state c -> wellFormed (focusNext state d) c.
Proof.
  intros Hwf. unfold focusNext. repeat case_match; try done;
    by apply wellFormed_moveFocusToPane.
Qed.

Lemma closeTab_tabs (state state' : LayoutState) (t : TabId) :
  closeTab state t = Some state' -> tabs state' `sublist_of` tabs state.
Proof.
  unfold closeTab. case_decide; [by intros [= <-]|].
  destruct (findIndex t (tabs state)) as [index|]; [|by intros [= <-]].
  case_decide.
  - destruct (tabs state !! _) as [nb|]; simpl; [|done].
    intros [= <-]. apply sublist_filter.
  - intros [= <-]. apply sublist_filter.
Qed.

Lemma wellFormed_closeTab (state : LayoutState) (t : TabId) (c : Counters) :
  wellFormed state c ->
  exists state', closeTab state t = Some state' /\ wellFormed state' c.
Proof.
  intros Hwf.
  destruct (LayoutFacts.valid_closeTab state t c (wf_valid _ _ Hwf))
    as (state' & Heq & Hv').
  exists state'. split; [done|].
  apply (wellFormed_tabs state); [done|done|]. by eapply closeTab_tabs.
Qed.

Lemma wellFormed_closeFocused (state : LayoutState) (c : Counters) :
  wellFormed state c ->
  exists state', closeFocused state = Some state' /\ wellFormed state' c.
Proof.
  intros Hwf.
  destruct (LayoutFacts.valid_closeFocused state c (wf_valid _ _ Hwf))
    as (state' & Heq & Hv').
  exists state'. split; [done|].
  unfold closeFocused in Heq.
  destruct (getActiveTab state) as [tab|] eqn:Hact; [|by simplify_eq].
  destruct (LayoutFacts.getActiveTab_valid _ _ _ (wf_valid _ _ Hwf) Hact)
    as (Hin & _ & _).
  pose proof (closePane_leaves (root tab) (focusedPaneId tab)) as Hl.
  destruct (closePane (root tab) (focusedPaneId tab)) as [newRoot|] eqn:Hcl.
  - injection Heq as <-.
    apply (wellFormed_updateTab state c _ tab); try done.
    + simpl. eapply closePane_even; [|exact Hcl].
      exact (proj1 (Forall_forall _ _) (wf_even _ _ Hwf) tab Hin).
    + left. simpl. split; [|lia].
      rewrite <- !leaves_ids, Hl. apply fmap_sublist, sublist_filter.
  - apply (wellFormed_tabs state); [done|done|]. by eapply closeTab_tabs.
Qed.

Lemma wellFormed_setActiveTab (state : LayoutState) (t : TabId) (c : Counters) :
  wellFormed state c -> wellFormed (setActiveTab state t) c.
Proof.
  intros Hwf. apply (wellFormed_tabs state); [done| |].
  - by apply LayoutFacts.valid_setActiveTab, wf_valid.
  - unfold setActiveTab. by case_match.
Qed.

Lemma wellFormed_cycleTab (state : LayoutState) (delta : Z) (c : Counters) :
  delta = 1 \/ delta = -1 ->
  wellFormed state c ->
  exists state', cycleTab state delta = Some state' /\ wellFormed state' c.
Proof.
  intros Hd Hwf.
  destruct (LayoutFacts.valid_cycleTab state delta c Hd (wf_valid _ _ Hwf))
    as (state' & Heq & Hv').
  exists state'. split; [done|].
  apply (wellFormed_tabs state); [done|done|].
  unfold cycleTab in Heq. repeat case_match; simplify_eq; try done.
  all: match goal with
       | H : _ ≫= _ = Some _ |- _ =>
           apply bind_Some in H as (tab & _ & H); injection H as <-
       end;
    unfold setActiveTab; by case_match.
Qed.

Lemma wellFormed_addTab (state : LayoutState) (c : Counters) :
  wellFormed state c -> wellFormed (addTab state c).1 (addTab state c).2.
Proof.
  intros Hwf.
  pose proof (LayoutFacts.valid_addTab state c (wf_valid _ _ Hwf)) as Hv'.
  destruct Hwf as [Hv Hnd Hle Hev].
  split; [done| | |]; simpl; unfold allPaneIds; simpl.
  - rewrite bind_app. simpl. apply NoDup_app. split; [done|]. split.
    + intros p Hp [->|?%elem_of_nil]%elem_of_cons; [|done].
      pose proof (proj1 (Forall_forall _ _) Hle _ Hp) as Hb.
      simpl in Hb. lia.
    + apply NoDup_singleton.
  - rewrite bind_app. simpl. apply Forall_app. split.
    + eapply Forall_impl; [exact Hle|]. intros x Hx. simpl in *. lia.
    + repeat constructor. simpl. lia.
  - apply Forall_app. split; [done|]. by repeat constructor.
Qed.

Lemma valid_assignPtyToFocused (state : LayoutState) (ptyId : Z)
      (c : Counters) :
  valid state c -> valid (assignPtyToFocused state ptyId) c.
Proof.
  intros Hv. unfold assignPtyToFocused.
  destruct (getActiveTab state) as [tab|] eqn:Hact; [|done].
  destruct (LayoutFacts.getActiveTab_valid _ _ _ Hv Hact) as (Hin & _ & Hle).
  apply (LayoutFacts.valid_updateTab state c (mkTab (tab_id tab) _ _));
    [done| |done].
  simpl.
  pose proof (proj1 (Forall_forall _ _) (valid_focus _ _ Hv) tab Hin) as Hf.
  simpl in Hf.
  pose proof (setPtyId_reaches (root tab) (focusedPaneId tab) ptyId) as Hs.
  destruct (reaches (root tab) (focusedPaneId tab)).
  - destruct Hs as (l1 & old & l2 & Hl & _ & Hl' & _).
    rewrite <- leaves_ids, Hl' . rewrite <- leaves_ids, Hl in Hf.
    by rewrite fmap_app, fmap_cons in *.
  - by rewrite Hs.
Qed.

Lemma wellFormed_assignPtyToFocused (state : LayoutState) (ptyId : Z)
      (c : Counters) :
  wellFormed state c -> wellFormed (assignPtyToFocused state ptyId) c.
Proof.
  intros Hwf.
  pose proof (valid_assignPtyToFocused state ptyId c (wf_valid _ _ Hwf))
    as Hv'.
  unfold assignPtyToFocused in *.
  destruct (getActiveTab state) as [tab|] eqn:Hact; [|done].
  destruct (LayoutFacts.getActiveTab_valid _ _ _ (wf_valid _ _ Hwf) Hact)
    as (Hin & _ & _).
  pose proof (proj1 (Forall_forall _ _) (wf_even _ _ Hwf) tab Hin) as Hev.
  simpl in Hev.
  pose proof (setPtyId_reaches (root tab) (focusedPaneId tab) ptyId) as Hs.
  apply (wellFormed_updateTab state c _ tab); try done; simpl.
  - destruct (reaches (root tab) (focusedPaneId tab)).
    + destruct Hs as (l1 & old & l2 & _ & _ & _ & _ & Hev'). by apply Hev'.
    + by rewrite Hs.
  - left. split; [|lia].
    destruct (reaches (root tab) (focusedPaneId tab)).
    + destruct Hs as (l1 & old & l2 & Hl & _ & Hl' & _).
      rewrite <- !leaves_ids, Hl, Hl', !fmap_app, !fmap_cons. done.
    + by rewrite Hs.
Qed.

Lemma wellFormed_initLayout :
  wellFormed (initLayout resetIdCounters).1 (initLayout resetIdCounters).2.
Proof.
  split.
  - apply LayoutFacts.valid_initLayout.
  - apply NoDup_singleton.
  - constructor; [simpl; lia|constructor].
  - constructor; [done|constructor].
Qed.

Lemma wellFormed_applyStep (st : Step) (state : LayoutState) (c : Counters) :
  wellFormed state c ->
  exists state', (applyStep st state c).1 = Some state'
                 /\ wellFormed state' (applyStep st state c).2.
Proof.
  intros Hwf. destruct st as [op|ptyId]; simpl.
  - destruct op; simpl.
    + unfold mbind, M_bind, bind.
      pose proof (wellFormed_splitFocused state direction c Hwf).
      destruct (splitFocused state direction c) as [s' c']. by eexists.
    + by apply wellFormed_closeFocused.
    + eexists. split; [done|]. by apply wellFormed_focusNext.
    + eexists. split; [done|]. by apply wellFormed_moveFocusToPane.
    + eexists. split; [done|]. exact (wellFormed_addTab state c Hwf).
    + by apply wellFormed_closeTab.
    + eexists. split; [done|]. by apply wellFormed_setActiveTab.
    + apply wellFormed_cycleTab; [by left|done].
    + apply wellFormed_cycleTab; [by right|done].
  - eexists. split; [done|]. by apply wellFormed_assignPtyToFocused.
Qed.

Lemma wellFormed_applySteps (steps : list Step) :
  forall state c,
    wellFormed state c ->
    exists state', (applySteps steps state c).1 = Some state'
                   /\ wellFormed state' (applySteps steps state c).2.
Proof.
  induction steps as [|st steps IH]; intros state c Hwf.
  - by exists state.
  - simpl. unfold mbind, M_bind, bind.
    destruct (wellFormed_applyStep st state c Hwf) as (s' & Hs' & Hwf').
    destruct (applyStep st state c) as [r c']. simpl in *. subst r.
    by apply IH.
Qed.

(** X10 (splitFocused, closeFocused, focusNext, moveFocusToPane, addTab,
    closeTab, setActiveTab, cycleTab, assignPtyToFocused).  Whatever the
    application does to the initial layout, no step throws and the layout
    stays well formed: it passes [validateLayoutState], no pane id occurs
    twice in a tab or in two tabs, every pane id has been handed out by
    the pane counter, and every split has the ratio 0.5. *)
Theorem layout_stays_wellFormed (steps : list Step) :
  let res := (s0 ← initLayout; applySteps steps s0) resetIdCounters in
  exists state,
    res.1 = Some state
    /\ wellFormed state res.2
    /\ validateLayoutState state = [].
Proof.
  intros res.
  assert (res = applySteps steps (initLayout resetIdCounters).1
                           (initLayout resetIdCounters).2) as -> by done.
  destruct (initLayout resetIdCounters) as [s0 c0] eqn:Hinit.
  pose proof wellFormed_initLayout as Hwf0. rewrite Hinit in Hwf0.
  destruct (wellFormed_applySteps steps s0 c0 Hwf0) as (state & Hs & Hwf).
  exists state. split; [done|]. split; [done|].
  eapply LayoutFacts.validateLayoutState_valid. by apply wf_valid.
Qed.



End LayoutInvFacts.

(** ** renderer.ts: the grid and the dirty set *)

Module RendererStateFacts.
Import Renderer RendererSpec RendererInv.

Lemma blankRow_lookup (ncols c : Z) :
  blankRow ncols !! c = if decide (0 <= c < ncols) then Some blank else None.
Proof.
  unfold blankRow.
  assert (forall l : list Z,
            foldr (fun c row => <[c := blank]> row) (∅ : gmap Z GridCell) l !! c
            = if decide (c ∈ l) then Some blank else None) as H.
  { induction l as [|a l IH]; cbn [foldr].
    - rewrite lookup_empty. rewrite decide_False; [done|apply not_elem_of_nil].
    - destruct (decide (a = c)) as [->|Hne].
      + rewrite lookup_insert_eq. rewrite decide_True; [done|left].
      + rewrite lookup_insert_ne by done. rewrite IH.
        destruct (decide (c ∈ l)).
        * rewrite decide_True; [done|by right].
        * rewrite decide_False; [done|].
          rewrite elem_of_cons. intros [?|?]; congruence. }
  rewrite H.
  destruct (decide (0 <= c < ncols)).
  - rewrite decide_True; [done|]. apply elem_of_seqZ. lia.
  - rewrite decide_False; [done|]. rewrite elem_of_seqZ. lia.
Qed.

Lemma initGrid_lookup (r : Renderer) (i : Z) :
  grid (initGrid r) !! i
  = if decide (0 <= i < rows r) then Some (blankRow (cols r)) else None.
Proof.
  unfold initGrid. simpl.
  assert (forall l : list Z,
            foldr (fun i g => <[i := blankRow (cols r)]> g)
                  (∅ : gmap Z (gmap Z GridCell)) l !! i
            = if decide (i ∈ l) then Some (blankRow (cols r)) else None) as H.
  { induction l as [|a l IH]; cbn [foldr].
    - rewrite lookup_empty. rewrite decide_False; [done|apply not_elem_of_nil].
    - destruct (decide (a = i)) as [->|Hne].
      + rewrite lookup_insert_eq. rewrite decide_True; [done|left].
      + rewrite lookup_insert_ne by done. rewrite IH.
        destruct (decide (i ∈ l)).
        * rewrite decide_True; [done|by right].
        * rewrite decide_False; [done|].
          rewrite elem_of_cons. intros [?|?]; congruence. }
  rewrite H.
  destruct (decide (0 <= i < rows r)).
  - rewrite decide_True; [done|]. apply elem_of_seqZ. lia.
  - rewrite decide_False; [done|]. rewrite elem_of_seqZ. lia.
Qed.

Lemma elem_of_allCells (nrows ncols i c : Z) :
  (i, c) ∈ allCells nrows ncols <-> 0 <= i < nrows /\ 0 <= c < ncols.
Proof.
  unfold allCells. rewrite list_elem_of_bind. split.
  - intros (i' & Hc & Hi). apply list_elem_of_bind in Hc as (c' & Hc & Hc').
    apply list_elem_of_singleton in Hc. injection Hc as -> ->.
    apply elem_of_seqZ in Hi, Hc'. lia.
  - intros [Hi Hc]. exists i. split; [|apply elem_of_seqZ; lia].
    apply list_elem_of_bind. exists c. split; [|apply elem_of_seqZ; lia].
    by apply list_elem_of_singleton.
Qed.

Lemma gridOk_initGrid (r : Renderer) : gridOk (initGrid r).
Proof.
  intros i Hi. exists (blankRow (cols r)). split.
  - rewrite initGrid_lookup. by rewrite decide_True.
  - intros c Hc. rewrite blankRow_lookup. rewrite decide_True; [by eexists|].
    exact Hc.
Qed.

Lemma gridOk_same (r r' : Renderer) :
  rows r' = rows r -> cols r' = cols r -> grid r' = grid r ->
  gridOk r -> gridOk r'.
Proof. intros Hr Hc Hg Hok i. rewrite Hr, Hc, Hg. apply Hok. Qed.

Lemma gridOk_newRenderer (nrows ncols : Z) : gridOk (newRenderer nrows ncols).
Proof.
  unfold newRenderer.
  eapply gridOk_same; [| | |apply gridOk_initGrid]; done.
Qed.

Lemma gridOk_resize (nrows ncols : Z) (r : Renderer) :
  gridOk r -> gridOk (resize nrows ncols r).
Proof.
  intros Hok. unfold resize. case_decide; [done|].
  eapply gridOk_same; [| | |apply gridOk_initGrid]; done.
Qed.

Lemma write_written (r : Renderer) (row col : Z) (cells : list Cell)
      (line : gmap Z GridCell) :
  0 <= row < rows r -> grid r !! row = Some line ->
  let gcs := expandCells cells None in
  write row col cells r
  = Some (written r row (placeCells (cols r) col gcs line)
                  (dirtyCells r ∪ touchedCells row (cols r) col gcs)).
Proof.
  intros Hrow Hline gcs. unfold write. rewrite decide_False by lia.
  rewrite <- (WriteFacts.written_id r row line Hline) at 1.
  apply WriteFacts.writeCells_written.
Qed.

Lemma gridOk_write (row col : Z) (cells : list Cell) (r : Renderer) :
  gridOk r ->
  exists r', write row col cells r = Some r' /\ gridOk r'
             /\ rows r' = rows r /\ cols r' = cols r
             /\ dirtyCells r ⊆ dirtyCells r'.
Proof.
  intros Hok.
  destruct (decide (row < 0 \/ rows r <= row)) as [Hout|Hin].
  { exists r. unfold write. by rewrite decide_True. }
  destruct (Hok row) as (line & Hline & Hcells); [lia|].
  eexists. split; [apply (write_written r row col cells line); [lia|done]|].
  split; [|split; [done|split; [done|]]].
  - intros i Hi. unfold written. simpl in *.
    destruct (decide (i = row)) as [->|Hne].
    + eexists. rewrite lookup_insert_eq. split; [done|].
      intros c Hc. rewrite WriteFacts.placeCells_lookup.
      case_decide as Hd; [|by apply Hcells].
      apply lookup_lt_is_Some. lia.
    + rewrite lookup_insert_ne by done. by apply Hok.
  - unfold written. simpl. apply union_subseteq_l.
Qed.

(** [resize] by cases, and the grid of a new renderer. *)
Lemma resize_cases (nrows ncols : Z) (r : Renderer) :
  let r' := resize nrows ncols r in
  ((nrows = rows r /\ ncols = cols r) -> r' = r)
  /\ (~ (nrows = rows r /\ ncols = cols r) ->
      rows r' = nrows /\ cols r' = ncols
      /\ (forall i c, 0 <= i < nrows -> 0 <= c < ncols ->
            exists line, grid r' !! i = Some line /\ line !! c = Some blank)
      /\ (forall i c, (i, c) ∈ dirtyCells r'
                      <-> 0 <= i < nrows /\ 0 <= c < ncols)
      /\ styles r' = styles r /\ cursorState r' = cursorState r
      /\ selectionState r' = selectionState r /\ titleText r' = titleText r)
  /\ (let r0 := newRenderer nrows ncols in
      (forall i c, 0 <= i < nrows -> 0 <= c < ncols ->
         exists line, grid r0 !! i = Some line /\ line !! c = Some blank)
      /\ (forall i c, (i, c) ∈ dirtyCells r0
                      <-> 0 <= i < nrows /\ 0 <= c < ncols)).
Proof.
  intros r'. split; [|split].
  - intros Hsame. unfold r', resize. by rewrite decide_True.
  - intros Hdiff. unfold r', resize. rewrite decide_False by done.
    split; [done|]. split; [done|]. split; [|split; [|done]].
    + intros i c Hi Hc. exists (blankRow ncols). simpl. split.
      * pose proof (initGrid_lookup
                      (mkRenderer nrows ncols (grid r) (styles r)
                         (cursorState r) (selectionState r) (titleText r)
                         (dirtyCells r)) i) as Hl.
        simpl in Hl. rewrite Hl. by rewrite decide_True.
      * rewrite blankRow_lookup. by rewrite decide_True.
    + intros i c. simpl. rewrite elem_of_union, elem_of_list_to_set.
      rewrite elem_of_allCells, elem_of_empty. tauto.
  - split.
    + intros i c Hi Hc. exists (blankRow ncols). simpl. split.
      * pose proof (initGrid_lookup
                      (mkRenderer nrows ncols ∅ ∅ (mkCursorState 0 0 false block)
                         (mkSelectionState None None None None) EmptyString ∅)
                      i) as Hl.
        simpl in Hl. rewrite Hl. by rewrite decide_True.
      * rewrite blankRow_lookup. by rewrite decide_True.
    + intros i c. simpl. rewrite elem_of_union, elem_of_list_to_set.
      rewrite elem_of_allCells, elem_of_empty. tauto.
Qed.

(** X12 (Renderer constructor, initGrid, markAllDirty, resize).  A new
    renderer has a blank cell at every position of its area, all of them
    dirty.  [resize] to the size the renderer has changes nothing; to
    another size it blanks the whole area, whatever was on it, and leaves
    exactly the cells of the new area dirty, while styles, cursor,
    selection and title stay. *)
Theorem resize_blanks (nrows ncols : Z) (r : Renderer) :
  let r' := resize nrows ncols r in
  ((nrows = rows r /\ ncols = cols r) -> r' = r)
  /\ (~ (nrows = rows r /\ ncols = cols r) ->
      rows r' = nrows /\ cols r' = ncols
      /\ (forall i c, 0 <= i < nrows -> 0 <= c < ncols ->
            exists line, grid r' !! i = Some line /\ line !! c = Some blank)
      /\ (forall i c, (i, c) ∈ dirtyCells r'
                      <-> 0 <= i < nrows /\ 0 <= c < ncols)
      /\ styles r' = styles r /\ cursorState r' = cursorState r
      /\ selectionState r' = selectionState r /\ titleText r' = titleText r)
  /\ (let r0 := newRenderer nrows ncols in
      (forall i c, 0 <= i < nrows -> 0 <= c < ncols ->
         exists line, grid r0 !! i = Some line /\ line !! c = Some blank)
      /\ (forall i c, (i, c) ∈ dirtyCells r0
                      <-> 0 <= i < nrows /\ 0 <= c < ncols)).
Proof. exact (resize_cases nrows ncols r). Qed.

End RendererStateFacts.

(** ** layout.ts: redraw notifications *)

Module RedrawFacts.
Import Rpc Renderer RendererInv App AppSpec.

Lemma gridOk_style (id : Z) (a : StyleAttributes) (r : Renderer) :
  gridOk r -> gridOk (style id a r).
Proof. by apply RendererStateFacts.gridOk_same. Qed.

Lemma gridOk_title (text : string) (r : Renderer) :
  gridOk r -> gridOk (title text r).
Proof. by apply RendererStateFacts.gridOk_same. Qed.

Lemma gridOk_cursorPos (row col : Z) (vis : bool) (r : Renderer) :
  gridOk r -> gridOk (cursorPos row col vis r).
Proof. by apply RendererStateFacts.gridOk_same. Qed.

Lemma gridOk_cursorShape (n : Z) (r : Renderer) :
  gridOk r -> gridOk (cursorShape n r).
Proof. by apply RendererStateFacts.gridOk_same. Qed.

Lemma gridOk_selection (sr sc er ec : option Z) (r : Renderer) :
  gridOk r -> gridOk (selection sr sc er ec r).
Proof. by apply RendererStateFacts.gridOk_same. Qed.

Lemma store_safe (rs : gmap Z Renderer) (pty : Z) (model m : Renderer)
      (f : bool) :
  map_Forall (fun _ r => gridOk r) rs ->
  rs !! pty = Some model -> gridOk m ->
  exists rs' f',
    Some (<[pty := m]> rs, f) = Some (rs', f')
    /\ dom rs' = dom rs
    /\ map_Forall (fun _ r => gridOk r) rs'.
Proof.
  intros Hall Hpty Hm. eexists _, _. split; [done|]. split.
  - apply dom_insert_lookup_L. by eexists.
  - by apply map_Forall_insert_2.
Qed.

Lemma applyEvent_safe (event : value) (rs : gmap Z Renderer) (f : bool) :
  map_Forall (fun _ r => gridOk r) rs ->
  exists rs' f',
    applyEvent event (rs, f) = Some (rs', f')
    /\ dom rs' = dom rs
    /\ map_Forall (fun _ r => gridOk r) rs'.
Proof.
  intros Hall.
  assert (exists rs' f', Some (rs, f) = Some (rs', f') /\ dom rs' = dom rs
                         /\ map_Forall (fun _ r => gridOk r) rs') as Hskip
    by (by eexists _, _).
  unfold applyEvent.
  destruct event as [| | | | | |items|]; try exact Hskip.
  destruct items as [|e0 [|e1 [|e2 items]]]; try exact Hskip;
    [|by destruct e1].
  destruct e1 as [| | | | | |args|]; try exact Hskip.
  destruct (toString e0) as [name|]; [|exact Hskip].
  case_decide; [exact Hskip|].
  case_decide; [by eexists _, _|].
  case_decide.
  { destruct (toNumber (item args 0)) as [id|]; [|exact Hskip].
    eexists _, _. split; [done|]. split; [by rewrite dom_fmap_L|].
    apply map_Forall_fmap. eapply map_Forall_impl; [exact Hall|].
    intros k r. apply gridOk_style. }
  destruct (toNumber (item args 0)) as [pty|]; [|exact Hskip].
  destruct (rs !! pty) as [model|] eqn:Hpty; [|exact Hskip].
  pose proof (Hall _ _ Hpty) as Hmodel. simpl in Hmodel.
  repeat case_decide.
  - destruct (toNumber (item args 1)); [|exact Hskip].
    destruct (toNumber (item args 2)); [|exact Hskip].
    eapply store_safe; [done..|]. by apply RendererStateFacts.gridOk_resize.
  - destruct (toString (item args 1)); [|exact Hskip].
    eapply store_safe; [done..|]. by apply gridOk_title.
  - destruct (toNumber (item args 1)); [|exact Hskip].
    destruct (toNumber (item args 2)); [|exact Hskip].
    eapply store_safe; [done..|]. by apply gridOk_cursorPos.
  - destruct (toNumber (item args 1)); [|exact Hskip].
    eapply store_safe; [done..|]. by apply gridOk_cursorShape.
  - eapply store_safe; [done..|]. by apply gridOk_selection.
  - destruct (toNumber (item args 1)) as [row|]; [|exact Hskip].
    destruct (toNumber (item args 2)) as [col|]; [|exact Hskip].
    destruct (RendererStateFacts.gridOk_write row col
                (parseWriteCells (item args 3)) model Hmodel)
      as (r' & -> & Hok & _).
    simpl. by eapply store_safe.
  - exact Hskip.
Qed.

Lemma applyEvents_safe (events : list value) :
  forall (rs : gmap Z Renderer) (f : bool),
    map_Forall (fun _ r => gridOk r) rs ->
    exists rs' f',
      applyEvents events (rs, f) = Some (rs', f')
      /\ dom rs' = dom rs
      /\ map_Forall (fun _ r => gridOk r) rs'.
Proof.
  induction events as [|event events IH]; intros rs f Hall.
  - by eexists _, _.
  - destruct (applyEvent_safe event rs f Hall) as (rs1 & f1 & Hev & Hdom & Hall1).
    cbn [applyEvents]. rewrite Hev. cbn [mbind option_bind].
    destruct (IH rs1 f1 Hall1) as (rs' & f' & Hevs & Hdom' & Hall').
    exists rs', f'. split; [done|]. split; [congruence|done].
Qed.

(** X13 (applyRedraw with toNumber, toString, toStyleAttributes,
    parseWriteCells and the Renderer methods).  A redraw notification
    that is worked off keeps the renderers and their grids in shape: when
    every renderer has a cell at each position of its area before, and
    [applyRedraw] returns, it has neither added nor removed a renderer and
    every renderer has a cell at each position of its area afterwards,
    also after a [resize].  Renderers made by the constructor are in that
    shape. *)
Theorem applyRedraw_keeps_grids (renderersByPtyId renderers' : gmap Z Renderer)
        (params : value) (shouldFlush : bool) :
  map_Forall (fun _ r => gridOk r) renderersByPtyId ->
  applyRedraw renderersByPtyId params = Some (renderers', shouldFlush) ->
  dom renderers' = dom renderersByPtyId
  /\ map_Forall (fun _ r => gridOk r) renderers'
  /\ forall nrows ncols, gridOk (newRenderer nrows ncols).
Proof.
  intros Hall Hrun.
  assert (exists rs' f',
            applyRedraw renderersByPtyId params = Some (rs', f')
            /\ dom rs' = dom renderersByPtyId
            /\ map_Forall (fun _ r => gridOk r) rs')
    as (rs' & f' & Hrun' & Hdom & Hall').
  { clear Hrun. unfold applyRedraw.
    destruct params; try (by eexists _, _).
    by apply applyEvents_safe. }
  rewrite Hrun in Hrun'. injection Hrun' as <- <-.
  split; [done|]. split; [done|].
  apply RendererStateFacts.gridOk_newRenderer.
Qed.

Lemma applyRedraw_keeps_grids_witness :
  let rs : gmap Z Renderer := {[ 7 := newRenderer 2 3 ]} in
  let params :=
    VArr [VArr [VStr "write";
                VArr [VNum 7; VNum 0; VNum 1;
                      VArr [VArr [VStr "a"; VNum 4; VNum 5]]]];
          VArr [VStr "resize"; VArr [VNum 7; VNum 3; VNum 2]];
          VArr [VStr "flush"; VArr []]] in
  exists renderers',
    applyRedraw rs params = Some (renderers', true)
    /\ dom renderers' = dom rs
    /\ map_Forall (fun _ r => gridOk r) renderers'.
Proof.
  intros rs params.
  assert (map_Forall (fun _ r => gridOk r) rs) as Hall.
  { apply map_Forall_singleton.
    intros i Hi. simpl in Hi.
    assert (i = 0 \/ i = 1) as Hi' by lia.
    destruct Hi' as [->| ->];
      (eexists; split; [vm_compute; reflexivity|]);
      intros c Hc; simpl in Hc;
      assert (c = 0 \/ c = 1 \/ c = 2) as Hc' by lia;
      destruct Hc' as [->|[->| ->]]; vm_compute; by eexists. }
  destruct (applyRedraw rs params) as [[renderers' shouldFlush]|] eqn:Hrun;
    [|vm_compute in Hrun; discriminate].
  assert (shouldFlush = true) as ->.
  { vm_compute in Hrun. by injection Hrun as _ <-. }
  exists renderers'. split; [reflexivity|].
  destruct (applyRedraw_keeps_grids rs renderers' params true Hall Hrun)
    as (Hdom & Hall' & _).
  split; [exact Hdom|exact Hall'].
Defined.

Lemma untouched_refl (a : option Renderer) : untouched a a.
Proof. destruct a; simpl; [|done]. by repeat split. Qed.

Lemma untouched_trans (a b c : option Renderer) :
  untouched a b -> untouched b c -> untouched a c.
Proof.
  destruct a, b, c; simpl; try done.
  unfold sameScreen. intros (?&?&?&?&?&?&?) (?&?&?&?&?&?&?).
  repeat split; congruence.
Qed.

Lemma applyEvent_scope (event : value) (rs rs' : gmap Z Renderer)
      (f f' : bool) (q : Z) :
  applyEvent event (rs, f) = Some (rs', f') ->
  f' = f || isFlush event
  /\ (addressee event <> Some q -> untouched (rs !! q) (rs' !! q)).
Proof.
  assert (forall b, b = false ->
            Some (rs, f) = Some (rs', f') ->
            f' = f || b /\ (addressee event <> Some q ->
                            untouched (rs !! q) (rs' !! q))) as Hskip.
  { intros b -> [= <- <-]. rewrite orb_false_r. split; [done|].
    intros _. apply untouched_refl. }
  unfold applyEvent.
  destruct event as [| | | | | |items|]; try (by apply Hskip).
  destruct items as [|e0 [|e1 [|e2 items]]]; try (by apply Hskip);
    try (destruct e0; by apply Hskip);
    try (destruct e0, e1; by apply Hskip).
  destruct e1 as [| | | | | |args|]; try (destruct e0; by apply Hskip).
  destruct e0 as [| | | |name| | |]; try (by apply Hskip).
  cbn [toString isFlush].
  case_decide as Hempty; [subst name; by apply Hskip|].
  case_decide as Hflush.
  { intros [= <- <-]. subst name. rewrite orb_true_r. split; [done|].
    intros _. apply untouched_refl. }
  rewrite bool_decide_eq_false_2 by done.
  case_decide as Hstyle.
  { destruct (toNumber (item args 0)) as [id|]; [|by apply Hskip].
    intros [= <- <-]. rewrite orb_false_r. split; [done|]. intros _.
    rewrite lookup_fmap. destruct (rs !! q) as [r|]; simpl; [|done].
    by repeat split. }
  assert (addressee (VArr [VStr name; VArr args]) = toNumber (item args 0))
    as Haddr by (unfold addressee; by rewrite decide_False by tauto).
  rewrite Haddr in Hskip |- *. clear Haddr.
  destruct (toNumber (item args 0)) as [pty|]; [|by apply Hskip].
  destruct (rs !! pty) as [model|] eqn:Hpty; [|by apply Hskip].
  assert (forall m, Some (<[pty := m]> rs, f) = Some (rs', f') ->
            f' = f || false
            /\ (Some pty <> Some q -> untouched (rs !! q) (rs' !! q)))
    as Hstore.
  { intros m [= <- <-]. rewrite orb_false_r. split; [done|]. intros Hne.
    rewrite lookup_insert_ne by congruence. apply untouched_refl. }
  repeat case_decide;
    repeat match goal with
           | |- context [match toNumber ?v with _ => _ end] =>
               destruct (toNumber v)
           | |- context [match toString ?v with _ => _ end] =>
               destruct (toString v)
           end;
    try (by apply Hskip); try (by apply Hstore).
  destruct (write _ _ _ model) as [model'|]; [|done]. by apply Hstore.
Qed.

Lemma applyEvents_scope (events : list value) (q : Z) :
  forall (rs rs' : gmap Z Renderer) (f f' : bool),
    applyEvents events (rs, f) = Some (rs', f') ->
    f' = f || existsb isFlush events
    /\ ((forall e, e ∈ events -> addressee e <> Some q) ->
        untouched (rs !! q) (rs' !! q)).
Proof.
  induction events as [|event events IH]; intros rs rs' f f'.
  - intros [= <- <-]. rewrite orb_false_r. split; [done|].
    intros _. apply untouched_refl.
  - cbn [applyEvents existsb].
    destruct (applyEvent event (rs, f)) as [[rs1 f1]|] eqn:Hev; [|done].
    cbn [mbind option_bind]. intros Hevs.
    apply (applyEvent_scope _ _ _ _ _ q) in Hev as [-> Hq1].
    apply IH in Hevs as [-> Hq].
    split; [by rewrite orb_assoc|].
    intros Hall. eapply untouched_trans.
    + apply Hq1, Hall. left.
    + apply Hq. intros e He. apply Hall. by right.
Qed.

(** X14 (applyRedraw).  [applyRedraw] answers [true] exactly when the
    parameters are an array that holds a [flush] event; and a renderer
    that none of the events is addressed to stays in the map with its
    size, grid, cursor, selection, title and dirty cells: only [style]
    events, which go to every renderer, may have changed its styles. *)
Theorem applyRedraw_scope (renderersByPtyId renderers' : gmap Z Renderer)
        (params : value) (shouldFlush : bool) :
  applyRedraw renderersByPtyId params = Some (renderers', shouldFlush) ->
  (shouldFlush = true <->
   exists events e,
     params = VArr events /\ e ∈ events /\ isFlush e = true)
  /\ (forall q,
        (forall events e,
           params = VArr events -> e ∈ events -> addressee e <> Some q) ->
        untouched (renderersByPtyId !! q) (renderers' !! q)).
Proof.
  unfold applyRedraw. intros Hrun.
  destruct params as [| | | | | |events|];
    try (injection Hrun as <- <-; split;
         [split; [done|by intros (? & ? & ? & _)]
         |intros q _; apply untouched_refl]).
  split.
  - pose proof (applyEvents_scope events 0 _ _ _ _ Hrun) as [Hflush _].
    rewrite Hflush. simpl.
    rewrite existsb_exists. split.
    + intros (e & He & Hf). exists events, e.
      split; [done|]. split; [by apply list_elem_of_In|done].
    + intros (events' & e & [= <-] & He & Hf). exists e.
      split; [by apply list_elem_of_In|done].
  - intros q Hq.
    pose proof (applyEvents_scope events q _ _ _ _ Hrun) as [_ Hun].
    apply Hun. intros e He. by apply (Hq events).
Qed.

Lemma applyRedraw_scope_witness :
  let rs : gmap Z Renderer := {[ 7 := newRenderer 2 3; 8 := newRenderer 1 1 ]} in
  let params :=
    VArr [VArr [VStr "cursor_pos"; VArr [VNum 7; VNum 0; VNum 1; VBool true]];
          VArr [VStr "flush"; VArr []]] in
  let rs' : gmap Z Renderer :=
    {[ 7 := cursorPos 0 1 true (newRenderer 2 3); 8 := newRenderer 1 1 ]} in
  applyRedraw rs params = Some (rs', true)
  /\ (true = true <->
      exists events e,
        params = VArr events /\ e ∈ events /\ isFlush e = true)
  /\ (forall q,
        (forall events e,
           params = VArr events -> e ∈ events -> addressee e <> Some q) ->
        untouched (rs !! q) (rs' !! q)).
Proof.
  intros rs params rs'.
  assert (applyRedraw rs params = Some (rs', true)) as Hrun.
  { vm_compute. reflexivity. }
  split; [exact Hrun|].
  exact (applyRedraw_scope rs rs' params true Hrun).
Defined.

End RedrawFacts.

(** ** renderer.ts: colours and drawing *)

Module PaintFacts.
Import Buffer Renderer RendererSpec RendererInv.

Lemma rgbFromU32_arith (rgb : Z) :
  rgbFromU32 rgb
  = mkRgb ((rgb / 65536) `mod` 256) ((rgb / 256) `mod` 256) (rgb `mod` 256).
Proof.
  unfold rgbFromU32. change 0xff with (Z.ones 8).
  rewrite !Z.land_ones, !Z.shiftr_div_pow2 by lia. done.
Qed.

Lemma colourOf_low (rgb : Z) : colourOf (Z.land rgb 0xffffff) = colourOf rgb.
Proof.
  change 0xffffff with (Z.ones 24). rewrite Z.land_ones by lia.
  unfold colourOf. change (2 ^ 24) with 16777216.
  f_equal; Z.to_euclidean_division_equations; lia.
Qed.

(** The key that [rgbaForIndex] packs. *)
Lemma xterm_key (idx : Z) :
  let c := xtermIndexToRgb idx in
  colourOf (Z.lor (Z.lor (Z.shiftl (r_ c) 16) (Z.shiftl (g_ c) 8)) (b_ c))
  = fromInts (r_ c) (g_ c) (b_ c).
Proof.
  assert (forallb
            (fun i =>
               let c := xtermIndexToRgb i in
               let k := Z.lor (Z.lor (Z.shiftl (r_ c) 16) (Z.shiftl (g_ c) 8))
                              (b_ c) in
               ((k / 65536) `mod` 256 =? r_ c)
               && ((k / 256) `mod` 256 =? g_ c)
               && (k `mod` 256 =? b_ c))
            (seqZ (-1) 257) = true) as Hall by (vm_compute; reflexivity).
  rewrite forallb_forall in Hall.
  assert (exists i, i ∈ seqZ (-1) 257
                    /\ xtermIndexToRgb idx = xtermIndexToRgb i) as (i & Hi & ->).
  { destruct (decide (0 <= idx <= 255)) as [Hin|Hout].
    - exists idx. split; [apply elem_of_seqZ; lia|done].
    - exists (-1). split; [apply elem_of_seqZ; lia|].
      unfold xtermIndexToRgb. by rewrite !decide_False by lia. }
  apply list_elem_of_In, Hall in Hi. simpl in Hi.
  apply andb_true_iff in Hi as [Hi Hb]. apply andb_true_iff in Hi as [Hr Hg].
  apply Z.eqb_eq in Hr, Hg, Hb. simpl. unfold colourOf. congruence.
Qed.

Lemma cacheOk_insert (key : Z) (c : RGBA) (cache : gmap Z RGBA) :
  cacheOk cache -> c = colourOf key -> cacheOk (<[key := c]> cache).
Proof.
  intros Hok Hc k c'. destruct (decide (k = key)) as [->|Hne].
  - rewrite lookup_insert_eq. congruence.
  - rewrite lookup_insert_ne by done. apply Hok.
Qed.

Lemma cacheOk_initial : cacheOk initialCache.
Proof.
  unfold initialCache. apply cacheOk_insert; [|done].
  apply cacheOk_insert; [|done]. by intros k c.
Qed.

Lemma rgbaFor_sound (rgb : Z) (cache : gmap Z RGBA) :
  cacheOk cache ->
  (rgbaFor rgb cache).1 = colourOf rgb /\ cacheOk (rgbaFor rgb cache).2.
Proof.
  intros Hok. unfold rgbaFor.
  destruct (cache !! Z.land rgb 0xffffff) as [cached|] eqn:Hc; cbn [fst snd].
  - split; [|done]. rewrite (Hok _ _ Hc). apply colourOf_low.
  - rewrite rgbFromU32_arith. cbn [r_ g_ b_].
    fold (colourOf (Z.land rgb 0xffffff)). rewrite colourOf_low.
    split; [done|]. apply cacheOk_insert; [done|].
    symmetry. apply colourOf_low.
Qed.

Lemma rgbaForIndex_sound (idx : Z) (cache : gmap Z RGBA) :
  cacheOk cache ->
  (rgbaForIndex idx cache).1
  = fromInts (r_ (xtermIndexToRgb idx)) (g_ (xtermIndexToRgb idx))
             (b_ (xtermIndexToRgb idx))
  /\ cacheOk (rgbaForIndex idx cache).2.
Proof.
  intros Hok. unfold rgbaForIndex. pose proof (xterm_key idx) as Hkey.
  simpl in Hkey.
  destruct (cache !! _) as [cached|] eqn:Hc; simpl.
  - split; [|done]. by rewrite (Hok _ _ Hc).
  - split; [done|]. by apply cacheOk_insert.
Qed.

(** X15 (rgbFromU32, rgbaFor, rgbaForIndex).  The colour cache is sound:
    it starts with the right colours for its two keys, and with a cache
    that holds for every key the colour of that key, [rgbaFor] answers the
    colour whose components are bits 16 to 23, 8 to 15 and 0 to 7 of its
    argument, [rgbaForIndex] answers the colour of [xtermIndexToRgb], and
    both leave the cache in that state, although they share it. *)
Theorem rgbaCache_sound :
  cacheOk initialCache
  /\ forall cache,
       cacheOk cache ->
       (forall rgb,
          (rgbaFor rgb cache).1
          = fromInts ((rgb / 65536) `mod` 256) ((rgb / 256) `mod` 256)
                     (rgb `mod` 256)
          /\ cacheOk (rgbaFor rgb cache).2)
       /\ (forall idx,
             (rgbaForIndex idx cache).1
             = fromInts (r_ (xtermIndexToRgb idx)) (g_ (xtermIndexToRgb idx))
                        (b_ (xtermIndexToRgb idx))
             /\ cacheOk (rgbaForIndex idx cache).2).
Proof.
  split; [apply cacheOk_initial|]. intros cache Hok. split.
  - intros rgb. by apply rgbaFor_sound.
  - intros idx. by apply rgbaForIndex_sound.
Qed.

Lemma rgbaCache_sound_witness :
  cacheOk initialCache
  /\ (forall rgb,
        (rgbaFor rgb initialCache).1
        = fromInts ((rgb / 65536) `mod` 256) ((rgb / 256) `mod` 256)
                   (rgb `mod` 256)
        /\ cacheOk (rgbaFor rgb initialCache).2)
  /\ (forall idx,
        (rgbaForIndex idx initialCache).1
        = fromInts (r_ (xtermIndexToRgb idx)) (g_ (xtermIndexToRgb idx))
                   (b_ (xtermIndexToRgb idx))
        /\ cacheOk (rgbaForIndex idx initialCache).2).
Proof.
  split; [exact (proj1 rgbaCache_sound)|].
  exact (proj2 rgbaCache_sound initialCache (proj1 rgbaCache_sound)).
Defined.

Lemma colour_stage (v i : option Z) (d : RGBA) (cache : gmap Z RGBA) :
  cacheOk cache ->
  let s := match v with
           | Some v => rgbaFor v cache
           | None => match i with
                     | Some i => rgbaForIndex i cache
                     | None => (d, cache)
                     end
           end in
  cacheOk s.2
  /\ s.1 = match v with
            | Some v => colourOf v
            | None =>
                match i with
                | Some i =>
                    fromInts (r_ (xtermIndexToRgb i)) (g_ (xtermIndexToRgb i))
                             (b_ (xtermIndexToRgb i))
                | None => d
                end
            end.
Proof.
  intros Hok. destruct v as [v|]; [|destruct i as [i|]]; simpl.
  - destruct (rgbaFor_sound v cache Hok). done.
  - destruct (rgbaForIndex_sound i cache Hok). done.
  - done.
Qed.

Lemma styleColours_cache (a : StyleAttributes) (c1 c2 : gmap Z RGBA) :
  cacheOk c1 -> cacheOk c2 ->
  (styleColours a c1).1 = (styleColours a c2).1
  /\ cacheOk (styleColours a c1).2.
Proof.
  intros Hok1 Hok2. unfold styleColours.
  destruct (colour_stage (fg a) (fg_idx a) DEFAULT_FG c1 Hok1) as [Hf1 Ef1].
  destruct (colour_stage (fg a) (fg_idx a) DEFAULT_FG c2 Hok2) as [Hf2 Ef2].
  destruct (match fg a with
            | Some v => rgbaFor v c1
            | None => match fg_idx a with
                      | Some i => rgbaForIndex i c1
                      | None => (DEFAULT_FG, c1)
                      end
            end) as [fg1 c1'].
  destruct (match fg a with
            | Some v => rgbaFor v c2
            | None => match fg_idx a with
                      | Some i => rgbaForIndex i c2
                      | None => (DEFAULT_FG, c2)
                      end
            end) as [fg2 c2'].
  cbn [fst snd] in *.
  destruct (colour_stage (bg a) (bg_idx a) DEFAULT_BG c1' Hf1) as [Hb1 Eb1].
  destruct (colour_stage (bg a) (bg_idx a) DEFAULT_BG c2' Hf2) as [Hb2 Eb2].
  destruct (match bg a with
            | Some v => rgbaFor v c1'
            | None => match bg_idx a with
                      | Some i => rgbaForIndex i c1'
                      | None => (DEFAULT_BG, c1')
                      end
            end) as [bg1 c1''].
  destruct (match bg a with
            | Some v => rgbaFor v c2'
            | None => match bg_idx a with
                      | Some i => rgbaForIndex i c2'
                      | None => (DEFAULT_BG, c2')
                      end
            end) as [bg2 c2''].
  cbn [fst snd] in *.
  assert (fg1 = fg2) as -> by congruence.
  assert (bg1 = bg2) as -> by congruence.
  by destruct (default false (reverse a)).
Qed.

Lemma paintCell_cache (r : Renderer) (f : bool) (ox oy row col : Z)
      (c1 c2 : gmap Z RGBA) :
  cacheOk c1 -> cacheOk c2 ->
  fst <$> paintCell r f ox oy row col c1
  = fst <$> paintCell r f ox oy row col c2
  /\ (forall call c1',
        paintCell r f ox oy row col c1 = Some (call, c1') ->
        cacheOk c1' /\ sc_x call = col + ox /\ sc_y call = row + oy).
Proof.
  intros Hok1 Hok2. unfold paintCell.
  destruct (grid r !! row) as [line|]; [|done]. cbn [mbind option_bind].
  destruct (line !! col) as [cell|]; [|done]. cbn [mbind option_bind].
  destruct (gc_style_id cell) as [styleId|];
    [destruct (styles r !! styleId) as [sty|]|].
  - destruct (styleColours_cache (attrs sty) c1 c2 Hok1 Hok2) as [Heq Hok].
    destruct (styleColours (attrs sty) c1) as [[[fg1 bg1] bits1] c1'].
    destruct (styleColours (attrs sty) c2) as [[[fg2 bg2] bits2] c2'].
    cbn [fst snd] in *. injection Heq as -> -> ->.
    split; [done|]. by intros call c [= <- <-].
  - split; [done|]. by intros call c [= <- <-].
  - split; [done|]. by intros call c [= <- <-].
Qed.

Lemma paintCell_is_Some (r : Renderer) (f : bool) (ox oy row col : Z)
      (cache : gmap Z RGBA) :
  gridOk r -> 0 <= row < rows r -> 0 <= col < cols r ->
  is_Some (paintCell r f ox oy row col cache).
Proof.
  intros Hok Hrow Hcol. unfold paintCell.
  destruct (Hok row Hrow) as (line & -> & Hline). cbn [mbind option_bind].
  destruct (Hline col Hcol) as [cell ->]. cbn [mbind option_bind].
  repeat case_match; by eexists.
Qed.

Lemma paintCells_cache (r : Renderer) (f : bool) (ox oy : Z)
      (cells : list (Z * Z)) :
  forall c1 c2,
    cacheOk c1 -> cacheOk c2 ->
    fst <$> paintCells r f ox oy cells c1
    = fst <$> paintCells r f ox oy cells c2
    /\ (forall calls c1',
          paintCells r f ox oy cells c1 = Some (calls, c1') ->
          cacheOk c1'
          /\ (fun c => (sc_x c, sc_y c)) <$> calls
             = (fun '(row, col) => (col + ox, row + oy)) <$> cells).
Proof.
  induction cells as [|[row col] cells IH]; intros c1 c2 Hok1 Hok2.
  - split; [done|]. by intros calls c [= <- <-].
  - cbn [paintCells].
    destruct (paintCell_cache r f ox oy row col c1 c2 Hok1 Hok2) as [Heq Hone].
    destruct (paintCell_cache r f ox oy row col c2 c1 Hok2 Hok1) as [_ Hone2].
    destruct (paintCell r f ox oy row col c1) as [[call1 c1']|] eqn:H1;
      destruct (paintCell r f ox oy row col c2) as [[call2 c2']|] eqn:H2;
      try done; cbn [mbind option_bind fmap option_fmap option_map] in *.
    injection Heq as ->.
    destruct (Hone _ _ eq_refl) as (Hok1' & Hx & Hy).
    destruct (Hone2 _ _ eq_refl) as (Hok2' & _ & _).
    destruct (IH c1' c2' Hok1' Hok2') as [Heqs Hall].
    destruct (paintCells r f ox oy cells c1') as [[calls1 d1]|];
      destruct (paintCells r f ox oy cells c2') as [[calls2 d2]|];
      try done; cbn [mbind option_bind fmap option_fmap option_map] in *.
    injection Heqs as ->. split; [done|].
    intros calls c [= <- <-]. destruct (Hall _ _ eq_refl) as [Hokd Hpos].
    split; [done|]. rewrite !fmap_cons. by rewrite Hpos, Hx, Hy.
Qed.

Lemma paintCells_is_Some (r : Renderer) (f : bool) (ox oy : Z)
      (cells : list (Z * Z)) :
  gridOk r ->
  Forall (fun '(row, col) => 0 <= row < rows r /\ 0 <= col < cols r) cells ->
  forall cache, cacheOk cache ->
                is_Some (paintCells r f ox oy cells cache).
Proof.
  intros Hgrid. induction 1 as [|[row col] cells [Hrow Hcol] _ IH];
    intros cache Hok; [by eexists|].
  cbn [paintCells].
  destruct (paintCell_is_Some r f ox oy row col cache Hgrid Hrow Hcol)
    as [[call c1] Hcell].
  rewrite Hcell. cbn [mbind option_bind].
  destruct (paintCell_cache r f ox oy row col cache cache Hok Hok) as [_ Hone].
  destruct (Hone _ _ Hcell) as (Hok1 & _).
  destruct (IH c1 Hok1) as [[calls c2] ->]. by eexists.
Qed.

(** X16 (renderToBuffer).  Whatever [renderToBuffer] draws, it draws
    inside the viewport: when it returns, every cell it has set lies in
    the rectangle of the given width and height at the offsets.  A full
    redraw that returns has set one cell for each position that the grid
    and the viewport share, row by row.  What is drawn does not depend on
    what the colour cache holds, and the cache stays sound. *)
Theorem renderToBuffer_viewport (r : Renderer) (opts : RenderOpts)
        (cache cache' : gmap Z RGBA) (calls : list SetCell) :
  cacheOk cache ->
  renderToBuffer r opts cache = Some (calls, cache') ->
  let offsetX := default 0 (opt_offsetX opts) in
  let offsetY := default 0 (opt_offsetY opts) in
  cacheOk cache'
  /\ (forall c, c ∈ calls ->
        pointInRect (sc_x c) (sc_y c)
          (mkRect offsetX offsetY (opt_width opts) (opt_height opts))
        = true)
  /\ (opt_forceFullRedraw opts = Some true ->
      (fun c => (sc_x c, sc_y c)) <$> calls
      = (fun '(row, col) => (col + offsetX, row + offsetY))
          <$> allCells (Z.min (opt_height opts) (rows r))
                       (Z.min (opt_width opts) (cols r)))
  /\ (forall cache2,
        cacheOk cache2 ->
        fst <$> renderToBuffer r opts cache2 = Some calls).
Proof.
  intros Hok Hdrawn offsetX offsetY.
  set (isFocused := default true (opt_isFocused opts)).
  set (cells :=
         if default false (opt_forceFullRedraw opts)
         then allCells (Z.min (opt_height opts) (rows r))
                       (Z.min (opt_width opts) (cols r))
         else filter (fun '(row, col) =>
                        ~ (row < 0 \/ col < 0)
                        /\ ~ (opt_height opts <= row \/ opt_width opts <= col)
                        /\ ~ (rows r <= row \/ cols r <= col))
                     (elements (dirtyCells r))).
  assert (forall c, renderToBuffer r opts c
                    = paintCells r isFocused offsetX offsetY cells c) as Hrun.
  { intros c. unfold renderToBuffer, cells.
    by destruct (default false (opt_forceFullRedraw opts)). }
  assert (Forall (fun '(row, col) =>
                    (0 <= row < rows r /\ 0 <= col < cols r)
                    /\ row < opt_height opts /\ col < opt_width opts) cells)
    as Hcells.
  { apply Forall_forall. intros [row col] Hin. unfold cells in Hin.
    destruct (default false (opt_forceFullRedraw opts)).
    - apply RendererStateFacts.elem_of_allCells in Hin. lia.
    - apply list_elem_of_filter in Hin as [Hin _]. lia. }
  rewrite Hrun in Hdrawn.
  destruct (paintCells_cache r isFocused offsetX offsetY cells cache cache
              Hok Hok) as [_ Hall].
  destruct (Hall _ _ Hdrawn) as [Hok' Hpos].
  split; [done|]. split; [|split].
  - intros c Hc.
    assert ((sc_x c, sc_y c) ∈ (fun c => (sc_x c, sc_y c)) <$> calls) as Hin
      by (apply list_elem_of_fmap; by exists c).
    rewrite Hpos in Hin.
    apply list_elem_of_fmap in Hin as ([row col] & Heq & Hin).
    injection Heq as -> ->.
    pose proof (proj1 (Forall_forall _ _) Hcells _ Hin) as Hb. simpl in Hb.
    apply BufferFacts.pointInRect_true. simpl. lia.
  - intros Hfull. rewrite Hpos. unfold cells. by rewrite Hfull.
  - intros cache2 Hok2. rewrite Hrun.
    destruct (paintCells_cache r isFocused offsetX offsetY cells cache2 cache
                Hok2 Hok) as [-> _].
    by rewrite Hdrawn.
Qed.

Lemma renderToBuffer_viewport_witness :
  let r := newRenderer 2 3 in
  let opts := mkRenderOpts 2 5 (Some 10) (Some 20) None (Some true) in
  exists calls cache',
    renderToBuffer r opts initialCache = Some (calls, cache')
    /\ (fun c => (sc_x c, sc_y c)) <$> calls
       = [(10, 20); (11, 20); (10, 21); (11, 21)]
    /\ (forall c, c ∈ calls ->
          pointInRect (sc_x c) (sc_y c) (mkRect 10 20 2 5) = true).
Proof.
  intros r opts.
  assert (cacheOk initialCache) as Hok.
  { intros key c. unfold initialCache.
    destruct (decide (key = 0)) as [->|H0].
    - rewrite lookup_insert_eq. by intros [= <-].
    - rewrite lookup_insert_ne by done.
      destruct (decide (key = 0xdcdcdc)) as [->|H1].
      + rewrite lookup_insert_eq. by intros [= <-].
      + rewrite lookup_insert_ne by done. by rewrite lookup_empty. }
  destruct (renderToBuffer r opts initialCache) as [[calls cache']|] eqn:Hrun;
    [|vm_compute in Hrun; discriminate].
  destruct (renderToBuffer_viewport r opts initialCache cache' calls Hok Hrun)
    as (_ & Hin & Hfull & _).
  exists calls, cache'. split; [reflexivity|].
  split; [exact (Hfull eq_refl)|exact Hin].
Defined.


(** *** The dirty set *)

Lemma paintCell_ext (r1 r2 : Renderer) (f : bool) (ox oy row col : Z)
      (cache : gmap Z RGBA) :
  (grid r1 !! row ≫= fun line => line !! col)
  = (grid r2 !! row ≫= fun line => line !! col) ->
  styles r1 = styles r2 ->
  shape (cursorState r1) = shape (cursorState r2) ->
  (visible (cursorState r1)
   && bool_decide (cur_row (cursorState r1) = row)
   && bool_decide (cur_col (cursorState r1) = col))
  = (visible (cursorState r2)
     && bool_decide (cur_row (cursorState r2) = row)
     && bool_decide (cur_col (cursorState r2) = col)) ->
  paintCell r1 f ox oy row col cache = paintCell r2 f ox oy row col cache.
Proof.
  intros Hcell Hsty Hshape Hcur. unfold paintCell.
  rewrite <- !andb_assoc.
  rewrite !(andb_assoc (visible _)), Hcur, Hsty, Hshape.
  destruct (grid r1 !! row) as [l1|], (grid r2 !! row) as [l2|];
    cbn [mbind option_bind] in *.
  - by rewrite Hcell.
  - by rewrite Hcell.
  - by rewrite <- Hcell.
  - done.
Qed.

(** What holds between the updates: the grid is whole, the styles are
    those of the start, and a cell of the area that is not dirty is drawn
    as at the start. *)
Lemma clean_update (u : Update) (r0 r : Renderer) :
  gridOk r -> styles r = styles r0 ->
  (forall row col, 0 <= row < rows r -> 0 <= col < cols r ->
     (row, col) ∉ dirtyCells r ->
     forall f ox oy cache,
       paintCell r f ox oy row col cache = paintCell r0 f ox oy row col cache) ->
  exists r',
    update u r = Some r' /\ gridOk r' /\ styles r' = styles r0
    /\ (forall row col, 0 <= row < rows r' -> 0 <= col < cols r' ->
          (row, col) ∉ dirtyCells r' ->
          forall f ox oy cache,
            paintCell r' f ox oy row col cache
            = paintCell r0 f ox oy row col cache).
Proof.
  intros Hgrid Hsty Hclean.
  destruct u as [row0 col0 cells|row0 col0 vis|nrows ncols|text|sr sc er ec];
    cbn [update].
  - (* write *)
    destruct (decide (row0 < 0 \/ rows r <= row0)) as [Hout|Hin].
    { exists r. unfold write. by rewrite decide_True. }
    destruct (Hgrid row0) as (line & Hline & Hcells); [lia|].
    destruct (RendererStateFacts.gridOk_write row0 col0 cells r Hgrid)
      as (r' & Hw & Hgrid' & Hrows & Hcols & Hsub).
    exists r'. split; [done|]. split; [done|].
    rewrite (RendererStateFacts.write_written r row0 col0 cells line) in Hw
      by (done || lia).
    injection Hw as <-. split; [done|].
    intros row col Hrow Hcol Hdirty f ox oy cache.
    cbn [written set_dirtyCells set_grid rows cols dirtyCells] in *.
    rewrite <- Hclean; [|done|done|].
    + apply paintCell_ext; try done. cbn [written set_dirtyCells set_grid grid].
      destruct (decide (row = row0)) as [->|Hne].
      * rewrite lookup_insert_eq, Hline. cbn [mbind option_bind].
        rewrite WriteFacts.placeCells_lookup. case_decide as Hd; [|done].
        destruct Hdirty. apply elem_of_union. right.
        apply WriteFacts.touchedCells_elem. lia.
      * by rewrite lookup_insert_ne.
    + intros Hd. apply Hdirty. apply elem_of_union. by left.
  - (* cursorPos *)
    eexists. split; [done|]. split; [by apply RedrawFacts.gridOk_cursorPos|].
    split; [done|].
    intros row col Hrow Hcol Hdirty f ox oy cache.
    cbn [cursorPos rows cols dirtyCells] in *.
    rewrite !not_elem_of_union, !not_elem_of_singleton in Hdirty.
    destruct Hdirty as [[Hd Hold] Hnew].
    rewrite <- Hclean; [|done|done|done].
    apply paintCell_ext; try done. cbn [cursorPos cursorState visible cur_row cur_col].
    assert (bool_decide (row0 = row) && bool_decide (col0 = col) = false) as Hn.
    { apply andb_false_iff.
      destruct (decide (row0 = row)) as [->|]; [right|left];
        apply bool_decide_eq_false; congruence. }
    assert (bool_decide (cur_row (cursorState r) = row)
            && bool_decide (cur_col (cursorState r) = col) = false) as Ho.
    { apply andb_false_iff.
      destruct (decide (cur_row (cursorState r) = row)) as [Heq|]; [right|left];
        apply bool_decide_eq_false; [|done].
      intros Hc. apply Hold. by rewrite <- Heq, <- Hc. }
    by rewrite <- !andb_assoc, Hn, Ho, !andb_false_r.
  - (* resize *)
    exists (resize nrows ncols r). split; [done|].
    split; [by apply RendererStateFacts.gridOk_resize|].
    destruct (RendererStateFacts.resize_cases nrows ncols r)
      as (Hsame & Hdiff & _).
    destruct (decide (nrows = rows r /\ ncols = cols r)) as [Heq|Hne].
    + rewrite (Hsame Heq). done.
    + destruct (Hdiff Hne) as (Hr & Hc & _ & Hd & Hs & _).
      split; [congruence|].
      intros row col Hrow Hcol Hdirty. destruct Hdirty. apply Hd. lia.
  - (* title *)
    eexists. split; [done|]. split; [by apply RedrawFacts.gridOk_title|].
    split; [done|]. intros row col Hrow Hcol Hdirty f ox oy cache.
    by rewrite <- Hclean.
  - (* selection *)
    eexists. split; [done|]. split; [by apply RedrawFacts.gridOk_selection|].
    split; [done|]. intros row col Hrow Hcol Hdirty f ox oy cache.
    by rewrite <- Hclean.
Qed.

Lemma clean_updates (us : list Update) (r0 : Renderer) :
  forall r,
    gridOk r -> styles r = styles r0 ->
    (forall row col, 0 <= row < rows r -> 0 <= col < cols r ->
       (row, col) ∉ dirtyCells r ->
       forall f ox oy cache,
         paintCell r f ox oy row col cache
         = paintCell r0 f ox oy row col cache) ->
    exists r',
      updates us r = Some r' /\ gridOk r'
      /\ (forall row col, 0 <= row < rows r' -> 0 <= col < cols r' ->
            (row, col) ∉ dirtyCells r' ->
            forall f ox oy cache,
              paintCell r' f ox oy row col cache
              = paintCell r0 f ox oy row col cache).
Proof.
  induction us as [|u us IH]; intros r Hgrid Hsty Hclean.
  - by exists r.
  - destruct (clean_update u r0 r Hgrid Hsty Hclean)
      as (r1 & Hu & Hgrid1 & Hsty1 & Hclean1).
    cbn [updates]. rewrite Hu. cbn [mbind option_bind]. by apply IH.
Qed.

(** X17 (write, cursorPos, resize, title, selection, clearDirty, with
    renderToBuffer).  The dirty set is complete for these updates: after
    [clearDirty] and any sequence of them that has been carried out, a
    cell of the area that is not in the dirty set is drawn as it was
    drawn before the updates, so that a redraw of the dirty cells alone
    brings a frame up to date; and the grid still has a cell at each
    position of its area. *)
Theorem dirty_cells_complete (us : list Update) (r r' : Renderer) :
  gridOk r ->
  updates us (clearDirty r) = Some r' ->
  gridOk r'
  /\ (forall row col, 0 <= row < rows r' -> 0 <= col < cols r' ->
        (row, col) ∉ dirtyCells r' ->
        forall isFocused offsetX offsetY cache,
          paintCell r' isFocused offsetX offsetY row col cache
          = paintCell r isFocused offsetX offsetY row col cache).
Proof.
  intros Hgrid Hdone.
  destruct (clean_updates us r (clearDirty r)) as (r1 & Hrun & Hres);
    [done..|].
  rewrite Hdone in Hrun. injection Hrun as <-. exact Hres.
Qed.

Lemma dirty_cells_complete_witness :
  let r := newRenderer 2 3 in
  let us := [UWrite 0 1 [mkCell "a" (Some 4) None None];
             UCursorPos 1 2 true] in
  exists r',
    updates us (clearDirty r) = Some r'
    /\ ((1, 0) ∉ dirtyCells r')
    /\ (forall isFocused offsetX offsetY cache,
          paintCell r' isFocused offsetX offsetY 1 0 cache
          = paintCell r isFocused offsetX offsetY 1 0 cache).
Proof.
  intros r us.
  assert (gridOk r) as Hgrid.
  { intros i Hi. simpl in Hi.
    assert (i = 0 \/ i = 1) as Hi' by lia.
    destruct Hi' as [->| ->];
      (eexists; split; [vm_compute; reflexivity|]);
      intros c Hc; simpl in Hc;
      assert (c = 0 \/ c = 1 \/ c = 2) as Hc' by lia;
      destruct Hc' as [->|[->| ->]]; vm_compute; by eexists. }
  destruct (updates us (clearDirty r)) as [r'|] eqn:Hrun;
    [|vm_compute in Hrun; discriminate].
  destruct (dirty_cells_complete us r r' Hgrid Hrun) as [Hgrid' Hclean].
  assert (rows r' = 2 /\ cols r' = 3 /\ (1, 0) ∉ dirtyCells r')
    as (Hrows & Hcols & Hnot).
  { assert ((fun x => (rows x, cols x, bool_decide ((1, 0) ∈ dirtyCells x)))
              <$> updates us (clearDirty r) = Some (2, 3, false)) as Hfacts
      by (vm_compute; reflexivity).
    rewrite Hrun in Hfacts. injection Hfacts as Hrows Hcols Hdirty.
    split; [done|]. split; [done|].
    by apply bool_decide_eq_false in Hdirty. }
  exists r'. split; [reflexivity|]. split; [exact Hnot|].
  apply Hclean; [lia|lia|exact Hnot].
Defined.

End PaintFacts.

(** ** input.ts *)

Module InputFacts.
Import Keybinds Input.

Lemma own_short (table : list (string * string)) (a : Ascii.ascii) :
  Forall (fun kv => (2 <= String.length kv.1)%nat) table ->
  own table (String a EmptyString) = None.
Proof.
  induction 1 as [|[k v] table Hk _ IH]; [done|].
  simpl. rewrite decide_False; [done|].
  intros ->. simpl in Hk. lia.
Qed.

Lemma not_elem_short (names : list string) (a : Ascii.ascii) :
  Forall (fun k => (2 <= String.length k)%nat) names ->
  String a EmptyString ∉ names.
Proof.
  intros Hall Hin.
  pose proof (proj1 (Forall_forall _ _) Hall _ Hin) as Hlen.
  simpl in Hlen. lia.
Qed.

Lemma fromTable_short (table : list (string * string)) (a : Ascii.ascii)
      (c al sh : option bool) :
  Forall (fun kv => (2 <= String.length kv.1)%nat) table ->
  fromTable table (String a EmptyString) c al sh = None.
Proof.
  intros Hall. unfold fromTable. rewrite own_short by done.
  rewrite bool_decide_eq_false_2; [done|].
  apply not_elem_short. unfold prototypeNames.
  repeat (constructor; [simpl; lia|]). constructor.
Qed.

Lemma controlCode_one (a : Ascii.ascii) :
  let n := Ascii.nat_of_ascii a in
  controlCode (String a EmptyString)
  = if ((65 <=? n) && (n <=? 95) || (97 <=? n) && (n <=? 122))%nat
    then Some (chr (n `mod` 32)) else None.
Proof.
  destruct a as [[] [] [] [] [] [] [] []]; vm_compute; reflexivity.
Qed.

(** The encoding of a key of one character. *)
Lemma encodeKey_single (cursorMode : CursorMode) (a : Ascii.ascii)
        (c al sh me : option bool) :
  let key := String a EmptyString in
  let n := Ascii.nat_of_ascii a in
  encodeKey cursorMode (mkKeyEvent key c al sh me)
  = Text (if truthy c && negb (truthy al) && negb (truthy me)
             && ((65 <=? n) && (n <=? 95) || (97 <=? n) && (n <=? 122))%nat
          then chr (n `mod` 32)
          else if truthy al then ESC +:+ key else key).
Proof.
  intros key n. subst key n. unfold encodeKey.
  cbn [Keybinds.key ctrl alt shift meta].
  assert (toLowerCase (String a EmptyString)
          = String (lower_ascii a) EmptyString) as -> by done.
  rewrite !fromTable_short;
    [|destruct cursorMode; repeat (constructor; [simpl; lia|]); constructor
     |repeat (constructor; [simpl; lia|]); constructor].
  rewrite !decide_False
    by (try intros [H|H]; try intros H; apply (f_equal String.length) in H;
        simpl in H; lia).
  rewrite bool_decide_eq_true_2 by done. rewrite decide_True by done.
  rewrite andb_true_r.
  pose proof (controlCode_one a) as Hcc. cbv zeta in Hcc. rewrite Hcc.
  destruct (truthy c), (truthy al), (truthy me); cbn [andb negb];
    try done; by destruct (_ || _)%nat.
Qed.

(** X18 (encodeKey).  A key of one character is encoded as follows.
    With Ctrl alone (no Alt, no Meta) a letter of either case and each of
    the characters from [[] to [_] give the control character whose code
    is the low five bits of the character's code: 1 to 26 for the letters,
    27 to 31 for the others.  Any other combination gives the character
    itself, after an ESC when Alt is held; Ctrl and Shift are dropped. *)
Theorem encodeKey_one_char (cursorMode : CursorMode) (a : Ascii.ascii)
        (c al sh me : option bool) :
  let key := String a EmptyString in
  let n := Ascii.nat_of_ascii a in
  encodeKey cursorMode (mkKeyEvent key c al sh me)
  = Text (if truthy c && negb (truthy al) && negb (truthy me)
             && ((65 <=? n) && (n <=? 95) || (97 <=? n) && (n <=? 122))%nat
          then chr (n `mod` 32)
          else if truthy al then ESC +:+ key else key).
Proof. exact (encodeKey_single cursorMode a c al sh me). Qed.

Lemma length_append (s1 s2 : string) :
  String.length (s1 +:+ s2) = (String.length s1 + String.length s2)%nat.
Proof.
  induction s1 as [|a s1 IH]; [done|].
  change (String a s1 +:+ s2) with (String a (s1 +:+ s2)).
  simpl. by rewrite IH.
Qed.

Lemma substring_all (s : string) :
  String.substring 0 (String.length s) s = s.
Proof. induction s as [|a s IH]; [done|]. simpl. by rewrite IH. Qed.

Lemma substring_app_l (s1 s2 : string) :
  String.substring 0 (String.length s1) (s1 +:+ s2) = s1.
Proof.
  induction s1 as [|a s1 IH]; [by destruct s2|].
  change (String a s1 +:+ s2) with (String a (s1 +:+ s2)).
  simpl. by rewrite IH.
Qed.

Lemma substring_app_r (s1 s2 : string) (m : nat) :
  String.substring (String.length s1) m (s1 +:+ s2)
  = String.substring 0 m s2.
Proof.
  induction s1 as [|a s1 IH]; [done|].
  change (String a s1 +:+ s2) with (String a (s1 +:+ s2)).
  simpl. by rewrite IH.
Qed.

Lemma csi_shape (num : string) (f : Ascii.ascii) :
  let seq := ESC +:+ "[" +:+ num +:+ String f EmptyString in
  String.prefix (ESC +:+ "[") seq = true
  /\ (2 <? String.length seq)%nat = true
  /\ String.substring (String.length seq - 1) 1 seq = String f EmptyString
  /\ String.substring 2 (String.length seq - 3) seq = num.
Proof.
  intros seq. subst seq.
  change (ESC +:+ "[" +:+ num +:+ String f EmptyString)
    with (String (Ascii.ascii_of_nat 27)
            (String "["%char (num +:+ String f EmptyString))).
  split; [|split; [|split]].
  - by destruct (num +:+ String f EmptyString).
  - apply Nat.ltb_lt. simpl. rewrite length_append. simpl. lia.
  - cbn [String.length]. rewrite length_append. cbn [String.length].
    replace (S (S (String.length num + 1)) - 1)%nat
      with (S (S (String.length num))) by lia.
    cbn [String.substring]. rewrite substring_app_r. done.
  - cbn [String.length]. rewrite length_append. cbn [String.length].
    replace (S (S (String.length num + 1)) - 3)%nat
      with (String.length num) by lia.
    cbn [String.substring]. apply substring_app_l.
Qed.

(** X19 (addModifiers).  Without Ctrl, Alt and Shift a sequence stays as
    it is.  Otherwise the modifier code is 1, plus 1 for Shift, 2 for Alt
    and 4 for Ctrl, a number from 2 to 8; a sequence ESC [ digits final
    gets it as a second parameter, after the digits or after a 1 when
    there are none; a sequence that does not start with ESC [ stays as it
    is and the modifiers are lost.  Every sequence of the key tables is of
    one of these two kinds. *)
Theorem addModifiers_spec (seq : string) (c al sh : option bool) :
  let code := 1 + (if truthy sh then 1 else 0) + (if truthy al then 2 else 0)
                + (if truthy c then 4 else 0) in
  (code = 1 -> addModifiers seq c al sh = seq)
  /\ (code <> 1 ->
      2 <= code <= 8
      /\ (forall num f,
            allDigits num = true ->
            seq = ESC +:+ "[" +:+ num +:+ String f EmptyString ->
            addModifiers seq c al sh
            = ESC +:+ "[" +:+ (if decide (num = EmptyString) then "1" else num)
                  +:+ ";" +:+ pretty code +:+ String f EmptyString)
      /\ (String.prefix (ESC +:+ "[") seq = false ->
          addModifiers seq c al sh = seq))
  /\ (forall cursorMode name s,
        own (fnKeyMap ++ navKeyMap cursorMode) name = Some s ->
        String.prefix (ESC +:+ "[") s = false
        \/ exists num f,
             allDigits num = true
             /\ s = ESC +:+ "[" +:+ num +:+ String f EmptyString).
Proof.
  intros code. split; [|split].
  - intros Hcode. unfold addModifiers. subst code.
    by destruct (truthy c), (truthy al), (truthy sh).
  - intros Hcode.
    assert (negb (truthy c) && negb (truthy al) && negb (truthy sh) = false)
      as Hmods.
    { subst code. by destruct (truthy c), (truthy al), (truthy sh). }
    split; [subst code; destruct (truthy c), (truthy al), (truthy sh); lia|].
    split.
    + intros num f Hnum ->. unfold addModifiers. rewrite Hmods.
      destruct (csi_shape num f) as (-> & -> & -> & ->).
      cbn [andb]. fold code.
      destruct (decide (num = EmptyString)) as [->|Hne]; [done|].
      unfold matchesDigits. rewrite Hnum.
      rewrite (bool_decide_eq_false_2 _ Hne). done.
    + intros Hprefix. unfold addModifiers. rewrite Hmods, Hprefix. done.
  - intros cursorMode name s Hown.
    assert (forall n : string, allDigits n = true ->
              forall f, exists num f',
                allDigits num = true
                /\ ESC +:+ "[" +:+ n +:+ String f EmptyString
                   = ESC +:+ "[" +:+ num +:+ String f' EmptyString) as Hcsi
      by (intros n Hn f; by exists n, f).
    destruct cursorMode; cbn [app fnKeyMap navKeyMap own] in Hown;
      repeat (case_decide; [injection Hown as <-;
                            first [by left
                                  |right; by apply (Hcsi EmptyString)
                                  |right; by apply (Hcsi "15")
                                  |right; by apply (Hcsi "17")
                                  |right; by apply (Hcsi "18")
                                  |right; by apply (Hcsi "19")
                                  |right; by apply (Hcsi "20")
                                  |right; by apply (Hcsi "21")
                                  |right; by apply (Hcsi "23")
                                  |right; by apply (Hcsi "24")
                                  |right; by apply (Hcsi "5")
                                  |right; by apply (Hcsi "6")
                                  |right; by apply (Hcsi "2")
                                  |right; by apply (Hcsi "3")]|]);
      done.
Qed.

Lemma toLowerCase_idemp (s : string) :
  toLowerCase (toLowerCase s) = toLowerCase s.
Proof.
  induction s as [|a s IH]; [done|]. simpl. f_equal; [|done].
  destruct a as [[] [] [] [] [] [] [] []]; vm_compute; reflexivity.
Qed.

Lemma lower_prototype (key : string) :
  toLowerCase key ∈ prototypeNames <->
  toLowerCase key = "constructor" \/ toLowerCase key = "__proto__".
Proof.
  pose proof (toLowerCase_idemp key) as Hid.
  unfold prototypeNames. rewrite !elem_of_cons, elem_of_nil.
  split; [|tauto].
  intros H; repeat destruct H as [H|H]; try tauto;
    rewrite H in Hid; vm_compute in Hid; discriminate.
Qed.

Lemma addModifiers_nonempty (seq : string) (c al sh : option bool) :
  seq <> EmptyString -> addModifiers seq c al sh <> EmptyString.
Proof.
  intros Hne. unfold addModifiers. repeat case_match; try done.
Qed.

(** X20 (encodeKey).  [encodeKey] answers a string for every key but
    those whose name in lower case is [constructor] or [__proto__]: these
    find a property of [Object.prototype] in the key table, which
    [encodeKey] returns as it is, or on which it throws when Ctrl, Alt or
    Shift is held.  The string is empty only for a name of more or less
    than one character that is in no table and none of [return], [enter],
    [tab], [backspace], [escape] and [space]. *)
Theorem encodeKey_kinds (cursorMode : CursorMode) (event : KeyEvent) :
  let lower := toLowerCase (key event) in
  let plain := negb (truthy (ctrl event)) && negb (truthy (alt event))
               && negb (truthy (shift event)) in
  ((lower = "constructor" \/ lower = "__proto__") ->
   encodeKey cursorMode event = if plain then Inherited else Thrown)
  /\ (~ (lower = "constructor" \/ lower = "__proto__") ->
      exists s, encodeKey cursorMode event = Text s)
  /\ (encodeKey cursorMode event = Text EmptyString ->
      String.length (key event) <> 1%nat
      /\ own (fnKeyMap ++ navKeyMap cursorMode) lower = None
      /\ lower ∉ ["return"; "enter"; "tab"; "backspace"; "escape"; "space"]).
Proof.
  intros lower plain.
  destruct event as [k c al sh me]. cbn [key ctrl alt shift] in *.
  assert (forall s, String.length s <> 1%nat -> controlCode s = None) as Hcc.
  { intros [|a [|b s]]; simpl; done. }
  split; [|split].
  - intros Hproto.
    assert (lower ∈ prototypeNames) as Hin by (by apply lower_prototype).
    assert (String.length k <> 1%nat) as Hlen.
    { intros Hlen. destruct k as [|a [|b k]]; try done.
      destruct Hproto as [H|H]; apply (f_equal String.length) in H;
        by vm_compute in H. }
    unfold encodeKey. cbn [key ctrl alt shift meta].
    rewrite (Hcc k Hlen). fold lower.
    assert (fromTable fnKeyMap lower c al sh
            = Some (if plain then Inherited else Thrown)) as ->.
    { unfold fromTable.
      assert (own fnKeyMap lower = None) as ->.
      { destruct Hproto as [-> | ->]; by vm_compute. }
      rewrite bool_decide_eq_true_2 by done. fold plain. by destruct plain. }
    by destruct (truthy c && negb (truthy al) && negb (truthy me)).
  - intros Hproto.
    assert (lower ∉ prototypeNames) as Hin
      by (intros Hin; by apply Hproto, lower_prototype).
    unfold encodeKey. cbn [key ctrl alt shift meta]. fold lower.
    unfold fromTable. rewrite (bool_decide_eq_false_2 _ Hin).
    repeat case_match; simplify_eq; by eexists.
  - unfold encodeKey. cbn [key ctrl alt shift meta]. fold lower.
    intros Henc.
    assert (String.length k <> 1%nat) as Hlen.
    { intros Hlen. destruct k as [|a [|b k]]; try done.
      pose proof (encodeKey_single cursorMode a c al sh me) as Hone.
      cbv zeta in Hone. unfold encodeKey in Hone.
      cbn [key ctrl alt shift meta] in Hone. fold lower in Hone.
      rewrite Hone in Henc. injection Henc as Henc.
      apply (f_equal String.length) in Henc.
      match type of Henc with
      | String.length (if ?b then _ else _) = _ => destruct b
      end; [done|]. by destruct (truthy al). }
    split; [done|].
    rewrite (Hcc k Hlen) in Henc.
    assert (match fromTable fnKeyMap lower c al sh with
            | Some res => res
            | None =>
                match fromTable (navKeyMap cursorMode) lower c al sh with
                | Some res => res
                | None =>
                    if decide (lower = "return" \/ lower = "enter") then
                      Text (if truthy al && negb (truthy c) then chr 10
                            else chr 13)
                    else if decide (lower = "tab") then
                      Text (if truthy sh then ESC +:+ "[Z" else chr 9)
                    else if decide (lower = "backspace") then Text (chr 127)
                    else if decide (lower = "escape") then Text ESC
                    else if decide (lower = "space") then Text " "
                    else if truthy al && bool_decide (String.length k = 1%nat)
                    then Text (ESC +:+ k)
                    else if decide (String.length k = 1%nat) then Text k
                    else Text EmptyString
                end
            end = Text EmptyString) as Hrest
      by (by destruct (truthy c && negb (truthy al) && negb (truthy me))).
    clear Henc.
    assert (forall table,
              Forall (fun kv => kv.2 <> EmptyString) table ->
              match fromTable table lower c al sh with
              | Some res => res <> Text EmptyString
              | None => own table lower = None
              end) as Htable.
    { intros table Hall. unfold fromTable.
      destruct (own table lower) as [seq|] eqn:Hown.
      - intros [= Hempty]. revert Hempty. apply addModifiers_nonempty.
        clear -Hall Hown. induction Hall as [|[k' v] table Hv _ IH]; [done|].
        simpl in Hown. case_decide; [|by apply IH].
        injection Hown as <-. done.
      - clear. destruct (bool_decide _); [|done].
        by destruct (_ && _ && _). }
    pose proof (Htable fnKeyMap) as Hfn.
    pose proof (Htable (navKeyMap cursorMode)) as Hnav.
    destruct (fromTable fnKeyMap lower c al sh) as [res|].
    { subst res. destruct Hfn; [|done].
      repeat (constructor; [by vm_compute|]). constructor. }
    destruct (fromTable (navKeyMap cursorMode) lower c al sh) as [res|].
    { subst res. destruct Hnav; [|done].
      destruct cursorMode; repeat (constructor; [by vm_compute|]); constructor. }
    split.
    + assert (forall t1 t2 : list (string * string),
                own t1 lower = None -> own t2 lower = None ->
                own (t1 ++ t2) lower = None) as Happ.
      { intros t1 t2 H1 H2. induction t1 as [|[k' v] t1 IH]; [done|].
        simpl in *. case_decide; [done|]. by apply IH. }
      apply Happ; [apply Hfn|apply Hnav];
        [|destruct cursorMode]; repeat (constructor; [by vm_compute|]);
        constructor.
    + rewrite !elem_of_cons, elem_of_nil. intros Hin.
      repeat case_decide; try (by vm_compute in Hrest);
        try (repeat case_match; by vm_compute in Hrest); tauto.
Qed.

End InputFacts.

(** ** keybinds.ts: the interpreter *)

Module KeyInterpreterFacts.
Import Keybinds KeyInterpreter.

Lemma interpretCommand_send (k data : string) :
  interpretCommand k = send_to_pty data -> data = ctrl_b.
Proof.
  unfold interpretCommand. repeat case_decide; try done. by intros [= <-].
Qed.

(** X21 (KeyEventInterpreter.handleKeyEvent, with processKey and
    interpretCommand).  The interpreter never asks for an empty string to
    be sent to the pty.  While the prefix matcher waits for a command the
    encoder is not consulted: the key is used up by the matcher, whatever
    it is.  Otherwise the prefix chord starts the wait and is not sent;
    any other key leaves the matcher as it is and is sent as the encoder
    has it, or dropped when the encoder has nothing for it.  [lowerCase]
    is the [toLowerCase] of the runtime, whatever it does to a name. *)
Theorem handleKeyEvent_routes (lowerCase : string -> string)
        (encodeKeyFn : KeyEvent -> string) (now : Z)
        (event : KeyEvent) (m : PrefixMatcher) :
  (handleKeyEvent lowerCase encodeKeyFn now event m).2 <> send_to_pty EmptyString
  /\ (waitingForCommand m = true ->
      forall otherFn,
        handleKeyEvent lowerCase encodeKeyFn now event m
        = handleKeyEvent lowerCase otherFn now event m
        /\ (handleKeyEvent lowerCase encodeKeyFn now event m).1 = newPrefixMatcher)
  /\ (waitingForCommand m = false -> isPrefixKey lowerCase event = true ->
      handleKeyEvent lowerCase encodeKeyFn now event m
      = (mkPrefixMatcher true (Some (now + 2000)), noop))
  /\ (waitingForCommand m = false -> isPrefixKey lowerCase event = false ->
      handleKeyEvent lowerCase encodeKeyFn now event m
      = (m, if decide (encodeKeyFn event = EmptyString) then noop
            else send_to_pty (encodeKeyFn event))).
Proof.
  unfold handleKeyEvent, processKey.
  split; [|split; [|split]].
  - destruct (waitingForCommand m); cbn [andb].
    + case_bool_decide; cbn [snd]; [done|].
      intros Hs. apply interpretCommand_send in Hs. by vm_compute in Hs.
    + destruct (isPrefixKey lowerCase event); cbn [snd]; [done|].
      case_decide; cbn [snd]; [done|]. congruence.
  - intros -> otherFn. cbn [andb]. by case_bool_decide.
  - intros -> ->. done.
  - intros -> ->. cbn [andb]. by case_decide.
Qed.

(** X22 (PrefixMatcher: processKey, the timeout, resetPrefixState).  The
    prefix chord arms a timer of 2000 ms.  A timer callback that runs
    before that time has passed changes nothing; one that runs at or after
    it puts the matcher back to its initial state, so that the next key is
    passed to the pty and not taken for a command.  A key that comes
    during the wait ends it and cancels the timer.  [lowerCase] is the
    [toLowerCase] of the runtime, whatever it does to a name. *)
Theorem prefix_times_out (lowerCase : string -> string)
        (encodeKeyFn : KeyEvent -> string) (t0 now : Z)
        (prefix event : KeyEvent) :
  isPrefixKey lowerCase prefix = true ->
  let m1 := (handleKeyEvent lowerCase encodeKeyFn t0 prefix newPrefixMatcher).1 in
  m1 = mkPrefixMatcher true (Some (t0 + 2000))
  /\ (now < t0 + 2000 -> timeoutElapsed now m1 = m1)
  /\ (t0 + 2000 <= now ->
      timeoutElapsed now m1 = newPrefixMatcher
      /\ (isPrefixKey lowerCase event = false ->
          handleKeyEvent lowerCase encodeKeyFn now event (timeoutElapsed now m1)
          = (newPrefixMatcher,
             if decide (encodeKeyFn event = EmptyString) then noop
             else send_to_pty (encodeKeyFn event))))
  /\ (let '(m2, action) := handleKeyEvent lowerCase encodeKeyFn now event m1 in
      m2 = newPrefixMatcher /\ timeoutElapsed (now + 2000) m2 = m2
      /\ action = if decide (lowerCase (key event) = "escape") then noop
                  else interpretCommand (lowerCase (key event))).
Proof.
  intros Hprefix m1.
  assert (m1 = mkPrefixMatcher true (Some (t0 + 2000))) as ->.
  { unfold m1, handleKeyEvent, processKey. cbn [waitingForCommand andb].
    unfold newPrefixMatcher at 1. cbn [waitingForCommand andb].
    by rewrite Hprefix. }
  split; [done|]. split; [|split].
  - intros Hlt. unfold timeoutElapsed. cbn [timeoutHandle].
    by rewrite decide_False by lia.
  - intros Hge.
    assert (timeoutElapsed now (mkPrefixMatcher true (Some (t0 + 2000)))
            = newPrefixMatcher) as ->.
    { unfold timeoutElapsed. cbn [timeoutHandle]. by rewrite decide_True by lia. }
    split; [done|]. intros Hnot.
    unfold handleKeyEvent, processKey, newPrefixMatcher.
    cbn [waitingForCommand andb]. rewrite Hnot. by case_decide.
  - unfold handleKeyEvent, processKey. cbn [waitingForCommand andb].
    case_bool_decide as Hesc.
    + rewrite decide_True by done. done.
    + rewrite decide_False by done. done.
Qed.

Lemma prefix_times_out_witness :
  let prefix := mkKeyEvent "b" (Some true) None None None in
  let event := mkKeyEvent "n" None None None None in
  let encodeKeyFn := fun e : KeyEvent => key e in
  let m1 := (handleKeyEvent toLowerCase encodeKeyFn 100 prefix newPrefixMatcher).1 in
  m1 = mkPrefixMatcher true (Some (100 + 2000))
  /\ (2500 < 100 + 2000 -> timeoutElapsed 2500 m1 = m1)
  /\ (100 + 2000 <= 2500 ->
      timeoutElapsed 2500 m1 = newPrefixMatcher
      /\ (isPrefixKey toLowerCase event = false ->
          handleKeyEvent toLowerCase encodeKeyFn 2500 event (timeoutElapsed 2500 m1)
          = (newPrefixMatcher,
             if decide (encodeKeyFn event = EmptyString) then noop
             else send_to_pty (encodeKeyFn event))))
  /\ (let '(m2, action) := handleKeyEvent toLowerCase encodeKeyFn 2500 event m1 in
      m2 = newPrefixMatcher /\ timeoutElapsed (2500 + 2000) m2 = m2
      /\ action = if decide (toLowerCase (key event) = "escape") then noop
                  else interpretCommand (toLowerCase (key event))).
Proof.
  intros prefix event encodeKeyFn.
  apply (prefix_times_out toLowerCase encodeKeyFn 100 2500 prefix event).
  reflexivity.
Defined.

End KeyInterpreterFacts.

(** ** rpc.ts: every run of a client *)

Module ClientFacts.
Import Rpc RpcSpec.

Lemma step_counter (e : Event) (c : RpcClient) :
  msgidCounter (step e c)
  = match e with
    | CallRequest _ _ _ => msgidCounter c + 1
    | _ => msgidCounter c
    end.
Proof.
  destruct e as [m q ok|m q ok|m h|msg|dt]; cbn [step].
  - unfold request. destruct ok; [done|]. cbn [snd emit msgidCounter].
    unfold clearTimeout, set_timers. cbn [msgidCounter].
    by rewrite (proj1 (RequestFacts.deletePending_other _ _)).
  - unfold notify. by destruct ok.
  - done.
  - unfold handleMessage.
    repeat (case_match; try done); cbn [emit msgidCounter];
      unfold clearTimeout, set_timers; cbn [msgidCounter];
      by rewrite (proj1 (RequestFacts.deletePending_other _ _)).
  - unfold elapse.
    by rewrite (proj2 (proj2 (RequestFacts.timers_fireTimers _ _))).
Qed.

Lemma isResponseFor_true (id : Z) (msg : value) :
  isResponseFor id msg = true ->
  exists error result, msg = VArr [VNum 1; VNum id; error; result].
Proof.
  unfold isResponseFor. intros H.
  repeat (case_match; try done); simplify_eq.
  apply bool_decide_eq_true in H as ->. by do 2 eexists.
Qed.

Lemma accounted_step (id : Z) (e : Event) (c : RpcClient) :
  invariant [] c -> accounted id c -> accounted id (step e c).
Proof.
  intros Hinv Hacc.
  pose proof (RequestFacts.step_msgidCounter e c) as Hmono.
  pose proof (step_counter e c) as Hcount.
  destruct Hacc as [[Hfresh Hh]|[[Hlt [p Hh]]|[Hlt (ss & Hlen & Hh)]]].
  - (* not handed out yet *)
    assert (pendingRequests c !! id = None) as Hnone
      by (unfold history in Hh; congruence).
    destruct e as [m q ok|m q ok|m h|msg|dt]; cbn [step] in *.
    + destruct (decide (msgidCounter c = id)) as [<-|Hne].
      * destruct ok.
        -- destruct (RequestFacts.request_sent m q c Hinv)
             as (_ & _ & _ & _ & Hc & Hh').
           right. left. split; [lia|]. by eexists.
        -- destruct (RequestFacts.request_not_sent m q c Hinv)
             as (_ & _ & Hc & Hh').
           right. right. split; [lia|].
           exists [RejectSendFailed]. split; [simpl; lia|done].
      * left. split; [lia|]. by rewrite RequestFacts.history_request.
    + left. split; [lia|]. rewrite <- Hh. unfold notify.
      destruct ok; by apply RequestFacts.history_emit.
    + left. done.
    + left. split; [lia|]. rewrite <- Hh.
      apply RequestFacts.history_handleMessage; [done|by right].
    + left. split; [lia|]. rewrite <- Hh.
      apply RequestFacts.history_elapse.
      intros t Ht Hid.
      destruct (inv_timer _ _ Hinv t) as [Hp _];
        [by rewrite app_nil_r|]. congruence.
  - (* pending *)
    assert (pendingRequests c !! id = Some p) as Hp
      by (unfold history in Hh; congruence).
    assert (settlements id (trace c) = [] /\ removals id (trace c) = [])
      as [Hs Hr] by (unfold history in Hh; split; congruence).
    destruct (RequestFacts.invariant_timer_of _ _ _ _ Hinv Hp)
      as (t & Ht & Hid & _).
    rewrite app_nil_r in Ht. subst id.
    destruct e as [m q ok|m q ok|m h|msg|dt]; cbn [step] in *.
    + right. left. split; [lia|]. exists p.
      rewrite <- Hh. apply RequestFacts.history_request. lia.
    + right. left. split; [lia|]. exists p.
      rewrite <- Hh. unfold notify.
      destruct ok; by apply RequestFacts.history_emit.
    + right. left. split; [done|]. by exists p.
    + destruct (isResponseFor (t_msgid t) msg) eqn:Hresp.
      * right. right. split; [lia|].
        destruct (isResponseFor_true _ _ Hresp) as (err & res & ->).
        rewrite (RequestFacts.history_response _ _ _ p) by done.
        rewrite Hs, Hr. eexists [_]. split; [simpl; lia|done].
      * right. left. split; [lia|]. exists p.
        rewrite <- Hh.
        apply RequestFacts.history_handleMessage; [done|by left].
    + destruct (decide (due t <= clock c + Z.of_N dt)) as [Hdue|Hnot].
      * right. right. split; [lia|].
        rewrite (RequestFacts.history_timeout t dt c) by done.
        rewrite Hs, Hr. eexists [_]. split; [simpl; lia|done].
      * right. left. split; [lia|]. exists p.
        rewrite <- Hh. apply RequestFacts.history_elapse.
        intros t' Ht' Hid'.
        assert (t' = t) as ->; [|lia].
        apply (RequestFacts.invariant_timer_unique [] c);
          rewrite ?app_nil_r; done.
  - (* out of the table *)
    assert (pendingRequests c !! id = None) as Hnone
      by (unfold history in Hh; congruence).
    right. right. split; [lia|]. exists ss. split; [done|].
    rewrite <- Hh. by apply RequestFacts.history_stale_step.
Qed.

Lemma accounted_run (id : Z) (es : list Event) :
  forall c, invariant [] c -> accounted id c -> accounted id (run es c).
Proof.
  induction es as [|e es IH]; intros c Hinv Hacc; [done|].
  change (run (e :: es) c) with (run es (step e c)).
  apply IH; [by apply RequestFacts.invariant_step|by apply accounted_step].
Qed.

Lemma accounted_init (now : Z) (id : Z) : accounted id (newRpcClient now).
Proof.
  destruct (decide (1 <= id)) as [Hid|Hid].
  - left. by split.
  - right. right. split; [simpl; lia|]. exists []. split; [simpl; lia|done].
Qed.

(** X23 (request, handleMessage, the timeout callback, notify, on).
    Whatever calls, messages and delays a client goes through, no promise
    is settled twice; an entry leaves the pending table exactly as often
    as its promise is settled; a request that is still in the table has
    not been settled; and nothing has happened to an id that has not been
    handed out. *)
Theorem promises_settle_once (now : Z) (es : list Event) (id : Z) :
  let c := run es (newRpcClient now) in
  (length (settlements id (trace c)) <= 1)%nat
  /\ removals id (trace c) = (fun _ => id) <$> settlements id (trace c)
  /\ (is_Some (pendingRequests c !! id) -> settlements id (trace c) = [])
  /\ (msgidCounter c <= id ->
      pendingRequests c !! id = None /\ settlements id (trace c) = []).
Proof.
  intros c.
  destruct (accounted_run id es (newRpcClient now)
              (RequestFacts.invariant_init now) (accounted_init now id))
    as [[Hfresh Hh]|[[Hlt [p Hh]]|[Hlt (ss & Hlen & Hh)]]];
    fold c in Hh; unfold history in Hh; injection Hh as Hp Hs Hr;
    rewrite Hp, Hs, Hr.
  - split; [simpl; lia|]. by repeat split.
  - split; [simpl; lia|]. split; [done|]. split; [done|].
    fold c in Hlt. intros Hge. lia.
  - split; [done|]. split; [done|]. split; [by intros [? ?]|].
    fold c in Hlt. intros Hge. lia.
Qed.

(** X24 (request, handleMessage, the timeout callback).  At every state a
    client can reach, the timers in the queue and the entries of the
    pending table match one to one: each timer belongs to the entry of its
    request, which holds that timer's handle; each entry has its timer; no
    two timers are for the same request; and no timer in the queue is
    overdue. *)
Theorem timers_match_pending (now : Z) (es : list Event) :
  let c := run es (newRpcClient now) in
  NoDup (t_msgid <$> timers c)
  /\ (forall k, k ∈ t_msgid <$> timers c <-> is_Some (pendingRequests c !! k))
  /\ (forall t, t ∈ timers c ->
        pendingRequests c !! t_msgid t
        = Some (mkPendingRequest (t_msgid t) (handle t))
        /\ clock c < due t)
  /\ length (timers c) = size (pendingRequests c).
Proof.
  intros c.
  assert (invariant [] c) as Hinv
    by apply RequestFacts.invariant_run, RequestFacts.invariant_init.
  assert (NoDup (t_msgid <$> timers c)) as Hnd.
  { apply NoDup_fmap_2_strong; [|by apply RequestFacts.NoDup_timers].
    intros t1 t2 H1 H2 Heq.
    apply (RequestFacts.invariant_timer_unique [] c); rewrite ?app_nil_r;
      done. }
  assert (forall k, k ∈ t_msgid <$> timers c
                    <-> is_Some (pendingRequests c !! k)) as Hiff.
  { intros k. split.
    - intros (t & -> & Ht)%list_elem_of_fmap.
      destruct (inv_timer _ _ Hinv t) as [Hp _]; [by rewrite app_nil_r|].
      by eexists.
    - intros [p Hp].
      destruct (inv_pending _ _ Hinv k p Hp) as (_ & t & Ht & <-).
      rewrite app_nil_r in Ht. apply list_elem_of_fmap. by exists t. }
  split; [done|]. split; [done|]. split.
  - intros t Ht. split; [|by apply (inv_due _ _ Hinv)].
    apply (inv_timer _ _ Hinv t). by rewrite app_nil_r.
  - rewrite <- (length_fmap t_msgid), <- size_dom.
    rewrite <- (size_list_to_set (C := gset Z)) by done.
    f_equal. apply set_eq. intros k.
    rewrite elem_of_list_to_set, elem_of_dom. apply Hiff.
Qed.

Lemma requestIds_from (es : list Event) : forall c,
  requestIds es c = seqZ (msgidCounter c) (Z.of_nat (requestCount es))
  /\ msgidCounter (run es c) = msgidCounter c + Z.of_nat (requestCount es).
Proof.
  induction es as [|e es IH]; intros c.
  - split; [done|]. simpl. lia.
  - change (run (e :: es) c) with (run es (step e c)).
    destruct (IH (step e c)) as [IH1 IH2].
    cbn [requestIds]. rewrite IH1, IH2, step_counter.
    destruct e as [m q ok|m q ok|m h|msg|dt]; cbn [requestCount app];
      try done.
    split; [|lia].
    rewrite Nat2Z.inj_succ, (seqZ_cons (msgidCounter c)) by lia.
    assert ((request m q ok c).1 = msgidCounter c) as ->
      by (unfold request; by destruct ok).
    cbn [app]. f_equal. f_equal; lia.
Qed.

(** X25 (request).  The request ids of a client count up from 1: the
    [k]-th call of [request] returns the id [k], whether or not its
    message could be sent, and whatever notifications, messages and
    timeouts come in between. *)
Theorem request_ids_count_up (now : Z) (es : list Event) :
  requestIds es (newRpcClient now) = seqZ 1 (Z.of_nat (requestCount es))
  /\ msgidCounter (run es (newRpcClient now))
     = 1 + Z.of_nat (requestCount es).
Proof. apply (requestIds_from es (newRpcClient now)). Qed.

End ClientFacts.

(** ** connection.ts: every reconnect *)

Module ReconnectFacts.
Import Connection ReconnectSpec.

Lemma sleeps_app (l1 l2 : list Effect) :
  sleeps (l1 ++ l2) = sleeps l1 ++ sleeps l2.
Proof. apply omap_app. Qed.

Lemma connectCalls_app (l1 l2 : list Effect) :
  connectCalls (l1 ++ l2) = (connectCalls l1 + connectCalls l2)%nat.
Proof. unfold connectCalls. by rewrite omap_app, length_app. Qed.

Lemma callbackRuns_app (l1 l2 : list Effect) :
  callbackRuns (l1 ++ l2) = (callbackRuns l1 + callbackRuns l2)%nat.
Proof. unfold callbackRuns. by rewrite omap_app, length_app. Qed.

(** A [connect] that gets connected, followed by a callback that
    throws: the [catch] block starts over from the connected state, whose
    attempt counter [connect] has put back to 0. *)
Lemma attemptReconnect_throw (rest : list bool) (c : PriseConnection) :
  reconnectAttempts c < maxReconnectAttempts c ->
  onReconnect c = true ->
  attemptReconnect (true :: false :: rest) c
  = let k := reconnectAttempts c + 1 in
    let c2 := mkPriseConnection true true 0 (maxReconnectAttempts c)
                (reconnectDelayMs c) true in
    let res := attemptReconnect rest c2 in
    (res.1.1,
     [Log info (AttemptingReconnect k (maxReconnectAttempts c)
                                    (reconnectDelayMs c * k));
      Sleep (reconnectDelayMs c * k);
      Log info ConnectingTo; CreateConnection; Log info ConnectedTo;
      OnReconnect; Log warn ReconnectionFailed] ++ res.1.2,
     Resolved).
Proof.
  intros H Hcb. cbn [attemptReconnect]. rewrite decide_False by lia.
  cbn [connect onReconnect maxReconnectAttempts reconnectDelayMs].
  rewrite Hcb.
  by destruct (attemptReconnect rest _) as [[c3 effs] d].
Qed.

(** X26 (attemptReconnect, connect).  As long as no reconnect callback
    throws (none is registered, or no [connect] that gets connected is
    followed by a callback that throws), and however the successive
    [connect] calls end, a reconnect makes at most as many of them as
    attempts are left; the waits before them grow linearly, the [k]-th
    attempt counted from the start of the outage waiting [k] times the
    base delay; the limits are not changed; and the callback is called at
    most once, and only when it was set and the manager is connected again
    with its attempt counter back at 0. *)
Theorem attemptReconnect_backoff (outcomes : list bool) :
  forall c : PriseConnection,
    onReconnect c = false \/ noThrow outcomes = true ->
    let res := attemptReconnect outcomes c in
    let n := connectCalls res.1.2 in
    Z.of_nat n <= Z.max 0 (maxReconnectAttempts c - reconnectAttempts c)
    /\ sleeps res.1.2
       = (fun k => reconnectDelayMs c * k)
           <$> seqZ (reconnectAttempts c + 1) (Z.of_nat n)
    /\ maxReconnectAttempts res.1.1 = maxReconnectAttempts c
    /\ reconnectDelayMs res.1.1 = reconnectDelayMs c
    /\ (callbackRuns res.1.2 <= 1)%nat
    /\ (callbackRuns res.1.2 = 1%nat ->
        onReconnect c = true /\ isConnected res.1.1 = true
        /\ rpc res.1.1 = true /\ reconnectAttempts res.1.1 = 0).
Proof.
  induction outcomes as [|o rest IH]; intros c Hquiet.
  - cbn [attemptReconnect]. case_decide as Hmax.
    + cbn. repeat split; try lia; try done.
    + cbn. repeat split; try lia; try done.
  - destruct (decide (maxReconnectAttempts c <= reconnectAttempts c))
      as [Hmax|Hmax].
    { rewrite ConnectionFacts.attemptReconnect_stop by done.
      cbn. repeat split; try lia; try done. }
    destruct o.
    + (* the socket gets connected *)
      cbn [attemptReconnect]. rewrite decide_False by done.
      cbn [connect fst snd onReconnect maxReconnectAttempts
           reconnectDelayMs isConnected rpc reconnectAttempts].
      destruct (onReconnect c) eqn:Hcb.
      * destruct rest as [|[] rest'].
        -- cbn. repeat split; try lia; try done.
        -- cbn. repeat split; try lia; try done.
        -- destruct Hquiet as [Hno|Hno]; [done|]. simpl in Hno. done.
      * cbn. repeat split; try lia; try done.
    + (* the socket reports an error *)
      destruct (isConnected c) eqn:Hconn.
      * cbn [attemptReconnect]. rewrite decide_False by done.
        cbn [connect isConnected]. rewrite Hconn.
        cbn. repeat split; try lia; try done.
      * rewrite ConnectionFacts.attemptReconnect_fail by (done || lia).
        cbv zeta. cbn [fst snd].
        set (c1 := mkPriseConnection _ _ _ _ _ _).
        specialize (IH c1). cbv zeta in IH.
        destruct IH as (Hn & Hs & Hm & Hd & Hcb & Hone).
        { destruct Hquiet as [Hno|Hno]; [by left|right].
          simpl in Hno. by destruct rest. }
        change (maxReconnectAttempts c1) with (maxReconnectAttempts c) in *.
        change (reconnectDelayMs c1) with (reconnectDelayMs c) in *.
        change (reconnectAttempts c1) with (reconnectAttempts c + 1) in *.
        change (onReconnect c1) with (onReconnect c) in *.
        rewrite connectCalls_app, sleeps_app, callbackRuns_app.
        change (connectCalls [_; _; _; _; _; _]) with 1%nat.
        change (callbackRuns [_; _; _; _; _; _]) with 0%nat.
        change (sleeps [_; _; _; _; _; _])
          with [reconnectDelayMs c * (reconnectAttempts c + 1)].
        split; [lia|]. split.
        { rewrite Hs, Nat2Z.inj_add.
          rewrite (seqZ_cons (reconnectAttempts c + 1)) by lia.
          rewrite fmap_cons. cbn [app]. f_equal. f_equal. f_equal; lia. }
        split; [done|]. split; [done|]. split; [simpl; lia|].
        intros H. apply Hone. simpl in H. lia.
Qed.

Lemma attemptReconnect_backoff_witness :
  let c := connectionLost
             (connect true (setReconnectCallback newPriseConnection)).1.1 in
  let res := attemptReconnect [false; false; true; true] c in
  noThrow [false; false; true; true] = true
  /\ sleeps res.1.2 = [1000; 2000; 3000]
  /\ callbackRuns res.1.2 = 1%nat.
Proof.
  intros c res.
  assert (onReconnect c = false \/ noThrow [false; false; true; true] = true)
    as H by (right; reflexivity).
  destruct (attemptReconnect_backoff [false; false; true; true] c H)
    as (_ & Hs & _).
  split; [reflexivity|]. split; [exact Hs|reflexivity].
Defined.

(** X27 (attemptReconnect, connect).  When, after the connection was
    lost, [connect] fails [k] times and then succeeds while attempts are
    left, and the callback, if one is registered, returns: the manager is
    connected, its attempt counter is back at 0, so that the next outage
    gets all the attempts again, exactly [k + 1] connections were tried,
    the callback was called once if it was set and not at all otherwise,
    and the outcomes after that are not looked at. *)
Theorem attemptReconnect_recovers (k : nat) (more : list bool)
        (c : PriseConnection) :
  reconnectAttempts c + Z.of_nat k < maxReconnectAttempts c ->
  isConnected c = false ->
  let callback := if onReconnect c then [true] else [] in
  let res := attemptReconnect
               (replicate k false ++ true :: callback ++ more) c in
  res.1.1 = mkPriseConnection true true 0 (maxReconnectAttempts c)
              (reconnectDelayMs c) (onReconnect c)
  /\ res.2 = Resolved
  /\ connectCalls res.1.2 = S k
  /\ callbackRuns res.1.2 = (if onReconnect c then 1 else 0)%nat
  /\ last res.1.2
     = Some (if onReconnect c then OnReconnect else Log info ConnectedTo).
Proof.
  revert c. induction k as [|k IH]; intros c Hlt Hdis.
  - cbn [replicate app attemptReconnect]. rewrite decide_False by lia.
    cbn [connect fst snd onReconnect maxReconnectAttempts
         reconnectDelayMs isConnected rpc reconnectAttempts].
    by destruct (onReconnect c).
  - cbn [replicate app].
    rewrite ConnectionFacts.attemptReconnect_fail by (done || lia).
    cbv zeta. cbn [fst snd].
    set (c1 := mkPriseConnection _ _ _ _ _ _).
    specialize (IH c1). cbv zeta in IH.
    destruct IH as (Hc & Hr & Hn & Hcb & Hlast).
    { subst c1. cbn [reconnectAttempts maxReconnectAttempts]. lia. }
    { done. }
    change (maxReconnectAttempts c1) with (maxReconnectAttempts c) in *.
    change (reconnectDelayMs c1) with (reconnectDelayMs c) in *.
    change (onReconnect c1) with (onReconnect c) in *.
    rewrite connectCalls_app, callbackRuns_app, Hn, Hcb.
    split; [done|]. split; [done|]. split; [done|]. split; [done|].
    rewrite last_app, Hlast. done.
Qed.

Lemma attemptReconnect_recovers_witness :
  let c := connectionLost
             (connect true (setReconnectCallback newPriseConnection)).1.1 in
  let res := attemptReconnect [false; false; true; true; false] c in
  reconnectAttempts c + 2 < maxReconnectAttempts c
  /\ isConnected c = false
  /\ res.1.1 = mkPriseConnection true true 0 5 1000 true
  /\ connectCalls res.1.2 = 3%nat
  /\ callbackRuns res.1.2 = 1%nat.
Proof.
  intros c res.
  assert (reconnectAttempts c + Z.of_nat 2 < maxReconnectAttempts c) as H
    by (vm_compute; reflexivity).
  assert (isConnected c = false) as Hdis by reflexivity.
  destruct (attemptReconnect_recovers 2 [false] c H Hdis)
    as (Hc & _ & Hn & Hcb & _).
  split; [vm_compute; reflexivity|]. split; [exact Hdis|].
  split; [exact Hc|]. split; [exact Hn|exact Hcb].
Defined.

(** X30 (attemptReconnect, connect).  A reconnect callback that throws
    makes the reconnect start over, and since the [connect] before it has
    put the attempt counter back to 0, the limit on the attempts does not
    hold: when [n] times in a row [connect] gets connected and the
    callback throws, and then [connect] gets connected and the callback
    returns, [n + 1] connections are made and the callback is called
    [n + 1] times, whatever [n] and the limit are; the first wait is the
    one of the attempt under way and every later one the base delay. *)
Theorem attemptReconnect_restarts (n : nat) (more : list bool)
        (c : PriseConnection) :
  onReconnect c = true ->
  reconnectAttempts c < maxReconnectAttempts c ->
  0 < maxReconnectAttempts c ->
  let res := attemptReconnect
               (concat (replicate n [true; false]) ++ true :: true :: more)
               c in
  res.1.1 = mkPriseConnection true true 0 (maxReconnectAttempts c)
              (reconnectDelayMs c) true
  /\ connectCalls res.1.2 = S n
  /\ callbackRuns res.1.2 = S n
  /\ sleeps res.1.2
     = reconnectDelayMs c * (reconnectAttempts c + 1)
       :: replicate n (reconnectDelayMs c * 1).
Proof.
  revert c. induction n as [|n IH]; intros c Hcb Hlt Hmax.
  - cbn [replicate concat app attemptReconnect].
    rewrite decide_False by lia.
    cbn [connect fst snd onReconnect maxReconnectAttempts
         reconnectDelayMs isConnected rpc reconnectAttempts].
    rewrite Hcb. done.
  - cbn [replicate concat app].
    rewrite attemptReconnect_throw by done.
    cbv zeta. cbn [fst snd].
    set (c2 := mkPriseConnection _ _ _ _ _ _).
    specialize (IH c2). cbv zeta in IH.
    destruct IH as (Hc & Hn & Hr & Hs); [done|simpl; lia|simpl; lia|].
    change (maxReconnectAttempts c2) with (maxReconnectAttempts c) in *.
    change (reconnectDelayMs c2) with (reconnectDelayMs c) in *.
    change (reconnectAttempts c2) with 0 in *.
    rewrite connectCalls_app, callbackRuns_app, sleeps_app, Hn, Hr, Hs.
    split; [done|]. split; [done|]. split; [done|].
    change (sleeps [_; _; _; _; _; _; _])
      with [reconnectDelayMs c * (reconnectAttempts c + 1)].
    cbn [app replicate]. done.
Qed.

Lemma attemptReconnect_restarts_witness :
  let c := connectionLost
             (connect true (setReconnectCallback newPriseConnection)).1.1 in
  let res := attemptReconnect
               (concat (replicate 6 [true; false]) ++ [true; true]) c in
  maxReconnectAttempts c = 5
  /\ connectCalls res.1.2 = 7%nat
  /\ callbackRuns res.1.2 = 7%nat.
Proof.
  intros c res.
  destruct (attemptReconnect_restarts 6 [] c)
    as (_ & Hn & Hr & _); [reflexivity|simpl; lia|simpl; lia|].
  split; [reflexivity|]. split; [exact Hn|exact Hr].
Defined.

End ReconnectFacts.

(** ** picker.ts, session.ts *)

Module PickerFacts.
Import Session Picker PickerSpec.

Lemma updateViewOffset_window (p : SessionPicker) :
  1 <= max_visible p -> 0 <= view_offset p -> 0 <= selected_index p ->
  let p' := updateViewOffset p in
  selected_index p' = selected_index p
  /\ max_height p' = max_height p
  /\ filter_query p' = filter_query p
  /\ 0 <= view_offset p' <= selected_index p'
  /\ selected_index p' < view_offset p' + max_visible p'.
Proof.
  intros Hmax Hoff Hsel. unfold updateViewOffset.
  destruct p as [mh show q sel vo]. unfold max_visible in *.
  cbn [max_height selected_index view_offset filter_query set_view_offset]
    in *.
  repeat case_decide;
    cbn [max_height selected_index view_offset filter_query set_view_offset]
    in *; repeat split; lia.
Qed.

Lemma filter_sublist {A} (f : A -> bool) (l : list A) :
  sublist (List.filter f l) l.
Proof.
  induction l as [|a l IH]; [done|]. simpl.
  destruct (f a); by constructor.
Qed.

Lemma indexOf_bound (s : Session) (l : list Session) :
  -1 <= indexOf s l < Z.of_nat (length l).
Proof.
  induction l as [|t l IH]; simpl; [lia|].
  repeat case_decide; lia.
Qed.

Lemma indexOf_position (l : list Session) :
  forall (i : nat) (s : Session),
    NoDup (session_ref <$> l) -> l !! i = Some s ->
    indexOf s l = Z.of_nat i.
Proof.
  induction l as [|t l IH]; intros i s Hnd Hi; [done|].
  rewrite fmap_cons in Hnd. apply NoDup_cons in Hnd as [Hnotin Hnd].
  destruct i as [|i]; simpl in *.
  - injection Hi as ->. by rewrite decide_True.
  - rewrite decide_False.
    + rewrite (IH i s Hnd Hi). case_decide; lia.
    + intros Heq. apply Hnotin. rewrite Heq.
      apply list_elem_of_fmap. exists s. split; [done|].
      by eapply list_elem_of_lookup_2.
Qed.

Lemma slice_lookup {A} (l : list A) (start stop : Z) (i : nat) :
  0 <= start <= stop -> stop <= Z.of_nat (length l) ->
  slice l start stop !! i
  = if decide (Z.of_nat i < stop - start)
    then l !! (Z.to_nat start + i)%nat else None.
Proof.
  intros Hs He. unfold slice.
  rewrite decide_False by lia. rewrite decide_False by lia.
  rewrite !Z.min_l by lia.
  case_decide as Hi.
  - rewrite lookup_take_lt by lia. by rewrite lookup_drop.
  - rewrite lookup_take_ge by lia. done.
Qed.

Lemma slice_length {A} (l : list A) (start stop : Z) :
  0 <= start <= stop -> stop <= Z.of_nat (length l) ->
  Z.of_nat (length (slice l start stop)) = stop - start.
Proof.
  intros Hs He. unfold slice.
  rewrite decide_False by lia. rewrite decide_False by lia.
  rewrite !Z.min_l by lia.
  rewrite length_take, length_drop. lia.
Qed.

Section Text.

Variable isBlank : string -> bool.
Variable includesLower : string -> string -> bool.

(** The window and the selection: the offset is not negative, the
    selection is not above the window nor below it, and the height is the
    one the picker was made with. *)
Lemma window_perform (h : Z) (call : Call) (m : SessionManager)
      (p : SessionPicker) :
  1 <= h ->
  max_visible p = h
  /\ 0 <= view_offset p <= selected_index p
  /\ selected_index p < view_offset p + h ->
  let st := perform isBlank includesLower call (m, p) in
  max_visible st.2 = h
  /\ 0 <= view_offset st.2 <= selected_index st.2
  /\ selected_index st.2 < view_offset st.2 + h.
Proof.
  intros Hh (Hmax & Hoff & Hsel).
  assert (forall q, max_visible (reset q p) = h
                    /\ 0 <= view_offset (reset q p) <= selected_index (reset q p)
                    /\ selected_index (reset q p) < view_offset (reset q p) + h)
    as Hreset.
  { intros q. split; [exact Hmax|cbn; lia]. }
  assert (forall i, 0 <= i ->
            let p' := updateViewOffset (set_selected_index i p) in
            max_visible p' = h
            /\ 0 <= view_offset p' <= selected_index p'
            /\ selected_index p' < view_offset p' + h) as Hmove.
  { intros i Hi p'.
    destruct (updateViewOffset_window (set_selected_index i p))
      as (_ & Hmh & _ & Hw1 & Hw2).
    - unfold max_visible in *. cbn. lia.
    - cbn. lia.
    - cbn. lia.
    - fold p' in Hmh, Hw1, Hw2.
      assert (max_visible p' = h) as Hm'.
      { unfold max_visible in *. rewrite Hmh. cbn. done. }
      rewrite Hm' in Hw2. done. }
  destruct call; cbn [perform snd];
    try apply Hreset; try done.
  - unfold backspaceFilter. case_decide; [apply Hreset|done].
  - unfold selectDown. case_decide as Hlen; [done|].
    apply Hmove. lia.
  - unfold selectUp. case_decide; [|done]. apply Hmove. lia.
  - unfold selectLast. case_decide as Hlen; [done|].
    apply Hmove. lia.
Qed.

Lemma window_performAll (h : Z) (calls : list Call) :
  forall (m : SessionManager) (p : SessionPicker),
    1 <= h ->
    max_visible p = h
    /\ 0 <= view_offset p <= selected_index p
    /\ selected_index p < view_offset p + h ->
    let st := performAll isBlank includesLower calls (m, p) in
    max_visible st.2 = h
    /\ 0 <= view_offset st.2 <= selected_index st.2
    /\ selected_index st.2 < view_offset st.2 + h.
Proof.
  induction calls as [|call calls IH]; intros m p Hh Hw; [done|].
  cbn [performAll foldl].
  pose proof (window_perform h call m p Hh Hw) as Hw'.
  destruct (perform isBlank includesLower call (m, p)) as [m' p'].
  by apply IH.
Qed.

(** X28 (SessionPicker: constructor, setFilterQuery, addFilterChar,
    backspaceFilter, clearFilter, selectDown, selectUp, selectFirst,
    selectLast, updateViewOffset).  A picker made with no height, height
    0 or a positive height keeps its selection inside its window through
    every sequence of calls, also when the list of sessions is replaced in
    between: the offset never goes below 0, the selected index is never
    above the window and never [max_height] or more rows below its
    top. *)
Theorem selection_in_window (opt_max_height : option Z)
        (opt_show : option bool) (m : SessionManager) (calls : list Call) :
  match opt_max_height with Some n => 0 <= n | None => True end ->
  let p := (performAll isBlank includesLower calls
              (m, newSessionPicker opt_max_height opt_show)).2 in
  max_visible p = max_visible (newSessionPicker opt_max_height opt_show)
  /\ 1 <= max_visible p
  /\ 0 <= view_offset p <= selected_index p
  /\ selected_index p < view_offset p + max_visible p.
Proof.
  intros Hopt p.
  set (h := max_visible (newSessionPicker opt_max_height opt_show)).
  assert (1 <= h) as Hh.
  { subst h. unfold max_visible.
    destruct opt_max_height as [[|n|n]|];
      cbn [newSessionPicker max_height]; case_decide; lia. }
  destruct (window_performAll h calls m
              (newSessionPicker opt_max_height opt_show) Hh)
    as (Hm & Hw1 & Hw2).
  { split; [done|]. cbn. lia. }
  fold p in Hm, Hw1, Hw2. rewrite Hm. done.
Qed.

(** The selection and the list: the selected index is 0 or that of an
    entry of the filtered list. *)
Lemma range_perform (call : Call) (m : SessionManager) (p : SessionPicker) :
  1 <= max_visible p -> 0 <= view_offset p ->
  replacesSessions call = false ->
  0 <= selected_index p
  /\ (selected_index p = 0
      \/ selected_index p
         < Z.of_nat (length (getFilteredSessions isBlank includesLower m p))) ->
  let st := perform isBlank includesLower call (m, p) in
  sessions st.1 = sessions m
  /\ 0 <= selected_index st.2
  /\ (selected_index st.2 = 0
      \/ selected_index st.2
         < Z.of_nat (length (getFilteredSessions isBlank includesLower
                               st.1 st.2))).
Proof.
  intros Hmax Hoff Hcall [Hsel Hrange].
  assert (forall i, 0 <= i ->
            i < Z.of_nat (length (getFilteredSessions isBlank includesLower
                                    m p)) ->
            let p' := updateViewOffset (set_selected_index i p) in
            0 <= selected_index p'
            /\ (selected_index p' = 0
                \/ selected_index p'
                   < Z.of_nat (length (getFilteredSessions isBlank
                                         includesLower m p')))) as Hmove.
  { intros i Hi Hlt p'.
    destruct (updateViewOffset_window (set_selected_index i p))
      as (Hs & _ & Hq & _); [done..|].
    fold p' in Hs, Hq. unfold getFilteredSessions in *.
    rewrite Hs, Hq. cbn. split; [lia|]. by right. }
  destruct call; try done; cbn [perform fst snd]; (split; [done|]);
    try (cbn; split; [lia|by left]).
  - unfold backspaceFilter. case_decide; [|done]. cbn. split; [lia|by left].
  - unfold selectDown. case_decide as Hlen; [done|].
    apply Hmove; lia.
  - unfold selectUp. case_decide; [|done]. apply Hmove; lia.
  - unfold selectLast. case_decide as Hlen; [done|].
    apply Hmove; lia.
Qed.

Lemma range_performAll (h : Z) (calls : list Call) :
  forall (m : SessionManager) (p : SessionPicker),
    1 <= h ->
    max_visible p = h
    /\ 0 <= view_offset p <= selected_index p
    /\ selected_index p < view_offset p + h ->
    forallb (fun call => negb (replacesSessions call)) calls = true ->
    selected_index p = 0
    \/ selected_index p
       < Z.of_nat (length (getFilteredSessions isBlank includesLower m p)) ->
    let st := performAll isBlank includesLower calls (m, p) in
    sessions st.1 = sessions m
    /\ (selected_index st.2 = 0
        \/ selected_index st.2
           < Z.of_nat (length (getFilteredSessions isBlank includesLower
                                 st.1 st.2))).
Proof.
  induction calls as [|call calls IH]; intros m p Hh Hw Hcalls Hr; [done|].
  cbn [performAll foldl].
  cbn [forallb] in Hcalls. apply andb_true_iff in Hcalls as [Hc Hcalls].
  apply negb_true_iff in Hc.
  pose proof (window_perform h call m p Hh Hw) as Hw'.
  destruct (range_perform call m p) as (Hm & _ & Hr');
    [lia|lia|done|split; [lia|done]|].
  destruct (perform isBlank includesLower call (m, p)) as [m' p'].
  cbn [fst snd] in *.
  destruct (IH m' p' Hh Hw' Hcalls Hr') as [Hm'' Hr''].
  cbv zeta. split; [|done].
  etransitivity; [exact Hm''|exact Hm].
Qed.

(** X29 (SessionPicker.getSelectedSession, getVisibleSessions,
    getFilteredSessions, selectDown, selectUp, selectLast,
    SessionManager.filterSessions).  As long as the list of sessions is
    not replaced, and its entries are distinct objects, a picker made
    with no height, height 0 or a positive height and whose filtered list
    is not empty has a selected session, and [getVisibleSessions] shows
    it: the row at the selected index minus the offset holds that session
    and is flagged as selected, no other row is flagged, and no more than
    [max_height] rows are returned. *)
Theorem selected_session_shown (opt_max_height : option Z)
        (opt_show : option bool) (m : SessionManager) (calls : list Call) :
  match opt_max_height with Some n => 0 <= n | None => True end ->
  NoDup (session_ref <$> sessions m) ->
  forallb (fun call => negb (replacesSessions call)) calls = true ->
  let st := performAll isBlank includesLower calls
              (m, newSessionPicker opt_max_height opt_show) in
  let shown := getVisibleSessions isBlank includesLower st.1 st.2 in
  let at_row := Z.to_nat (selected_index st.2 - view_offset st.2) in
  getFilteredSessions isBlank includesLower st.1 st.2 <> [] ->
  exists s,
    getSelectedSession isBlank includesLower st.1 st.2 = Some s
    /\ rows shown !! at_row
       = Some (mkRow s true
                 (bool_decide (Some (session_id s) = current_session_id st.1)))
    /\ (forall i r, rows shown !! i = Some r -> is_selected r = true ->
         i = at_row)
    /\ Z.of_nat (length (rows shown)) <= max_visible st.2
    /\ visible_count shown = Z.of_nat (length (rows shown)).
Proof.
  intros Hopt Hnd Hcalls st shown at_row Hne.
  set (h := max_visible (newSessionPicker opt_max_height opt_show)).
  assert (1 <= h) as Hh.
  { subst h. unfold max_visible.
    destruct opt_max_height as [[|n|n]|];
      cbn [newSessionPicker max_height]; case_decide; lia. }
  assert (max_visible (newSessionPicker opt_max_height opt_show) = h
          /\ 0 <= view_offset (newSessionPicker opt_max_height opt_show)
             <= selected_index (newSessionPicker opt_max_height opt_show)
          /\ selected_index (newSessionPicker opt_max_height opt_show)
             < view_offset (newSessionPicker opt_max_height opt_show) + h)
    as Hw0 by (split; [done|cbn; lia]).
  destruct (window_performAll h calls m _ Hh Hw0) as (Hm & Hw1 & Hw2).
  destruct (range_performAll h calls m _ Hh Hw0 Hcalls) as [Hsess Hr];
    [by left|].
  fold st in Hm, Hw1, Hw2, Hsess, Hr.
  destruct st as [m' p]. cbn [fst snd] in *.
  subst shown. unfold getSelectedSession, getVisibleSessions.
  set (filtered := getFilteredSessions isBlank includesLower m' p) in *.
  assert (0 < Z.of_nat (length filtered)) as Hpos
    by (destruct filtered; [done|simpl; lia]).
  assert (selected_index p < Z.of_nat (length filtered)) as Hlt by lia.
  assert (NoDup (session_ref <$> filtered)) as Hndf.
  { apply (sublist_NoDup _ (session_ref <$> sessions m)); [exact Hnd|].
    apply fmap_sublist.
    rewrite <- Hsess. subst filtered.
    unfold getFilteredSessions, filterSessions.
    destruct (isBlank _); [done|apply filter_sublist]. }
  destruct (lookup_lt_is_Some_2 filtered (Z.to_nat (selected_index p)))
    as [s Hs]; [lia|].
  cbn [rows visible_count].
  set (stop := Z.min (view_offset p + max_visible p)
                     (Z.of_nat (length filtered))).
  assert (view_offset p <= stop /\ selected_index p < stop
          /\ stop <= Z.of_nat (length filtered)
          /\ stop - view_offset p <= max_visible p) as (Hs1 & Hs2 & Hs3 & Hs4)
    by (subst stop; lia).
  exists s. split; [|split; [|split; [|split]]].
  - rewrite decide_False by lia. by rewrite decide_True by lia.
  - rewrite list_lookup_fmap, slice_lookup by lia.
    rewrite decide_True by (subst at_row; lia).
    replace (Z.to_nat (view_offset p) + at_row)%nat
      with (Z.to_nat (selected_index p)) by (subst at_row; lia).
    rewrite Hs. cbn [fmap option_fmap option_map]. f_equal. f_equal.
    rewrite (indexOf_position filtered _ s Hndf Hs).
    apply bool_decide_eq_true. lia.
  - intros i r. rewrite list_lookup_fmap, slice_lookup by lia.
    case_decide as Hi; [|done].
    destruct (filtered !! (Z.to_nat (view_offset p) + i)%nat)
      as [t|] eqn:Ht; [|done].
    cbn [fmap option_fmap option_map]. intros [= <-]. cbn [is_selected].
    rewrite (indexOf_position filtered _ t Hndf Ht).
    intros Hsel%bool_decide_eq_true. subst at_row. lia.
  - rewrite length_fmap, slice_length by lia. lia.
  - by rewrite length_fmap.
Qed.

End Text.

Lemma selection_in_window_witness :
  let m := updateSessions
             [mkSession 0 7 "b" 0; mkSession 1 3 "a" 1; mkSession 2 5 "c" 0]
             0 newSessionManager in
  let p := (performAll (fun _ => true) (fun _ _ => true)
              [SelectDown; SelectDown; SelectDown]
              (m, newSessionPicker (Some 2) None)).2 in
  selected_index p = 2 /\ view_offset p = 1
  /\ 0 <= view_offset p <= selected_index p
  /\ selected_index p < view_offset p + max_visible p.
Proof.
  intros m p.
  assert (match Some 2 with Some n => 0 <= n | None => True end) as H
    by (simpl; lia).
  destruct (selection_in_window (fun _ => true) (fun _ _ => true)
              (Some 2) None m [SelectDown; SelectDown; SelectDown] H)
    as (_ & _ & Hw1 & Hw2).
  split; [reflexivity|]. split; [reflexivity|].
  split; [exact Hw1|exact Hw2].
Defined.

Lemma selected_session_shown_witness :
  let m := updateSessions
             [mkSession 0 7 "b" 0; mkSession 1 3 "a" 1; mkSession 2 5 "c" 0]
             0 newSessionManager in
  let st := performAll (fun _ => true) (fun _ _ => true)
              [SelectDown; SetCurrentSession (Some 7); SelectDown]
              (m, newSessionPicker (Some 2) None) in
  exists s,
    getSelectedSession (fun _ => true) (fun _ _ => true) st.1 st.2 = Some s
    /\ session_id s = 7.
Proof.
  intros m st.
  assert (match Some 2 with Some n => 0 <= n | None => True end) as H1
    by (simpl; lia).
  assert (NoDup (session_ref <$> sessions m)) as H2.
  { vm_compute.
    repeat (apply NoDup_cons; split;
            [rewrite ?elem_of_cons, elem_of_nil; intros H; intuition lia|]).
    apply NoDup_nil_2. }
  assert (forallb (fun call => negb (replacesSessions call))
            [SelectDown; SetCurrentSession (Some 7); SelectDown] = true)
    as H3 by reflexivity.
  destruct (selected_session_shown (fun _ => true) (fun _ _ => true)
              (Some 2) None m _ H1 H2 H3) as (s & Hs & _).
  { vm_compute. discriminate. }
  exists s. split; [exact Hs|].
  vm_compute in Hs. injection Hs as <-. reflexivity.
Defined.

End PickerFacts.
